(** * testdoc: the documentation-to-test-suite compiler of [src/compile.js]

    A shallow embedding of [compile], [findAssertion],
    [parseExpectationFromNode], the [enter] visitor and the
    [resolveModuleSource] hook, with the properties of the specification
    stated and proved over them.

    Conventions of the embedding.
    - A JavaScript string is a [string]; a character is one code unit, and the
      development covers code units below 256.
    - A Babel syntax tree is the inductive type [node].  Every node carries
      its leading and its trailing comments, a comment its text and the
      offset it starts at; the three node types the traversal treats on
      their own have constructors of their own, the others list their keys
      in the order the library visits them.
    - The traversal is the one of [babel-traverse]: queues of paths,
      replacements that inherit comments and are visited again, removals
      that hand the comments to the siblings, the errors the library throws
      where a node can be neither replaced nor removed.  What building the
      scopes of a tree throws is a parameter, [crawl].
    - A JavaScript object used as a map is a [gmap] of its own properties
      together with the property names every object inherits from
      [Object.prototype].
    - Exceptions and the traversal's fuel are the type [outcome]. *)

From Stdlib Require Import Ascii String List Bool Arith Lia.
From stdpp Require Import gmap strings list.

(** [simpl] computes an append whose first argument starts with a
    constructor. *)
#[local] Arguments String.append !_ _ / : simpl nomatch.

(** ** JavaScript strings and the two annotation patterns *)

Module JsString.

(** The character class [\s], on code units below 256: tab, line feed,
    vertical tab, form feed, carriage return, space, no-break space. *)
Definition is_space (c : ascii) : bool :=
  let n := nat_of_ascii c in
  (n =? 9) || (n =? 10) || (n =? 11) || (n =? 12) || (n =? 13)
  || (n =? 32) || (n =? 160).

(** The character class [[a-zA-Z]]. *)
Definition is_letter (c : ascii) : bool :=
  let n := nat_of_ascii c in
  ((65 <=? n) && (n <=? 90)) || ((97 <=? n) && (n <=? 122)).

(** Every character of [s] satisfies [p]. *)
Fixpoint all (p : ascii -> bool) (s : string) : bool :=
  match s with
  | EmptyString => true
  | String c s' => p c && all p s'
  end.

(** What is left of [s] after a greedy [\s*] at its start. *)
Fixpoint skip_space (s : string) : string :=
  match s with
  | String c s' => if is_space c then skip_space s' else s
  | EmptyString => s
  end.

(** The greedy [[a-zA-Z]*] at the start of [s], and the rest. *)
Fixpoint span_letters (s : string) : string * string :=
  match s with
  | String c s' =>
      if is_letter c
      then let '(l, r) := span_letters s' in (String c l, r)
      else (EmptyString, s)
  | EmptyString => (EmptyString, EmptyString)
  end.

(** [s] without the literal [p] at its start, when it starts with [p]. *)
Fixpoint strip_prefix (p s : string) : option string :=
  match p with
  | EmptyString => Some s
  | String a p' =>
      match s with
      | String b s' => if Ascii.eqb a b then strip_prefix p' s' else None
      | EmptyString => None
      end
  end.

(** [s] ends with the literal [suf]. *)
Fixpoint ends_with (suf s : string) : bool :=
  String.eqb s suf ||
  match s with
  | String _ s' => ends_with suf s'
  | EmptyString => false
  end.

(** [s.slice(n)] for [0 <= n]. *)
Fixpoint slice_from (n : nat) (s : string) : string :=
  match n, s with
  | O, _ => s
  | S n', String _ s' => slice_from n' s'
  | S _, EmptyString => EmptyString
  end.

(** [s.slice(0, s.length - 1)]. *)
Fixpoint drop_last (s : string) : string :=
  match s with
  | EmptyString => EmptyString
  | String c EmptyString => EmptyString
  | String c s' => String c (drop_last s')
  end.

(** [s[s.length - 1]], undefined on the empty string. *)
Fixpoint last_char (s : string) : option ascii :=
  match s with
  | EmptyString => None
  | String c EmptyString => Some c
  | String _ s' => last_char s'
  end.

(** [lines.join(sep)]. *)
Fixpoint join (sep : string) (lines : list string) : string :=
  match lines with
  | [] => EmptyString
  | [l] => l
  | l :: ls => l +:+ sep +:+ join sep ls
  end.

(** A string is truthy when it is not empty. *)
Definition truthy (s : string) : bool :=
  match s with EmptyString => false | _ => true end.

Definition newline : string := String (ascii_of_nat 10) EmptyString.

End JsString.

Import JsString.

(** [REPR_ASSERTION_RE = /^\s*=> /]: [exec] gives what follows the match. *)
Definition REPR_ASSERTION_RE (s : string) : option string :=
  strip_prefix "=> " (skip_space s).

(** [ERR_ASSSERTION_RE = /^\s*([a-zA-Z]*Error): /]: [exec] gives group 1 and
    what follows the match.  The class of group 1 excludes the colon and the
    white space, so the group is the whole run of letters, which has to end
    in [Error]. *)
Definition ERR_ASSSERTION_RE (s : string) : option (string * string) :=
  let '(letters, rest) := span_letters (skip_space s) in
  if ends_with "Error" letters then
    match strip_prefix ": " rest with
    | Some message => Some (letters, message)
    | None => None
    end
  else None.

(** [s.replace(re, '')] for a pattern anchored at the start and without the
    global flag: the match is cut off, a string that does not match is kept. *)
Definition replace_match {A} (exec : string -> option A) (after : A -> string)
    (s : string) : string :=
  match exec s with
  | Some m => after m
  | None => s
  end.

(** The patterns in the words of the specification. *)
Definition matches_repr (s rest : string) : Prop :=
  exists ws, all is_space ws = true /\ s = ws +:+ "=> " +:+ rest.

Definition matches_error (s name rest : string) : Prop :=
  exists ws x,
    all is_space ws = true /\ all is_letter x = true /\
    name = x +:+ "Error" /\ s = ws +:+ name +:+ ": " +:+ rest.

(** ** Exceptions and fuel *)

Inductive exn : Type :=
| SyntaxError (message : string)
| TypeError (message : string)
| Error (message : string).

(** The result of running a piece of the compiler: a value, a thrown
    exception, or a traversal that was given too little fuel. *)
Inductive outcome (A : Type) : Type :=
| Ok (a : A)
| Throw (e : exn)
| OutOfFuel.

Arguments Ok {A} a.
Arguments Throw {A} e.
Arguments OutOfFuel {A}.

#[global] Instance outcome_ret : MRet outcome := fun A a => Ok a.

#[global] Instance outcome_bind : MBind outcome := fun A B f m =>
  match m with
  | Ok a => f a
  | Throw e => Throw e
  | OutOfFuel => OutOfFuel
  end.

(** ** JavaScript objects used as maps

    [obj[key]] looks the key up among the object's own properties and then
    along the prototype chain, which for an object literal is
    [Object.prototype]. *)

Module JsObject.

Definition Object_prototype : list string :=
  [ "constructor"; "hasOwnProperty"; "isPrototypeOf"; "propertyIsEnumerable";
    "toLocaleString"; "toString"; "valueOf"; "__proto__";
    "__defineGetter__"; "__defineSetter__"; "__lookupGetter__";
    "__lookupSetter__" ].

Inductive property (V : Type) : Type :=
| Own (v : V)
| Inherited (key : string)
| Undefined.

Arguments Own {V} v.
Arguments Inherited {V} key.
Arguments Undefined {V}.

Definition inherited (key : string) : bool :=
  bool_decide (key ∈ Object_prototype).

Definition get {V} (own : gmap string V) (key : string) : property V :=
  match own !! key with
  | Some v => Own v
  | None => if inherited key then Inherited key else Undefined
  end.

(** [String(key)] for a key that may be [null]. *)
Definition to_key (key : option string) : string := default "null" key.

(** The [name] of the value found under an inherited key: the methods are
    functions named like their key, [constructor] is [Object], and
    [__proto__] is an object without a [name]. *)
Definition inherited_name (key : string) : option string :=
  if String.eqb key "constructor" then Some "Object"
  else if String.eqb key "__proto__" then None
  else Some key.

End JsObject.

(** ** The syntax tree of a sample *)

(** A comment as Babylon attaches it to the nodes around it: its text and
    the offset it starts at.  One comment object may hang on two nodes, as
    a trailing comment of the statement before it and as a leading comment
    of the statement after it; two comments of one parse are the same
    object exactly when they start at the same offset. *)
Record JSASTComment : Type := { value : string; start : nat }.

Definition same_comment (a b : JSASTComment) : bool :=
  String.eqb (value a) (value b) && Nat.eqb (start a) (start b).

(** [?Array<JSASTComment>]: [None] is [undefined]. *)
Definition comments : Type := option (list JSASTComment).

Definition comments_list (cs : comments) : list JSASTComment := default [] cs.

(** The node types other than the three the traversal treats on their own;
    the attributes that are not nodes are kept with the type. *)
Inductive node_type : Type :=
| File
| Program
| BlockStatement
| FunctionDeclaration (async : bool)
| FunctionExpression (async : bool)
| ArrowFunctionExpression (async : bool)
| CallExpression
| MemberExpression
| AwaitExpression
| Identifier (name : string)
| StringLiteral (text : string)
| ImportDefaultSpecifier
| ImportNamespaceSpecifier
| OtherType (type : string) (text : string).

Definition type_name (t : node_type) : string :=
  match t with
  | File => "File"
  | Program => "Program"
  | BlockStatement => "BlockStatement"
  | FunctionDeclaration _ => "FunctionDeclaration"
  | FunctionExpression _ => "FunctionExpression"
  | ArrowFunctionExpression _ => "ArrowFunctionExpression"
  | CallExpression => "CallExpression"
  | MemberExpression => "MemberExpression"
  | AwaitExpression => "AwaitExpression"
  | Identifier _ => "Identifier"
  | StringLiteral _ => "StringLiteral"
  | ImportDefaultSpecifier => "ImportDefaultSpecifier"
  | ImportNamespaceSpecifier => "ImportNamespaceSpecifier"
  | OtherType type _ => type
  end.

(** A key of a node that the traversal visits holds one node or an array
    of nodes; a key that holds [null] is left out. *)
Inductive field (N : Type) : Type :=
| Single (key : string) (child : N)
| Multiple (key : string) (children : list N).

Arguments Single {N} key child.
Arguments Multiple {N} key children.

(** A node carries its leading and its trailing comments; an expression
    statement also carries the [__TESTDOC_SEEN] property, which only [enter]
    sets and only on the statements it builds.  The fields of a [Node] are
    listed in the order of [VISITOR_KEYS]. *)
#[local] Unset Elimination Schemes.
Inductive node : Type :=
| ExpressionStatement (expression : node)
    (leadingComments trailingComments : comments) (seen : bool)
| ImportDeclaration (specifiers : list node) (source : string)
    (leadingComments trailingComments : comments)
| LabeledStatement (label body : node)
    (leadingComments trailingComments : comments)
| Node (type : node_type) (fields : list (field node))
    (leadingComments trailingComments : comments).
#[local] Set Elimination Schemes.

Definition leadingComments_of (n : node) : comments :=
  match n with
  | ExpressionStatement _ lc _ _ => lc
  | ImportDeclaration _ _ lc _ => lc
  | LabeledStatement _ _ lc _ => lc
  | Node _ _ lc _ => lc
  end.

Definition trailingComments_of (n : node) : comments :=
  match n with
  | ExpressionStatement _ _ tc _ => tc
  | ImportDeclaration _ _ _ tc => tc
  | LabeledStatement _ _ _ tc => tc
  | Node _ _ _ tc => tc
  end.

Definition set_leadingComments (n : node) (lc : comments) : node :=
  match n with
  | ExpressionStatement e _ tc seen => ExpressionStatement e lc tc seen
  | ImportDeclaration sp src _ tc => ImportDeclaration sp src lc tc
  | LabeledStatement l b _ tc => LabeledStatement l b lc tc
  | Node t fs _ tc => Node t fs lc tc
  end.

Definition set_trailingComments (n : node) (tc : comments) : node :=
  match n with
  | ExpressionStatement e lc _ seen => ExpressionStatement e lc tc seen
  | ImportDeclaration sp src lc _ => ImportDeclaration sp src lc tc
  | LabeledStatement l b lc _ => LabeledStatement l b lc tc
  | Node t fs lc _ => Node t fs lc tc
  end.

(** [node[TESTDOC_SEEN]], undefined (falsy) where it was never set. *)
Definition TESTDOC_SEEN (n : node) : bool :=
  match n with
  | ExpressionStatement _ _ _ seen => seen
  | _ => false
  end.

Definition set_TESTDOC_SEEN (n : node) : node :=
  match n with
  | ExpressionStatement e lc tc _ => ExpressionStatement e lc tc true
  | _ => n
  end.

Definition isImportDeclaration (n : node) : bool :=
  match n with ImportDeclaration _ _ _ _ => true | _ => false end.

(** [node.expression]. *)
Definition expression_of (n : node) : option node :=
  match n with ExpressionStatement e _ _ _ => Some e | _ => None end.

(** The fields of a node, and [node[key]]. *)
Definition fields_of (n : node) : list (field node) :=
  match n with
  | ExpressionStatement e _ _ _ => [Single "expression" e]
  | ImportDeclaration sp src _ _ =>
      [Multiple "specifiers" sp; Single "source" (Node (StringLiteral src) [] None None)]
  | LabeledStatement l b _ _ => [Single "label" l; Single "body" b]
  | Node _ fs _ _ => fs
  end.

Definition field_key {N} (f : field N) : string :=
  match f with Single key _ => key | Multiple key _ => key end.

Definition get_field (key : string) (n : node) : option (field node) :=
  List.find (fun f => String.eqb (field_key f) key) (fields_of n).

(** *** The builders of [babel-types] and the statement templates *)

Definition identifier (name : string) : node :=
  Node (Identifier name) [] None None.
Definition stringLiteral (text : string) : node :=
  Node (StringLiteral text) [] None None.
Definition memberExpression (object property : node) : node :=
  Node MemberExpression [Single "object" object; Single "property" property]
    None None.
Definition callExpression (callee : node) (arguments : list node) : node :=
  Node CallExpression [Single "callee" callee; Multiple "arguments" arguments]
    None None.
Definition awaitExpression (argument : node) : node :=
  Node AwaitExpression [Single "argument" argument] None None.
Definition arrowFunctionExpression (async : bool) (body : node) : node :=
  Node (ArrowFunctionExpression async) [Multiple "params" []; Single "body" body]
    None None.
Definition blockStatement (body : list node) : node :=
  Node BlockStatement [Multiple "directives" []; Multiple "body" body] None None.
Definition functionExpression (async : bool) (body : node) : node :=
  Node (FunctionExpression async) [Multiple "params" []; Single "body" body]
    None None.
Definition expressionStatement (expression : node) : node :=
  ExpressionStatement expression None None false.
Definition program (body : list node) : node :=
  Node Program [Multiple "directives" []; Multiple "body" body] None None.

Definition runtime (method : string) : node :=
  memberExpression (identifier "__MochaDoctestRuntime") (identifier method).

(** [__MochaDoctestRuntime.assertRepr(<expression>, "<repr>");] *)
Definition stmt_assertRepr (expression repr : node) : node :=
  expressionStatement (callExpression (runtime "assertRepr") [expression; repr]).

(** The statement inside the template's [dummy] function:
    [await __MochaDoctestRuntime.assertError(async () => <expression>,
    "<name>", "<message>");] *)
Definition stmt_assertError (expression name message : node) : node :=
  expressionStatement
    (awaitExpression
       (callExpression (runtime "assertError")
          [arrowFunctionExpression true expression; name; message])).

(** [caseExpression(body, options)]. *)
Definition caseExpression (body : list node) (async : bool) : node :=
  functionExpression async (blockStatement body).

(** [it("<title>", <fn>);] and [describe("<title>", <fn>);] *)
Definition stmt_it (title fn : node) : node :=
  expressionStatement (callExpression (identifier "it") [title; fn]).
Definition stmt_describe (title fn : node) : node :=
  expressionStatement (callExpression (identifier "describe") [title; fn]).

(** *** Detection and parsing of an annotation *)

Inductive assertion : Type := repr | error.

(** [findAssertion]; [None] is the source's [false]. *)
Definition findAssertion (n : node) : option assertion :=
  match n with
  | ExpressionStatement _ _ (Some (c :: _)) _ =>
      let firstLine := value c in
      match REPR_ASSERTION_RE firstLine with
      | Some _ => Some repr
      | None =>
          match ERR_ASSSERTION_RE firstLine with
          | Some _ => Some error
          | None => None
          end
      end
  | _ => None
  end.

(** [comments.map(comment => comment.value.slice(1))]: the lines of an
    annotation after the first, each without its first character. *)
Definition continuation_lines (rest : list JSASTComment) : list string :=
  map (fun comment => slice_from 1 (value comment)) rest.

(** What [parseExpectationFromNode] returns: [{repr}] or [{name, message}]. *)
Inductive expectation : Type :=
| ExpectRepr (repr : node)
| ExpectError (name message : node).

(** [parseExpectationFromNode]; reading [trailingComments[0]] of a node
    without comments, or the group of a failed match, throws. *)
Definition parseExpectationFromNode (n : node) (a : assertion) : outcome expectation :=
  match trailingComments_of n with
  | Some (c :: rest) =>
      let firstLine := value c in
      let restLines := continuation_lines rest in
      match a with
      | repr =>
          let firstLine := replace_match REPR_ASSERTION_RE id firstLine in
          Ok (ExpectRepr (stringLiteral (join newline (firstLine :: restLines))))
      | error =>
          match ERR_ASSSERTION_RE firstLine with
          | Some (name, _) =>
              let message := replace_match ERR_ASSSERTION_RE snd firstLine in
              let message := join newline (message :: restLines) in
              Ok (ExpectError (stringLiteral name) (stringLiteral message))
          | None => Throw (TypeError "Cannot read property '1' of null")
          end
      end
  | _ => Throw (TypeError "Cannot read property 'value' of undefined")
  end.

(** *** The visitor *)

(** What [enter] does to the path it is given. *)
Inductive action : Type :=
| ReplaceWithMultiple (nodes : node)
| PushAndRemove
| NoAction.

Definition enter (n : node) : outcome action :=
  let assertion := findAssertion n in
  if negb (TESTDOC_SEEN n) && bool_decide (is_Some assertion) then
    match assertion, expression_of n with
    | Some repr, Some e =>
        x ← parseExpectationFromNode n repr;
        match x with
        | ExpectRepr r => Ok (ReplaceWithMultiple (set_TESTDOC_SEEN (stmt_assertRepr e r)))
        | _ => Throw (TypeError "Cannot set property of undefined")
        end
    | Some error, Some e =>
        x ← parseExpectationFromNode n error;
        match x with
        | ExpectError name message =>
            Ok (ReplaceWithMultiple (set_TESTDOC_SEEN (stmt_assertError e name message)))
        | _ => Throw (TypeError "Cannot set property of undefined")
        end
    | _, _ => Throw (TypeError "Cannot set property of undefined")
    end
  else if isImportDeclaration n then Ok PushAndRemove
  else Ok NoAction.

(** *** The traversal of [babel-traverse]

    [traverse(root, {enter})], as version 6 of the library runs it.

    - The root has to be a [File] or a [Program]; the scopes of the tree
      are built before the first node is entered, and building them throws
      for a tree the library's scope tracking rejects (a name declared
      twice by [let], [const] or [import]).  That verdict is the parameter
      [crawl]; the scopes have no other part in what [compile] does.
    - The root itself is not entered.  The keys of a node that stays in
      place are visited in order; a key that holds one node is a queue of
      one path, a key that holds an array is a queue of one path for every
      element.  [enter] is called on each path of a queue in turn and the
      node is descended into unless [enter] removed or replaced it.
    - [path.replaceWithMultiple(nodes)] wraps a single node in an array and
      lets it inherit the leading and the trailing comments of the node it
      replaces.  In an array the replacement takes the node's place and its
      path is appended to the queue being visited, so it is entered and
      descended into after the siblings of the node it replaces.  In the
      branch of an [if], the body of a loop or another key that holds one
      statement, the replacement is wrapped in a block statement and the
      path is visited again at once.  Under an expression statement or a
      labeled statement the replacement is inserted behind that statement,
      which is then removed.
    - [path.remove()] in an array first hands the comments of the node to
      its siblings ([shareCommentsWithSiblings]): the leading comments are
      appended to the trailing comments of the sibling before it, the
      trailing comments to the leading comments of the sibling after it,
      and where one of the two siblings is missing the other one receives
      both.  In the branch of an [if] or the body of a loop the node is
      replaced by an empty block statement, which inherits its comments,
      and the comments are deleted from the node.  The body of a labeled
      statement or the expression of an expression statement takes that
      statement with it.  Elsewhere the key cannot be emptied and the
      library throws.

    The library's rules for positions in which Babylon puts neither an
    expression statement nor an import declaration (the test of a loop, an
    operand, a declarator, ...) are not followed: the model throws there. *)

(** lodash's [uniq]: the first occurrence of every object is kept. *)
Fixpoint uniq_from (seen l : list JSASTComment) : list JSASTComment :=
  match l with
  | [] => []
  | c :: l' =>
      if existsb (same_comment c) seen then uniq_from seen l'
      else c :: uniq_from (c :: seen) l'
  end.

Definition uniq (l : list JSASTComment) : list JSASTComment := uniq_from [] l.

(** [child[key] = uniq(compact([].concat(child[key], parent[key])))]. *)
Definition inheritComments (child parent : comments) : comments :=
  Some (uniq (comments_list child ++ comments_list parent)).

Definition inheritLeadingComments (child parent : node) : node :=
  set_leadingComments child
    (inheritComments (leadingComments_of child) (leadingComments_of parent)).

Definition inheritTrailingComments (child parent : node) : node :=
  set_trailingComments child
    (inheritComments (trailingComments_of child) (trailingComments_of parent)).

(** What [replaceWithMultiple] does to the single node it is given, and
    what [t.inheritsComments] does to the block that replaces a node. *)
Definition inheritsComments (child parent : node) : node :=
  inheritTrailingComments (inheritLeadingComments child parent) parent.

(** [t.removeComments(node)]. *)
Definition removeComments (n : node) : node :=
  set_trailingComments (set_leadingComments n None) None.

(** [path.addComments(type, comments)]: nothing for [undefined], the array
    itself on a node without comments of that type, else [concat]. *)
Definition addComments (own added : comments) : comments :=
  match added with
  | None => own
  | Some cs =>
      match own with
      | Some l => Some (l ++ cs)
      | None => Some cs
      end
  end.

Definition add_trailing (n : node) (cs : comments) : node :=
  set_trailingComments n (addComments (trailingComments_of n) cs).

Definition add_leading (n : node) (cs : comments) : node :=
  set_leadingComments n (addComments (leadingComments_of n) cs).

(** [path.shareCommentsWithSiblings()] for a path in an array: what becomes
    of the sibling before it and of the sibling after it. *)
Definition shareCommentsWithSiblings (n : node) (prev next : option node)
    : option node * option node :=
  let leading := leadingComments_of n in
  let trailing := trailingComments_of n in
  match leading, trailing with
  | None, None => (prev, next)
  | _, _ =>
      match prev, next with
      | Some p, Some x => (Some (add_trailing p leading), Some (add_leading x trailing))
      | None, Some x => (None, Some (add_leading (add_trailing x leading) trailing))
      | Some p, None => (Some (add_leading (add_trailing p leading) trailing), None)
      | None, None => (None, None)
      end
  end.

(** What the traversal of a node's keys reports: the node stays in place,
    or its path was removed after [after] was inserted behind it. *)
Inductive descended : Type :=
| Stays (n : node)
| Removed (after : list node).

Definition kept (d : descended) (n : node) : node :=
  match d with
  | Stays n' => n'
  | Removed _ => n
  end.

(** [traverse.node(node, ...)] for a node that was entered, with some fuel;
    the state is the document-wide [importList]. *)
Definition traversal : Type := node -> list node -> outcome (descended * list node).

(** The key of a parent that holds one node: the branch of an [if] or the
    body of a loop, another key among [consequent], [body] and [alternate],
    or any other key. *)
Inductive position : Type :=
| Branch
| Slot
| Elsewhere.

Definition isIfStatement (t : node_type) : bool :=
  String.eqb (type_name t) "IfStatement".

Definition isLoop (t : node_type) : bool :=
  bool_decide (type_name t ∈ [ "DoWhileStatement"; "ForInStatement"; "ForStatement";
                               "WhileStatement"; "ForOfStatement"; "ForAwaitStatement" ]).

Definition STATEMENT_OR_BLOCK_KEYS : list string := ["consequent"; "body"; "alternate"].

Definition position_of (t : node_type) (key : string) : position :=
  if (isIfStatement t && (String.eqb key "consequent" || String.eqb key "alternate"))
     || (isLoop t && String.eqb key "body")
  then Branch
  else if bool_decide (key ∈ STATEMENT_OR_BLOCK_KEYS) then Slot
  else Elsewhere.

(** [{type: "BlockStatement", body: []}] *)
Definition empty_block : node := Node BlockStatement [Multiple "body" []] None None.

Definition cannot_insert : exn :=
  Error "We don't know what to do with this node type. We were previously a Statement but we can't fit in here?".

Definition cannot_empty : exn :=
  TypeError "Property of node expected node to be of a type but instead got null".

(** The visit of the path of a key that holds one node, in a parent that is
    neither an expression statement nor a labeled statement.  [enter]
    leaves a block statement alone, so the second visit of a path whose
    node was wrapped in a block is the traversal of the block. *)
Definition visit_child (rec : traversal) (pos : position) (c : node)
    (importList : list node) : outcome (node * list node) :=
  a ← enter c;
  match a with
  | ReplaceWithMultiple nodes =>
      match pos with
      | Elsewhere => Throw cannot_insert
      | _ =>
          let block := blockStatement [inheritsComments nodes c] in
          '(d, importList) ← rec block importList;
          Ok (kept d block, importList)
      end
  | PushAndRemove =>
      match pos with
      | Branch =>
          Ok (inheritsComments empty_block c, importList ++ [removeComments c])
      | _ => Throw cannot_empty
      end
  | NoAction =>
      '(d, importList) ← rec c importList;
      match d with
      | Stays c' => Ok (c', importList)
      | Removed [] =>
          match pos with
          | Branch => Ok (inheritsComments empty_block c, importList)
          | _ => Throw cannot_empty
          end
      | Removed (_ :: _) =>
          match pos with
          | Elsewhere => Throw cannot_insert
          | _ => Throw cannot_empty
          end
      end
  end.

(** The visit of the expression of an expression statement or of the body
    of a labeled statement: [Stays] carries what the key holds afterwards,
    [Removed] tells that the statement itself is to be removed. *)
Definition visit_body (rec : traversal) (c : node) (importList : list node)
    : outcome (descended * list node) :=
  a ← enter c;
  match a with
  | ReplaceWithMultiple nodes => Ok (Removed [inheritsComments nodes c], importList)
  | PushAndRemove => Ok (Removed [], importList ++ [c])
  | NoAction => rec c importList
  end.

(** The keys of a node, in order. *)
Fixpoint visit_fields (visit_one : position -> node -> list node -> outcome (node * list node))
    (visit_many : list node -> list node -> outcome (list node * list node))
    (t : node_type) (fs : list (field node)) (importList : list node)
    : outcome (list (field node) * list node) :=
  match fs with
  | [] => Ok ([], importList)
  | Single key c :: fs' =>
      '(c', importList) ← visit_one (position_of t key) c importList;
      '(fs'', importList) ← visit_fields visit_one visit_many t fs' importList;
      Ok (Single key c' :: fs'', importList)
  | Multiple key cs :: fs' =>
      '(cs', importList) ← visit_many cs importList;
      '(fs'', importList) ← visit_fields visit_one visit_many t fs' importList;
      Ok (Multiple key cs' :: fs'', importList)
  end.

(** An element of an array with a flag: in the queue that is handed to a
    visit the flag marks the paths still to be visited; in what a visit
    hands back it marks the paths that were appended to the queue. *)
Definition entry : Type := node * bool.

Definition pending (cs : list node) : list entry := map (fun c => (c, true)) cs.

Definition queued (cs : list node) : list entry := map (fun c => (c, true)) cs.

Definition previous (done : list entry) : option node :=
  match done with
  | (p, _) :: _ => Some p
  | [] => None
  end.

Definition set_previous (p : option node) (done : list entry) : list entry :=
  match p, done with
  | Some p', (_, q) :: done' => (p', q) :: done'
  | _, _ => done
  end.

(** [path.remove()] for the path of [n] in an array, after the nodes
    [after] were inserted behind it.  [done] holds the elements before the
    path, the nearest first; [next] is the element after it. *)
Definition remove_path (n : node) (done : list entry) (after : list node)
    (next : option node) : list entry * option node :=
  match after with
  | [] =>
      let '(prev', next') := shareCommentsWithSiblings n (previous done) next in
      (set_previous prev' done, next')
  | a :: after' =>
      let '(prev', a') := shareCommentsWithSiblings n (previous done) (Some a) in
      (rev (queued (default a a' :: after')) ++ set_previous prev' done, next)
  end.

(** The visit of one path of an array. *)
Definition visit_in_list (rec : traversal) (done : list entry) (n : node)
    (next : option node) (importList : list node)
    : outcome (list entry * option node * list node) :=
  a ← enter n;
  match a with
  | ReplaceWithMultiple nodes =>
      Ok ((inheritsComments nodes n, true) :: done, next, importList)
  | PushAndRemove =>
      let '(done, next) := remove_path n done [] next in
      Ok (done, next, importList ++ [n])
  | NoAction =>
      '(d, importList) ← rec n importList;
      match d with
      | Stays n' => Ok ((n', false) :: done, next, importList)
      | Removed after =>
          let '(done, next) := remove_path n done after next in
          Ok (done, next, importList)
      end
  end.

Definition next_sibling (rest : list entry) : option node :=
  match rest with
  | (x, _) :: _ => Some x
  | [] => None
  end.

(** One pass over an array, from the element [n] on: the paths that are
    flagged are visited in order. *)
Fixpoint sweep (rec : traversal) (done : list entry) (n : node) (flagged : bool)
    (rest : list entry) (importList : list node) {struct rest}
    : outcome (list entry * list node) :=
  '(done, next, importList) ←
    (if flagged then visit_in_list rec done n (next_sibling rest) importList
     else Ok ((n, false) :: done, next_sibling rest, importList));
  match rest with
  | [] => Ok (rev done, importList)
  | (x, flagged') :: rest' =>
      sweep rec done (default x next) flagged' rest' importList
  end.

(** [visit_list]: the visit of a queue over an array, pass after pass
    until no path is left in the queue.  [descend]: the keys of a node. *)
Fixpoint descend (fuel : nat) (n : node) (importList : list node) {struct fuel}
    : outcome (descended * list node) :=
  match fuel with
  | O => OutOfFuel
  | S fuel' =>
      match n with
      | ExpressionStatement e lc tc seen =>
          '(d, importList) ← visit_body (descend fuel') e importList;
          Ok (match d with
              | Stays e' => Stays (ExpressionStatement e' lc tc seen)
              | Removed after => Removed after
              end, importList)
      | LabeledStatement l b lc tc =>
          '(l', importList) ← visit_child (descend fuel') Elsewhere l importList;
          '(d, importList) ← visit_body (descend fuel') b importList;
          Ok (match d with
              | Stays b' => Stays (LabeledStatement l' b' lc tc)
              | Removed after => Removed after
              end, importList)
      | ImportDeclaration sp src lc tc =>
          '(sp', importList) ← visit_list fuel' (pending sp) importList;
          Ok (Stays (ImportDeclaration sp' src lc tc), importList)
      | Node t fs lc tc =>
          '(fs', importList) ←
            visit_fields (visit_child (descend fuel'))
              (fun cs => visit_list fuel' (pending cs)) t fs importList;
          Ok (Stays (Node t fs' lc tc), importList)
      end
  end
with visit_list (fuel : nat) (entries : list entry) (importList : list node)
    {struct fuel} : outcome (list node * list node) :=
  match entries with
  | [] => Ok ([], importList)
  | (n, flagged) :: rest =>
      if existsb snd entries then
        match fuel with
        | O => OutOfFuel
        | S fuel' =>
            '(entries', importList) ← sweep (descend fuel') [] n flagged rest importList;
            visit_list fuel' entries' importList
        end
      else Ok (map fst entries, importList)
  end.

(** Fuel that is enough for a node: its depth, with room for the layers a
    replacement puts around the expression of a statement that does not
    carry the marker. *)
Fixpoint depth (n : node) : nat :=
  match n with
  | ExpressionStatement e _ _ seen => (if seen then 2 else 12) + depth e
  | ImportDeclaration sp _ _ _ => 2 + list_max (map depth sp)
  | LabeledStatement l b _ _ => 2 + Nat.max (depth l) (depth b)
  | Node _ fs _ _ =>
      2 + list_max
            (map (fun f =>
                    match f with
                    | Single _ c => depth c
                    | Multiple _ cs => list_max (map depth cs)
                    end) fs)
  end.

Definition needs_parent : exn :=
  Error "You must pass a scope and parentPath unless traversing a Program/File.".

(** [traverse(root, {enter})]. *)
Definition traverse (crawl : node -> option exn) (root : node)
    (importList : list node) : outcome (node * list node) :=
  match root with
  | Node File _ _ _ | Node Program _ _ _ =>
      match crawl root with
      | Some e => Throw e
      | None =>
          '(d, importList) ← descend (depth root) root importList;
          Ok (kept d root, importList)
      end
  | _ => Throw needs_parent
  end.

(** ** The document scanner *)

(** A node of the tree [Remark.parse] returns. *)
#[local] Unset Elimination Schemes.
Inductive mdast : Type :=
| MdNode (type : string) (lang : option string) (value : string)
    (children : list mdast).
#[local] Set Elimination Schemes.

Definition md_type (n : mdast) : string := let 'MdNode t _ _ _ := n in t.
Definition md_lang (n : mdast) : option string := let 'MdNode _ l _ _ := n in l.
Definition md_value (n : mdast) : string := let 'MdNode _ _ v _ := n in v.
Definition md_children (n : mdast) : list mdast := let 'MdNode _ _ _ cs := n in cs.

Module TestCase.
Record t : Type := { title : option string; lang : option string; value : string }.
End TestCase.

Definition SUPPORTED_LANG : gmap string bool :=
  <["js+test" := true]> (<["javasctipt+test" := true]> ∅).

(** The truth value of [SUPPORTED_LANG[lang]]: an own property has the value
    it was given, an inherited one is a function or an object. *)
Definition supported (lang : option string) : bool :=
  match JsObject.get SUPPORTED_LANG (JsObject.to_key lang) with
  | JsObject.Own b => b
  | JsObject.Inherited _ => true
  | JsObject.Undefined => false
  end.

(** [parent.children[index - 1]], undefined at index 0. *)
Definition previous_sibling (parent : mdast) (index : nat) : option mdast :=
  match index with
  | O => None
  | S i => md_children parent !! i
  end.

Section Scanner.

(** [mdast-util-to-string]: the flattened text of a node. *)
Variable mdastToString : mdast -> string.

(** The title the callback computes for the code block at [index]. *)
Definition title_of (parent : mdast) (index : nat) : option string :=
  let title :=
    match previous_sibling parent index with
    | Some prev =>
        if String.eqb (md_type prev) "paragraph"
        then Some (mdastToString prev) else None
    | None => None
    end in
  match title with
  | Some t =>
      if truthy t && bool_decide (last_char t = Some ":"%char)
      then Some (drop_last t) else Some t
  | None => None
  end.

(** The callback given to [mdastVisitNode]: what it pushes on
    [testCaseList]. *)
Definition on_code (node : mdast) (index : nat) (parent : mdast) : list TestCase.t :=
  let title := title_of parent index in
  if supported (md_lang node) then
    [ {| TestCase.title := title;
         TestCase.lang := md_lang node;
         TestCase.value := md_value node |} ]
  else [].

(** [unist-util-visit] on the children of [parent]: every node in document
    order, a node before its children; the callback runs on the nodes of
    type [code]. *)
Fixpoint visit_children (parent : mdast) : list TestCase.t :=
  let 'MdNode _ _ _ cs := parent in
  (fix all (index : nat) (rest : list mdast) : list TestCase.t :=
     match rest with
     | [] => []
     | child :: rest' =>
         (if String.eqb (md_type child) "code"
          then on_code child index parent else [])
         ++ visit_children child
         ++ all (S index) rest'
     end) 0 cs.

(** [mdastVisitNode(root, 'code', callback)]; a root of type [code] has
    no parent, and the callback's [parent.children] throws. *)
Definition mdastVisitNode (root : mdast) : outcome (list TestCase.t) :=
  if String.eqb (md_type root) "code"
  then Throw (TypeError "Cannot read property 'children' of null")
  else Ok (visit_children root).

End Scanner.

(** ** Compilation of the samples and assembly of the program *)

Record Options : Type := { name : option string; filename : option string }.

(** [a || b] on a string that may be absent. *)
Definition or_else (a : option string) (b : string) : string :=
  match a with
  | Some s => if truthy s then s else b
  | None => b
  end.

(** The source handed to the parser. *)
Definition wrap (src : string) : string :=
  "async function testcase() {" +:+ newline +:+ "      " +:+ src
  +:+ newline +:+ "    }".

Definition no_body : exn := TypeError "Cannot read property 'body' of undefined".

(** [node.program.body[0].body.body] on the traversed file, as far as
    [caseExpression] accepts it: [types.blockStatement] throws unless it is
    given an array. *)
Definition testcase_body (file : node) : outcome (list node) :=
  match get_field "program" file with
  | Some (Single _ program) =>
      match get_field "body" program with
      | Some (Multiple _ (testcase :: _)) =>
          match get_field "body" testcase with
          | Some (Single _ block) =>
              match get_field "body" block with
              | Some (Multiple _ body) => Ok body
              | _ => Throw no_body
              end
          | _ => Throw no_body
          end
      | _ => Throw no_body
      end
  | _ => Throw no_body
  end.

(** [arr.forEach(f)] for a callback that may throw. *)
Fixpoint forEach {A S : Type} (f : A -> S -> outcome S) (l : list A) (s : S)
    : outcome S :=
  match l with
  | [] => Ok s
  | a :: l' => s' ← f a s; forEach f l' s'
  end.

Definition importSpecifier (t : node_type) (local : string) : node :=
  Node t [Single "local" (identifier local)] None None.

Definition import_bare (source : string) : node :=
  ImportDeclaration [] source None None.
Definition import_namespace (local source : string) : node :=
  ImportDeclaration [importSpecifier ImportNamespaceSpecifier local] source None None.
Definition import_default (local source : string) : node :=
  ImportDeclaration [importSpecifier ImportDefaultSpecifier local] source None None.

Section Compile.

Variable Remark_parse : string -> mdast.
Variable mdastToString : mdast -> string.
(** [Babylon.parse] with the options of the source: a tree or a thrown
    error. *)
Variable Babylon_parse : string -> exn + node.
(** What building the scopes of a tree throws, if it throws. *)
Variable crawl : node -> option exn.
(** [require.resolve('./runtime')] and [require.resolve('babel-polyfill')]. *)
Variables RUNTIME POLYFILL : string.

Definition parse (src : string) : outcome node :=
  match Babylon_parse src with
  | inl e => Throw e
  | inr n => Ok n
  end.

(** One turn of the loop over [testCaseList]; the state is
    [(importList, caseList)]. *)
Definition compile_case (testCase : TestCase.t) (st : list node * list node)
    : outcome (list node * list node) :=
  let '(importList, caseList) := st in
  node ← parse (wrap (TestCase.value testCase));
  '(node, importList) ← traverse crawl node importList;
  body ← testcase_body node;
  Ok (importList,
      caseList ++
        [stmt_it (stringLiteral (or_else (TestCase.title testCase) "works"))
           (caseExpression body true)]).

Definition preamble : list node :=
  [ import_bare POLYFILL;
    import_namespace "__MochaDoctestRuntime" RUNTIME;
    import_default "assert" "assert" ].

Definition suite_title (options : Options) : string :=
  or_else (name options) (or_else (filename options) "Suite").

(** The program [compile] assembles, as it stands before it is handed to
    [BabelCore.transformFromAst] and to the code generator. *)
Definition compile (source : string) (options : Options) : outcome node :=
  testCaseList ← mdastVisitNode mdastToString (Remark_parse source);
  '(importList, caseList) ← forEach compile_case testCaseList ([], []);
  Ok (program
        (preamble ++ importList ++
           [stmt_describe (stringLiteral (suite_title options))
              (caseExpression caseList false)])).

End Compile.

(** ** Paths: the POSIX functions of Node's [path] module *)

Module Path.

Definition slash : ascii := "/"%char.

Definition is_slash (c : ascii) : bool := Ascii.eqb c slash.

Fixpoint drop_while (p : ascii -> bool) (l : list ascii) : list ascii :=
  match l with
  | c :: l' => if p c then drop_while p l' else l
  | [] => []
  end.

(** [path.dirname]: the path up to the last separator that follows a
    character that is not a separator, trailing separators aside. *)
Definition dirname (path : string) : string :=
  match path with
  | EmptyString => "."
  | String c rest =>
      let backwards := rev (list_ascii_of_string rest) in
      let before_name :=
        drop_while (fun c => negb (is_slash c)) (drop_while is_slash backwards) in
      match before_name with
      | [] => if is_slash c then "/" else "."
      | _ :: kept =>
          match kept with
          | [] => if is_slash c then "//" else String c EmptyString
          | _ => String c (string_of_list_ascii (rev kept))
          end
      end
  end.

(** The segments of a path between its separators. *)
Fixpoint segments_from (current : string) (path : string) : list string :=
  match path with
  | EmptyString => [current]
  | String c path' =>
      if is_slash c then current :: segments_from EmptyString path'
      else segments_from (current +:+ String c EmptyString) path'
  end.

Definition segments (path : string) : list string := segments_from EmptyString path.

(** Normalisation of segments on top of a directory: empty segments and
    [.] are dropped, [..] leaves the directory it is in. *)
Fixpoint normalize (base : list string) (segs : list string) : list string :=
  match segs with
  | [] => base
  | seg :: segs' =>
      if String.eqb seg "" || String.eqb seg "." then normalize base segs'
      else if String.eqb seg ".." then normalize (removelast base) segs'
      else normalize (base ++ [seg]) segs'
  end.

Definition is_absolute (path : string) : bool :=
  match path with
  | String c _ => is_slash c
  | EmptyString => false
  end.

(** [path.resolve(path)] as the segments of the absolute path, given the
    segments of the working directory. *)
Definition resolve (cwd : list string) (path : string) : list string :=
  normalize (if is_absolute path then [] else cwd) (segments path).

Fixpoint strip_common (from to : list string) : list string * list string :=
  match from, to with
  | a :: from', b :: to' =>
      if String.eqb a b then strip_common from' to' else (from, to)
  | _, _ => (from, to)
  end.

(** [path.relative(from, to)]: one [..] for every directory of [from] below
    the common ancestor, then what remains of [to]; empty when both are the
    same directory. *)
Definition relative (cwd : list string) (from to : string) : string :=
  let '(up, down) := strip_common (resolve cwd from) (resolve cwd to) in
  join "/" (map (fun _ => "..") up ++ down).

End Path.

(** ** The module reference remapper *)

Module Manifest.
(** What [find-package-json] yields: the manifest's [name], when it has one,
    and the absolute path of the manifest file. *)
Record t : Type := { name : option string; __path : string }.
End Manifest.

Module Remapper.

(** The cache object: a directory maps to a manifest or to [null].  The
    log of the directories the file system was walked from stands for the
    effect of [findPackageJSON]. *)
Record state : Type := {
  packageJSONCache : gmap string (option Manifest.t);
  walks : list string
}.

(** [let packageJSONCache = {}]. *)
Definition fresh : state := {| packageJSONCache := ∅; walks := [] |}.

Section Hook.

(** [findPackageJSON(dirname).next().value]: the nearest manifest at or
    above a directory, if there is one. *)
Variable findPackageJSON : string -> option Manifest.t.
(** [process.cwd()], as segments. *)
Variable cwd : list string.

(** [path.relative(dirname, path.dirname(packageJSON.__path)) || '.'] *)
Definition packageDirname (dirname : string) (packageJSON : Manifest.t) : string :=
  let r := Path.relative cwd dirname (Path.dirname (Manifest.__path packageJSON)) in
  if truthy r then r else ".".

(** The first statement of the hook: the lookup that fills the cache. *)
Definition lookup (st : state) (dirname : string) : state :=
  match JsObject.get (packageJSONCache st) dirname with
  | JsObject.Undefined =>
      {| packageJSONCache :=
           <[dirname := findPackageJSON dirname]> (packageJSONCache st);
         walks := walks st ++ [dirname] |}
  | _ => st
  end.

(** [source.indexOf(prefix) === 0]. *)
Definition starts_with (prefix source : string) : bool :=
  bool_decide (is_Some (strip_prefix prefix source)).

(** [resolveModuleSource(source, filename)].  A value inherited from
    [Object.prototype] is not [null]; it has no [__path], and
    [path.dirname(undefined)] throws.  A manifest without a [name] makes
    the prefix ["undefined/"], and reading the [length] of its name
    throws. *)
Definition resolveModuleSource (st : state) (source filename : string)
    : state * outcome string :=
  let dirname := Path.dirname filename in
  let st := lookup st dirname in
  (st,
   match JsObject.get (packageJSONCache st) dirname with
   | JsObject.Own (Some packageJSON) =>
       match Manifest.name packageJSON with
       | Some name =>
           if String.eqb source name then
             Ok (packageDirname dirname packageJSON +:+ "/")
           else if starts_with (name +:+ "/") source then
             Ok (packageDirname dirname packageJSON
                 +:+ slice_from (String.length name) source)
           else Ok source
       | None =>
           if starts_with "undefined/" source
           then Throw (TypeError "Cannot read property 'length' of undefined")
           else Ok source
       end
   | JsObject.Inherited key =>
       let prefix := default "undefined" (JsObject.inherited_name key) +:+ "/" in
       if bool_decide (JsObject.inherited_name key = Some source)
          || starts_with prefix source
       then Throw (TypeError "Path must be a string. Received undefined")
       else Ok source
   | _ => Ok source
   end).

(** The calls Babel makes to the hook during one compilation, each with a
    specifier and the file name; a throw ends the compilation. *)
Fixpoint run (st : state) (requests : list (string * string))
    : state * outcome (list string) :=
  match requests with
  | [] => (st, Ok [])
  | (source, filename) :: requests' =>
      match resolveModuleSource st source filename with
      | (st', Ok r) =>
          let '(st'', rs) := run st' requests' in
          (st'', rs' ← rs; Ok (r :: rs'))
      | (st', Throw e) => (st', Throw e)
      | (st', OutOfFuel) => (st', OutOfFuel)
      end
  end.

(** The hook calls of one invocation of [compile], which start from the
    cache that invocation creates. *)
Definition session (requests : list (string * string)) : state * outcome (list string) :=
  run fresh requests.

End Hook.

End Remapper.

(** ** Definitions used to state the properties *)

(** What the specification says the rewriter and the assembler build,
    written out node by node and without the builders of the code: the
    theorems compare it with what the code builds. *)
Module Expected.

Definition line_feed : string := String (ascii_of_nat 10) EmptyString.

(** A comment line minus its first character. *)
Definition minus_first_character (line : string) : string :=
  match line with
  | EmptyString => EmptyString
  | String _ line' => line'
  end.

(** The text after the marker of the first line, then each further
    trailing comment minus its first character, joined with newline. *)
Definition text (after_marker : string) (further : list JSASTComment) : string :=
  String.concat line_feed
    (after_marker :: map (fun c => minus_first_character (value c)) further).

Definition ident (n : string) : node := Node (Identifier n) [] None None.

Definition literal (s : string) : node := Node (StringLiteral s) [] None None.

(** [__MochaDoctestRuntime.<primitive>] *)
Definition helper (primitive : string) : node :=
  Node MemberExpression
    [Single "object" (ident "__MochaDoctestRuntime"); Single "property" (ident primitive)]
    None None.

Definition call (callee : node) (arguments : list node) : node :=
  Node CallExpression [Single "callee" callee; Multiple "arguments" arguments]
    None None.

(** The call of the representation-assertion primitive: the original
    expression, once, as the first argument, and the expected text. *)
Definition repr_call (expression : node) (expected : string) : node :=
  call (helper "assertRepr") [expression; literal expected].



(** A zero-argument function literal with the given statements as its
    body. *)
Definition function_literal (async : bool) (body : list node) : node :=
  Node (FunctionExpression async)
    [ Multiple "params" [];
      Single "body"
        (Node BlockStatement [Multiple "directives" []; Multiple "body" body] None None) ]
    None None.

Definition statement (expression : node) : node :=
  ExpressionStatement expression None None false.

(** The registration of one case, and of the suite. *)
Definition case (title : string) (body : list node) : node :=
  statement (call (ident "it") [literal title; function_literal true body]).


(** A string that is present and not empty, or else a default. *)
Definition or_default (s : option string) (fallback : string) : string :=
  match s with
  | Some (String c s') => String c s'
  | _ => fallback
  end.

Definition specifier (t : node_type) (local : string) : node :=
  Node t [Single "local" (ident local)] None None.

(** The polyfill import, the namespace import of the runtime helper and
    the import of the assertion utility. *)
Definition preamble (POLYFILL RUNTIME : string) : list node :=
  [ ImportDeclaration [] POLYFILL None None;
    ImportDeclaration [specifier ImportNamespaceSpecifier "__MochaDoctestRuntime"]
      RUNTIME None None;
    ImportDeclaration [specifier ImportDefaultSpecifier "assert"] "assert" None None ].

Definition program (statements : list node) : node :=
  Node Program [Multiple "directives" []; Multiple "body" statements] None None.

End Expected.

(** The tree the parser returns for a wrapped sample: the function
    [testcase] with the sample's statements as its body, followed by what
    the sample's text may have put after the function. *)
Definition sample_file (stmts extra : list node) : node :=
  Node File
    [Single "program"
       (program
          (Node (FunctionDeclaration true)
             [ Single "id" (identifier "testcase"); Multiple "params" [];
               Single "body" (blockStatement stmts) ] None None
           :: extra))] None None.

(** A sample parses to a sample file. *)
Definition parses_to (Babylon_parse : string -> exn + node)
    (testCase : TestCase.t) (parsed : list node * list node) : Prop :=
  Babylon_parse (wrap (TestCase.value testCase))
  = inr (sample_file (fst parsed) (snd parsed)).

(** A tree without import declarations in which every annotated expression
    statement carries the marker. *)
Fixpoint settled (n : node) : bool :=
  match n with
  | ExpressionStatement e _ _ seen =>
      (seen || negb (bool_decide (is_Some (findAssertion n)))) && settled e
  | ImportDeclaration _ _ _ _ => false
  | LabeledStatement l b _ _ => settled l && settled b
  | Node _ fs _ _ =>
      forallb (fun f =>
                 match f with
                 | Single _ c => settled c
                 | Multiple _ cs => forallb settled cs
                 end) fs
  end.

(** A tree without import declarations. *)
Fixpoint import_free (n : node) : bool :=
  match n with
  | ExpressionStatement e _ _ _ => import_free e
  | ImportDeclaration _ _ _ _ => false
  | LabeledStatement l b _ _ => import_free l && import_free b
  | Node _ fs _ _ =>
      forallb (fun f =>
                 match f with
                 | Single _ c => import_free c
                 | Multiple _ cs => forallb import_free cs
                 end) fs
  end.

(** The import declarations of a tree, counted; an import declaration
    counts once, whatever it holds. *)
Fixpoint imports_in (n : node) : nat :=
  match n with
  | ExpressionStatement e _ _ _ => imports_in e
  | ImportDeclaration _ _ _ _ => 1
  | LabeledStatement l b _ _ => imports_in l + imports_in b
  | Node _ fs _ _ =>
      list_sum
        (map (fun f =>
                match f with
                | Single _ c => imports_in c
                | Multiple _ cs => list_sum (map imports_in cs)
                end) fs)
  end.

(** The import declarations of a tree in the order of the text; what an
    import declaration holds is not searched. *)
Fixpoint imports_of (n : node) : list node :=
  match n with
  | ExpressionStatement e _ _ _ => imports_of e
  | ImportDeclaration _ _ _ _ => [n]
  | LabeledStatement l b _ _ => imports_of l ++ imports_of b
  | Node _ fs _ _ =>
      flat_map (fun f =>
                  match f with
                  | Single _ c => imports_of c
                  | Multiple _ cs => flat_map imports_of cs
                  end) fs
  end.

(** A tree in which no expression statement holds an import declaration. *)
Fixpoint statements_import_free (n : node) : bool :=
  match n with
  | ExpressionStatement e _ _ _ => import_free e
  | ImportDeclaration _ _ _ _ => true
  | LabeledStatement l b _ _ => statements_import_free l && statements_import_free b
  | Node _ fs _ _ =>
      forallb (fun f =>
                 match f with
                 | Single _ c => statements_import_free c
                 | Multiple _ cs => forallb statements_import_free cs
                 end) fs
  end.

(** Whether [enter] replaces a node, and what stands in the place of the
    node once [enter] was called on it. *)
Definition replaces (n : node) : bool :=
  match enter n with
  | Ok (ReplaceWithMultiple _) => true
  | _ => false
  end.

Definition entered (n : node) : node :=
  match enter n with
  | Ok (ReplaceWithMultiple r) => inheritsComments r n
  | _ => n
  end.

(** A tree without import declarations and labeled statements, in which
    the expression of an expression statement is no statement and a
    statement that [enter] replaces stands in an array or in a key that
    holds a statement. *)
Definition is_expression (n : node) : bool :=
  match n with
  | Node _ _ _ _ => true
  | _ => false
  end.

Definition holds_statement (pos : position) : bool :=
  match pos with
  | Elsewhere => false
  | _ => true
  end.

Fixpoint rewritable (n : node) : bool :=
  match n with
  | ExpressionStatement e _ _ _ => is_expression e && rewritable e
  | ImportDeclaration _ _ _ _ => false
  | LabeledStatement _ _ _ _ => false
  | Node t fs _ _ =>
      forallb (fun f =>
                 match f with
                 | Single key c =>
                     rewritable c
                     && (negb (replaces c) || holds_statement (position_of t key))
                 | Multiple _ cs => forallb rewritable cs
                 end) fs
  end.

(** The tree the rewriter makes of such a tree: the keys of every node are
    rewritten, then the node is replaced if [enter] replaces it; a
    replacement that does not stand in an array is put in a block. *)
Definition in_block (c c' : node) : node :=
  if replaces c then blockStatement [c'] else c'.

Definition rewritten_keys (rewrite : node -> node) (n : node) : node :=
  match n with
  | ExpressionStatement e lc tc seen => ExpressionStatement (rewrite e) lc tc seen
  | Node t fs lc tc =>
      Node t
        (map (fun f =>
                match f with
                | Single key c => Single key (in_block c (rewrite c))
                | Multiple key cs => Multiple key (map rewrite cs)
                end) fs) lc tc
  | _ => n
  end.

Fixpoint rewritten (n : node) : node := entered (rewritten_keys rewritten n).

(** The expression statements of a tree that carry the marker, and those
    that [enter] replaces. *)
Fixpoint count_marked (n : node) : nat :=
  match n with
  | ExpressionStatement e _ _ seen => (if seen then 1 else 0) + count_marked e
  | ImportDeclaration sp _ _ _ => list_sum (map count_marked sp)
  | LabeledStatement l b _ _ => count_marked l + count_marked b
  | Node _ fs _ _ =>
      list_sum
        (map (fun f =>
                match f with
                | Single _ c => count_marked c
                | Multiple _ cs => list_sum (map count_marked cs)
                end) fs)
  end.

Fixpoint count_annotated (n : node) : nat :=
  (if replaces n then 1 else 0) +
  match n with
  | ExpressionStatement e _ _ _ => count_annotated e
  | ImportDeclaration sp _ _ _ => list_sum (map count_annotated sp)
  | LabeledStatement l b _ _ => count_annotated l + count_annotated b
  | Node _ fs _ _ =>
      list_sum
        (map (fun f =>
                match f with
                | Single _ c => count_annotated c
                | Multiple _ cs => list_sum (map count_annotated cs)
                end) fs)
  end.

(** An import list grows by import declarations at its end. *)
Definition extends (importList importList' : list node) : Prop :=
  exists found,
    importList' = importList ++ found /\
    Forall (fun i => isImportDeclaration i = true) found.

(** An outcome other than too little fuel. *)
Definition returns {A} (o : outcome A) : Prop :=
  match o with
  | OutOfFuel => False
  | _ => True
  end.

(** The code blocks of a document whose tag satisfies [p], counted in the
    whole tree below [parent]. *)
Fixpoint count_code (p : option string -> bool) (parent : mdast) : nat :=
  let 'MdNode _ _ _ cs := parent in
  (fix all (rest : list mdast) : nat :=
     match rest with
     | [] => 0
     | child :: rest' =>
         (if String.eqb (md_type child) "code" && p (md_lang child) then 1 else 0)
         + count_code p child + all rest'
     end) cs.

(** The tags written in [SUPPORTED_LANG]. *)
Definition allow_listed (lang : option string) : bool :=
  match lang with
  | Some l => String.eqb l "js+test" || String.eqb l "javasctipt+test"
  | None => false
  end.

(** A cache agrees with the file system when every directory it holds maps
    to what the walk from that directory finds; every walked directory is
    held by the cache. *)
Definition cache_consistent (findPackageJSON : string -> option Manifest.t)
    (st : Remapper.state) : Prop :=
  forall d v, Remapper.packageJSONCache st !! d = Some v -> v = findPackageJSON d.

Definition walks_cached (st : Remapper.state) : Prop :=
  NoDup (Remapper.walks st) /\
  forall d, d ∈ Remapper.walks st -> is_Some (Remapper.packageJSONCache st !! d).

(** ** Sample inputs *)

Module Samples.

(** [x; // => 1] *)
Definition repr_statement : node :=
  ExpressionStatement (identifier "x") None
    (Some [ {| value := " => 1"; start := 36 |} ]) false.

(** [risky(); // TypeError: bad input] followed by a second comment line. *)
Definition error_statement : node :=
  ExpressionStatement (callExpression (identifier "risky") []) None
    (Some [ {| value := " TypeError: bad input"; start := 62 |};
            {| value := " here"; start := 86 |} ]) false.

(** [f(); // see below] *)
Definition plain_statement : node :=
  ExpressionStatement (callExpression (identifier "f") []) None
    (Some [ {| value := " see below"; start := 39 |} ]) false.

(** The flattened text of a node: its value, or the texts of its children. *)
Fixpoint flatten (n : mdast) : string :=
  let 'MdNode _ _ v cs := n in
  if truthy v then v
  else (fix all (rest : list mdast) : string :=
          match rest with
          | [] => EmptyString
          | c :: rest' => flatten c +:+ all rest'
          end) cs.

(** The sources of three samples: an annotated expression, an import with a
    statement expected to throw, and a text that does not parse. *)
Definition source_x : string := "x // => 1".
Definition source_y : string :=
  "import y from 'why'" +:+ newline +:+ "risky() // TypeError: bad input"
  +:+ newline +:+ "// here".
Definition source_bad : string := "f(".

(** A sample whose import carries a comment of its own. *)
Definition source_z : string :=
  "// Import the library" +:+ newline +:+ "import lib from 'lib'"
  +:+ newline +:+ "answer // => 42".

(** [// Import the library] before [import lib from 'lib'], and
    [answer // => 42] after it, as the parser attaches the comments. *)
Definition commented_import : node :=
  ImportDeclaration
    [Node ImportDefaultSpecifier [Single "local" (identifier "lib")] None None] "lib"
    (Some [ {| value := " Import the library"; start := 34 |} ]) None.

Definition answer_statement : node :=
  ExpressionStatement (identifier "answer") None
    (Some [ {| value := " => 42"; start := 85 |} ]) false.

Definition text (v : string) : mdast := MdNode "text" None v [].
Definition paragraph (v : string) : mdast := MdNode "paragraph" None "" [text v].
Definition code (lang : option string) (v : string) : mdast := MdNode "code" lang v [].
Definition root (cs : list mdast) : mdast := MdNode "root" None "" cs.

(** A paragraph ending in a colon, then a block tagged [js+test]. *)
Definition titled_document : mdast :=
  root [paragraph "Adding numbers:"; code (Some "js+test") source_x].

(** A block tagged [toString], which [SUPPORTED_LANG] does not list. *)
Definition inherited_tag_document : mdast :=
  root [code (Some "toString") source_x].


(** Three samples, the second of which does not parse. *)
Definition broken_document : mdast :=
  root [code (Some "js+test") source_x; code (Some "js+test") source_bad;
        code (Some "js+test") source_y].

(** A text between double quotes. *)
Definition quoted (s : string) : string :=
  String (ascii_of_nat 34) (s +:+ String (ascii_of_nat 34) EmptyString).

(** The test cases the scanner returns for the three samples. *)
Definition case_x : TestCase.t :=
  {| TestCase.title := None; TestCase.lang := Some "js+test";
     TestCase.value := source_x |}.
Definition case_bad : TestCase.t :=
  {| TestCase.title := None; TestCase.lang := Some "js+test";
     TestCase.value := source_bad |}.
Definition case_y : TestCase.t :=
  {| TestCase.title := None; TestCase.lang := Some "js+test";
     TestCase.value := source_y |}.

(** A parser that knows four sources. *)
Definition toy_parse (src : string) : exn + node :=
  if String.eqb src (wrap source_x) then
    inr (sample_file [repr_statement] [])
  else if String.eqb src (wrap source_y) then
    inr (sample_file [import_default "y" "why"; error_statement] [])
  else if String.eqb src (wrap source_z) then
    inr (sample_file [commented_import; answer_statement] [])
  else inl (SyntaxError "Unexpected token").

(** Scopes that are built without an error. *)
Definition no_collision (root : node) : option exn := None.

Definition no_options : Options := {| name := None; filename := None |}.

(** A package [foo] with its manifest in [/pkg]. *)
Definition foo_manifest : Manifest.t :=
  {| Manifest.name := Some "foo"; Manifest.__path := "/pkg/package.json" |}.

Definition foo_files (dirname : string) : option Manifest.t :=
  if String.prefix "/pkg" dirname then Some foo_manifest else None.

End Samples.

(** ** Definitions used to state further properties *)

(** A tag that names a property every object inherits. *)
Definition inherited_tag (lang : option string) : bool :=
  JsObject.inherited (JsObject.to_key lang).

(** A cache that holds no directory named like an inherited property, and
    a cache that holds exactly the directories the file system was walked
    from. *)
Definition cache_clean (st : Remapper.state) : Prop :=
  forall d v, Remapper.packageJSONCache st !! d = Some v ->
              JsObject.inherited d = false.

Definition cache_is_walks (st : Remapper.state) : Prop :=
  forall d, is_Some (Remapper.packageJSONCache st !! d) <-> d ∈ Remapper.walks st.

Module Fixtures.

(** [f(function () { g(); // => 2 }); // => 1] and [h();] *)
Definition nested_statements : list node :=
  [ ExpressionStatement
      (callExpression (identifier "f")
         [functionExpression false
            (blockStatement
               [ExpressionStatement (callExpression (identifier "g") []) None
                  (Some [ {| value := " => 2"; start := 55 |} ]) false])])
      None (Some [ {| value := " => 1"; start := 67 |} ]) false;
    ExpressionStatement (callExpression (identifier "h") [])
      (Some [ {| value := " => 1"; start := 67 |} ]) None false ].

Definition nested_block : node := blockStatement nested_statements.

Definition nested_source : string :=
  "f(function () { g(); // => 2" +:+ newline +:+ "}); // => 1" +:+ newline +:+ "h();".

Definition nested_case : TestCase.t :=
  {| TestCase.title := None; TestCase.lang := Some "js+test";
     TestCase.value := nested_source |}.

Definition nested_parse (src : string) : exn + node :=
  if String.eqb src (wrap nested_source) then inr (sample_file nested_statements [])
  else inl (SyntaxError "Unexpected token").

(** [import a from 'a'; // first], [f(); // => 1], [import b from 'b'] and
    an [if] whose branch is [import c from 'c']. *)
Definition scattered_imports : list node :=
  [ ImportDeclaration [importSpecifier ImportDefaultSpecifier "a"] "a" None
      (Some [ {| value := " first"; start := 53 |} ]);
    ExpressionStatement (callExpression (identifier "f") [])
      (Some [ {| value := " first"; start := 53 |} ])
      (Some [ {| value := " => 1"; start := 67 |} ]) false;
    ImportDeclaration [importSpecifier ImportDefaultSpecifier "b"] "b"
      (Some [ {| value := " => 1"; start := 67 |} ]) None;
    Node (OtherType "IfStatement" "")
      [ Single "test" (identifier "x");
        Single "consequent"
          (ImportDeclaration [importSpecifier ImportDefaultSpecifier "c"] "c"
             None None) ] None None ].

(** [f(function () { import b from 'b' }); // => 1] and [import c from 'c']:
    an annotated statement that holds an import declaration. *)
Definition import_in_annotation : list node :=
  [ ExpressionStatement
      (callExpression (identifier "f")
         [functionExpression false
            (blockStatement
               [ImportDeclaration [importSpecifier ImportDefaultSpecifier "b"] "b"
                  None None])])
      None (Some [ {| value := " => 1"; start := 72 |} ]) false;
    ImportDeclaration [importSpecifier ImportDefaultSpecifier "c"] "c"
      (Some [ {| value := " => 1"; start := 72 |} ]) None ].

(** A sample without annotations and without imports. *)
Definition plain_source : string := "f()".

Definition plain_case : TestCase.t :=
  {| TestCase.title := Some "Calling f"; TestCase.lang := Some "js+test";
     TestCase.value := plain_source |}.

Definition plain_statements : list node :=
  [ExpressionStatement (callExpression (identifier "f") []) None None false].

Definition plain_parse (src : string) : exn + node :=
  if String.eqb src (wrap plain_source) then inr (sample_file plain_statements [])
  else inl (SyntaxError "Unexpected token").

(** A manifest without a [name], in [/app]. *)
Definition nameless_manifest : Manifest.t :=
  {| Manifest.name := None; Manifest.__path := "/app/package.json" |}.

Definition nameless_files (dirname : string) : option Manifest.t :=
  if String.prefix "/app" dirname then Some nameless_manifest else None.

End Fixtures.

(** ** Definitions used in the proofs *)

(** Two nodes that differ at most in the comments they carry themselves. *)
Definition similar (a b : node) : Prop := removeComments a = removeComments b.

Definition similar_entry (a b : entry) : Prop :=
  similar (fst a) (fst b) /\ snd a = snd b.

(** A node whose removal the traversal of its keys can ask for. *)
Definition statement_parent (n : node) : bool :=
  match n with
  | ExpressionStatement _ _ _ _ | LabeledStatement _ _ _ _ => true
  | _ => false
  end.

(** What holds of every result of a traversal of a node's keys: the import
    list grows by import declarations; a node that stays holds no import
    declaration; a path is removed only for a statement that can ask for
    it, and what was inserted behind it is less deep. *)
Definition sound (rec : traversal) : Prop :=
  forall n il d il',
    rec n il = Ok (d, il') ->
    extends il il' /\
    match d with
    | Stays n' => isImportDeclaration n = false -> import_free n' = true
    | Removed after =>
        statement_parent n = true /\
        Forall (fun r => depth r + 4 <= depth n) after
    end.

(** An element of a queue that is handed to a pass, and an element of what
    a pass hands back: the flagged nodes are bounded in depth, the others
    satisfy [idle]. *)
Definition input_ok (idle : node -> Prop) (bound : nat) (e : entry) : Prop :=
  if snd e then depth (fst e) <= bound else idle (fst e).

Definition entry_ok (idle : node -> Prop) (bound : nat) (e : entry) : Prop :=
  if snd e then depth (fst e) + 4 <= bound else idle (fst e).

(** The import declarations of the nodes of a queue. *)
Definition imports_queued (entries : list entry) : nat :=
  list_sum (map (fun e => imports_in (fst e)) entries).

(** No import declaration is lost and none is found twice: what the
    traversal of a node's keys adds to the import list, and what is left
    in the nodes it inserted, are the import declarations of the node. *)
Definition census (rec : traversal) : Prop :=
  forall n il d il',
    rec n il = Ok (d, il') ->
    isImportDeclaration n = false ->
    length il' +
    match d with
    | Stays _ => 0
    | Removed after => list_sum (map imports_in after)
    end
    = length il + imports_in n.

(** What the traversal of a node's keys adds to the import list when no
    expression statement of the node holds an import declaration: the
    import declarations of the node in the order of the text, with the
    comments they have by then. *)
Definition hoisted_in_order (n : node) (il il' : list node) : Prop :=
  exists found,
    il' = il ++ found /\
    map removeComments found = map removeComments (imports_of n).

Definition ordered (rec : traversal) : Prop :=
  forall n il d il',
    rec n il = Ok (d, il') ->
    isImportDeclaration n = false ->
    statements_import_free n = true ->
    hoisted_in_order n il il' /\
    match d with
    | Stays _ => True
    | Removed after => Forall (fun r => import_free r = true) after
    end.

(** An element of a queue whose expression statements hold no import
    declaration, if it is still to be visited, and which holds no import
    declaration at all, if it is not. *)
Definition entry_ready (e : entry) : Prop :=
  if snd e then statements_import_free (fst e) = true
  else import_free (fst e) = true.

(** An outcome that is the expected value, unless the fuel ran out. *)
Definition agrees {A} (o : outcome A) (v : A) : Prop :=
  match o with
  | Ok a => a = v
  | Throw _ => False
  | OutOfFuel => True
  end.

(** A traversal of the keys of a node that does what [rewritten] says. *)
Definition exact (rec : traversal) : Prop :=
  forall n il,
    rewritable n = true ->
    agrees (rec n il) (Stays (rewritten_keys rewritten n), il).

(** What a pass makes of an element of a queue, and what the visit of the
    queue makes of it in the end. *)
Definition swept (e : entry) : entry :=
  if snd e then
    if replaces (fst e) then (entered (fst e), true)
    else (rewritten_keys rewritten (fst e), false)
  else e.

Definition visited (e : entry) : node :=
  if snd e then rewritten (fst e) else fst e.

Definition is_import_free (n : node) : Prop := import_free n = true.

Definition any_node (n : node) : Prop := True.

(** * Properties *)

(** ** Strings and patterns *)

Section StringFacts.

Lemma append_assoc (a b c : string) : (a +:+ b) +:+ c = a +:+ (b +:+ c).
Proof. induction a as [|x a IH]; simpl; [reflexivity | now rewrite IH]. Qed.

Lemma append_empty_r (a : string) : a +:+ "" = a.
Proof. induction a as [|x a IH]; simpl; [reflexivity | now rewrite IH]. Qed.

Lemma all_app (p : ascii -> bool) (a b : string) :
  all p (a +:+ b) = all p a && all p b.
Proof.
  induction a as [|x a IH]; simpl; [reflexivity|].
  rewrite IH. now rewrite andb_assoc.
Qed.

Lemma letter_not_space (c : ascii) : is_letter c = true -> is_space c = false.
Proof.
  destruct c as [[|] [|] [|] [|] [|] [|] [|] [|]]; vm_compute; congruence.
Qed.

Lemma skip_space_split (s : string) :
  exists ws, all is_space ws = true /\ s = ws +:+ skip_space s.
Proof.
  induction s as [|c s [ws [Hws Hs]]]; simpl.
  - exists ""; split; reflexivity.
  - destruct (is_space c) eqn:Hc.
    + exists (String c ws); simpl. rewrite Hc, Hws. split; [reflexivity|].
      now rewrite <- Hs.
    + exists ""; split; reflexivity.
Qed.

Lemma skip_space_app (ws t : string) :
  all is_space ws = true -> skip_space (ws +:+ t) = skip_space t.
Proof.
  induction ws as [|c ws IH]; simpl; [reflexivity|].
  intros H. apply andb_true_iff in H as [Hc Hws]. rewrite Hc. now apply IH.
Qed.

Lemma skip_space_stop (c : ascii) (t : string) :
  is_space c = false -> skip_space (String c t) = String c t.
Proof. intros H; simpl; now rewrite H. Qed.

Lemma strip_prefix_spec (p s r : string) :
  strip_prefix p s = Some r <-> s = p +:+ r.
Proof.
  revert s; induction p as [|a p IH]; intros s; simpl.
  - split; congruence.
  - destruct s as [|b s]; [split; discriminate|].
    destruct (Ascii.eqb a b) eqn:Hab.
    + apply Ascii.eqb_eq in Hab; subst b. rewrite IH. split; congruence.
    + apply Ascii.eqb_neq in Hab. split; [discriminate | congruence].
Qed.

Lemma strip_prefix_app (p r : string) : strip_prefix p (p +:+ r) = Some r.
Proof. now apply strip_prefix_spec. Qed.

Lemma span_letters_spec (s l r : string) :
  span_letters s = (l, r) ->
  s = l +:+ r /\ all is_letter l = true /\
  match r with String c _ => is_letter c = false | EmptyString => True end.
Proof.
  revert l r; induction s as [|c s IH]; intros l r; simpl.
  - intros [= <- <-]. repeat split.
  - destruct (is_letter c) eqn:Hc.
    + destruct (span_letters s) as [l' r'] eqn:Hs.
      intros [= <- <-]. destruct (IH l' r' eq_refl) as (E & Hl & Hr).
      simpl. rewrite Hc, Hl. repeat split; [congruence | exact Hr].
    + intros [= <- <-]. simpl. repeat split. exact Hc.
Qed.

Lemma span_letters_app (l r : string) :
  all is_letter l = true ->
  match r with String c _ => is_letter c = false | EmptyString => True end ->
  span_letters (l +:+ r) = (l, r).
Proof.
  induction l as [|c l IH]; simpl; intros Hl Hr.
  - destruct r as [|c r]; simpl; [reflexivity | now rewrite Hr].
  - apply andb_true_iff in Hl as [Hc Hl]. rewrite Hc, (IH Hl Hr). reflexivity.
Qed.

Lemma ends_with_spec (suf s : string) :
  ends_with suf s = true <-> exists x, s = x +:+ suf.
Proof.
  induction s as [|c s IH]; cbn [ends_with].
  - rewrite orb_false_r, String.eqb_eq. split.
    + intros <-. now exists "".
    + intros [[|y x] E]; simpl in E; [congruence | discriminate].
  - rewrite orb_true_iff, String.eqb_eq, IH. split.
    + intros [<- | [x ->]]; [now exists "" | now exists (String c x)].
    + intros [[|y x] E]; simpl in E; [left; congruence|].
      right. exists x. congruence.
Qed.

(** The matcher of [REPR_ASSERTION_RE] finds exactly the matches of the
    pattern. *)
Lemma REPR_ASSERTION_RE_spec (s rest : string) :
  REPR_ASSERTION_RE s = Some rest <-> matches_repr s rest.
Proof.
  unfold REPR_ASSERTION_RE, matches_repr. split.
  - intros H. apply strip_prefix_spec in H.
    destruct (skip_space_split s) as (ws & Hws & Hs).
    exists ws. split; [exact Hws | congruence].
  - intros (ws & Hws & ->). rewrite skip_space_app by exact Hws.
    reflexivity.
Qed.

(** The matcher of [ERR_ASSSERTION_RE] finds exactly the matches of the
    pattern, and its first component is group 1. *)
Lemma ERR_ASSSERTION_RE_spec (s name rest : string) :
  ERR_ASSSERTION_RE s = Some (name, rest) <-> matches_error s name rest.
Proof.
  unfold ERR_ASSSERTION_RE, matches_error. split.
  - destruct (span_letters (skip_space s)) as [l r] eqn:Hspan.
    destruct (ends_with "Error" l) eqn:Hend; [|discriminate].
    destruct (strip_prefix ": " r) as [m|] eqn:Hstrip; [|discriminate].
    intros [= <- <-].
    apply span_letters_spec in Hspan as (E & Hl & _).
    apply ends_with_spec in Hend as [x ->].
    apply strip_prefix_spec in Hstrip as ->.
    destruct (skip_space_split s) as (ws & Hws & Hs).
    exists ws, x. rewrite all_app in Hl. apply andb_true_iff in Hl as [Hx _].
    repeat split; [exact Hws | exact Hx | congruence].
  - intros (ws & x & Hws & Hx & -> & ->).
    rewrite skip_space_app by exact Hws.
    assert (Hskip : skip_space ((x +:+ "Error") +:+ ": " +:+ rest)
                    = (x +:+ "Error") +:+ ": " +:+ rest).
    { destruct x as [|c x]; [reflexivity|]. simpl in Hx |- *.
      apply andb_true_iff in Hx as [Hc _].
      now rewrite (letter_not_space c Hc). }
    rewrite Hskip, span_letters_app.
    + assert (ends_with "Error" (x +:+ "Error") = true) as ->
        by (apply ends_with_spec; now exists x).
      reflexivity.
    + rewrite all_app, Hx. reflexivity.
    + reflexivity.
Qed.



(** A line cannot carry both markers. *)
Lemma repr_excludes_error (s rest : string) :
  matches_repr s rest -> ERR_ASSSERTION_RE s = None.
Proof.
  intros (ws & Hws & ->). unfold ERR_ASSSERTION_RE.
  rewrite skip_space_app by exact Hws. reflexivity.
Qed.

End StringFacts.

(** ** The visitor *)

Lemma node_ind (P : node -> Prop) :
  (forall e lc tc seen, P e -> P (ExpressionStatement e lc tc seen)) ->
  (forall sp src lc tc, Forall P sp -> P (ImportDeclaration sp src lc tc)) ->
  (forall l b lc tc, P l -> P b -> P (LabeledStatement l b lc tc)) ->
  (forall t fs lc tc,
     Forall (fun f => match f with
                      | Single _ c => P c
                      | Multiple _ cs => Forall P cs
                      end) fs ->
     P (Node t fs lc tc)) ->
  forall n, P n.
Proof.
  intros HES HID HLS HN. fix IH 1.
  intros [e lc tc seen | sp src lc tc | l b lc tc | t fs lc tc].
  - apply HES, IH.
  - apply HID. induction sp as [|x sp IHsp]; constructor; [apply IH | exact IHsp].
  - apply HLS; apply IH.
  - apply HN. induction fs as [|[key c | key cs] fs IHfs]; constructor;
      try exact IHfs; [apply IH|].
    induction cs as [|x cs IHcs]; constructor; [apply IH | exact IHcs].
Qed.




Lemma parse_repr (e : node) (lc : comments) (c : JSASTComment)
    (rest : list JSASTComment) (seen : bool) (text : string) :
  REPR_ASSERTION_RE (value c) = Some text ->
  parseExpectationFromNode (ExpressionStatement e lc (Some (c :: rest)) seen) repr
  = Ok (ExpectRepr (stringLiteral (join newline (text :: continuation_lines rest)))).
Proof.
  intros H. unfold parseExpectationFromNode, replace_match; simpl.
  rewrite H. reflexivity.
Qed.

Lemma parse_error (e : node) (lc : comments) (c : JSASTComment)
    (rest : list JSASTComment) (seen : bool) (name text : string) :
  ERR_ASSSERTION_RE (value c) = Some (name, text) ->
  parseExpectationFromNode (ExpressionStatement e lc (Some (c :: rest)) seen) error
  = Ok (ExpectError (stringLiteral name)
          (stringLiteral (join newline (text :: continuation_lines rest)))).
Proof.
  intros H. unfold parseExpectationFromNode, replace_match; simpl.
  rewrite H. reflexivity.
Qed.

Lemma enter_repr (e : node) (lc : comments) (c : JSASTComment)
    (rest : list JSASTComment) (text : string) :
  REPR_ASSERTION_RE (value c) = Some text ->
  enter (ExpressionStatement e lc (Some (c :: rest)) false)
  = Ok (ReplaceWithMultiple
          (ExpressionStatement
             (callExpression (runtime "assertRepr")
                [e; stringLiteral (join newline (text :: continuation_lines rest))])
             None None true)).
Proof.
  intros H. unfold enter. rewrite (parse_repr _ _ _ _ _ _ H).
  simpl. rewrite H. reflexivity.
Qed.

Lemma enter_error (e : node) (lc : comments) (c : JSASTComment)
    (rest : list JSASTComment) (name text : string) :
  REPR_ASSERTION_RE (value c) = None ->
  ERR_ASSSERTION_RE (value c) = Some (name, text) ->
  enter (ExpressionStatement e lc (Some (c :: rest)) false)
  = Ok (ReplaceWithMultiple
          (ExpressionStatement
             (awaitExpression
                (callExpression (runtime "assertError")
                   [arrowFunctionExpression true e; stringLiteral name;
                    stringLiteral (join newline (text :: continuation_lines rest))]))
             None None true)).
Proof.
  intros Hr H. unfold enter. rewrite (parse_error _ _ _ _ _ _ _ H).
  simpl. rewrite Hr, H. reflexivity.
Qed.

Lemma enter_plain (n : node) :
  findAssertion n = None ->
  enter n = Ok (if isImportDeclaration n then PushAndRemove else NoAction).
Proof.
  intros H. unfold enter. rewrite H. rewrite andb_false_r.
  destruct (isImportDeclaration n); reflexivity.
Qed.

Lemma enter_seen (e : node) (lc tc : comments) :
  enter (ExpressionStatement e lc tc true) = Ok NoAction.
Proof. reflexivity. Qed.

Lemma enter_Node (t : node_type) (fs : list (field node)) (lc tc : comments) :
  enter (Node t fs lc tc) = Ok NoAction.
Proof. reflexivity. Qed.

Lemma enter_LabeledStatement (l b : node) (lc tc : comments) :
  enter (LabeledStatement l b lc tc) = Ok NoAction.
Proof. reflexivity. Qed.

Lemma enter_ImportDeclaration (sp : list node) (src : string) (lc tc : comments) :
  enter (ImportDeclaration sp src lc tc) = Ok PushAndRemove.
Proof. reflexivity. Qed.

Lemma findAssertion_repr_inv (n : node) :
  findAssertion n = Some repr ->
  exists e lc c rest seen text,
    n = ExpressionStatement e lc (Some (c :: rest)) seen /\
    REPR_ASSERTION_RE (value c) = Some text.
Proof.
  destruct n as [e lc [[|c rest]|] seen | | |]; try discriminate. simpl.
  destruct (REPR_ASSERTION_RE (value c)) as [text|] eqn:Hr.
  - intros _. now exists e, lc, c, rest, seen, text.
  - destruct (ERR_ASSSERTION_RE (value c)); discriminate.
Qed.

Lemma findAssertion_error_inv (n : node) :
  findAssertion n = Some error ->
  exists e lc c rest seen name text,
    n = ExpressionStatement e lc (Some (c :: rest)) seen /\
    REPR_ASSERTION_RE (value c) = None /\
    ERR_ASSSERTION_RE (value c) = Some (name, text).
Proof.
  destruct n as [e lc [[|c rest]|] seen | | |]; try discriminate. simpl.
  destruct (REPR_ASSERTION_RE (value c)) as [text|] eqn:Hr; [discriminate|].
  destruct (ERR_ASSSERTION_RE (value c)) as [[name text]|] eqn:He; [|discriminate].
  intros _. now exists e, lc, c, rest, seen, name, text.
Qed.

(** [enter] never throws. *)
Lemma enter_total (n : node) : exists a, enter n = Ok a.
Proof.
  destruct (findAssertion n) as [a|] eqn:Hf.
  - destruct n as [e lc [[|c rest]|] seen | | |]; try discriminate.
    destruct seen; [eexists; apply enter_seen|].
    simpl in Hf.
    destruct (REPR_ASSERTION_RE (value c)) as [text|] eqn:Hr.
    + eexists; eapply enter_repr; eassumption.
    + destruct (ERR_ASSSERTION_RE (value c)) as [[name text]|] eqn:He;
        [|discriminate].
      eexists; eapply enter_error; eassumption.
  - eexists; now apply enter_plain.
Qed.

(** What [enter] replaces is an expression statement without the marker,
    and what it puts there is one of the two marked statements. *)
Lemma enter_replace_inv (n r : node) :
  enter n = Ok (ReplaceWithMultiple r) ->
  exists e lc c rest,
    n = ExpressionStatement e lc (Some (c :: rest)) false /\
    ((exists text,
        REPR_ASSERTION_RE (value c) = Some text /\
        r = ExpressionStatement
              (callExpression (runtime "assertRepr")
                 [e; stringLiteral (join newline (text :: continuation_lines rest))])
              None None true) \/
     (exists name text,
        REPR_ASSERTION_RE (value c) = None /\
        ERR_ASSSERTION_RE (value c) = Some (name, text) /\
        r = ExpressionStatement
              (awaitExpression
                 (callExpression (runtime "assertError")
                    [arrowFunctionExpression true e; stringLiteral name;
                     stringLiteral (join newline (text :: continuation_lines rest))]))
              None None true)).
Proof.
  intros Hn.
  destruct (findAssertion n) as [[|]|] eqn:Hf.
  - destruct (findAssertion_repr_inv n Hf)
      as (e & lc & c & rest & seen & text & -> & Hr).
    destruct seen; [rewrite enter_seen in Hn; discriminate|].
    rewrite (enter_repr _ _ _ _ _ Hr) in Hn. injection Hn as <-.
    exists e, lc, c, rest. split; [reflexivity|]. left. now exists text.
  - destruct (findAssertion_error_inv n Hf)
      as (e & lc & c & rest & seen & name & text & -> & Hr & He).
    destruct seen; [rewrite enter_seen in Hn; discriminate|].
    rewrite (enter_error _ _ _ _ _ _ Hr He) in Hn. injection Hn as <-.
    exists e, lc, c, rest. split; [reflexivity|]. right. now exists name, text.
  - rewrite (enter_plain n Hf) in Hn.
    destruct (isImportDeclaration n); discriminate.
Qed.

Lemma enter_remove_inv (n : node) :
  enter n = Ok PushAndRemove -> isImportDeclaration n = true.
Proof.
  intros Hn. destruct (findAssertion n) as [[|]|] eqn:Hf.
  - destruct (findAssertion_repr_inv n Hf)
      as (e & lc & c & rest & seen & text & -> & Hr).
    destruct seen; [rewrite enter_seen in Hn; discriminate|].
    rewrite (enter_repr _ _ _ _ _ Hr) in Hn. discriminate.
  - destruct (findAssertion_error_inv n Hf)
      as (e & lc & c & rest & seen & name & text & -> & Hr & He).
    destruct seen; [rewrite enter_seen in Hn; discriminate|].
    rewrite (enter_error _ _ _ _ _ _ Hr He) in Hn. discriminate.
  - rewrite (enter_plain n Hf) in Hn.
    now destruct (isImportDeclaration n).
Qed.

Lemma enter_no_action_inv (n : node) :
  enter n = Ok NoAction -> isImportDeclaration n = false.
Proof. destruct n; try reflexivity. discriminate. Qed.

(** ** The traversal *)

(** *** Nodes that differ in their own comments *)

Lemma depth_pos (n : node) : 2 <= depth n.
Proof. destruct n as [e lc tc [|] | | |]; simpl; lia. Qed.

Lemma similar_refl (a : node) : similar a a.
Proof. reflexivity. Qed.

Lemma similar_sym (a b : node) : similar a b -> similar b a.
Proof. unfold similar. congruence. Qed.

Lemma similar_trans (a b c : node) : similar a b -> similar b c -> similar a c.
Proof. unfold similar. congruence. Qed.

Lemma similar_set_leading (n : node) (cs : comments) :
  similar (set_leadingComments n cs) n.
Proof. now destruct n. Qed.

Lemma similar_set_trailing (n : node) (cs : comments) :
  similar (set_trailingComments n cs) n.
Proof. now destruct n. Qed.

Lemma similar_add_leading (n : node) (cs : comments) : similar (add_leading n cs) n.
Proof. apply similar_set_leading. Qed.

Lemma similar_add_trailing (n : node) (cs : comments) : similar (add_trailing n cs) n.
Proof. apply similar_set_trailing. Qed.

Lemma similar_inheritsComments (child parent : node) :
  similar (inheritsComments child parent) child.
Proof.
  unfold inheritsComments, inheritTrailingComments, inheritLeadingComments.
  eapply similar_trans; [apply similar_set_trailing | apply similar_set_leading].
Qed.

Lemma similar_removeComments (n : node) : similar (removeComments n) n.
Proof. now destruct n. Qed.

Lemma similar_depth (a b : node) : similar a b -> depth a = depth b.
Proof.
  unfold similar. destruct a, b; simpl; intros [= ]; subst; reflexivity.
Qed.

Lemma similar_import_free (a b : node) : similar a b -> import_free a = import_free b.
Proof.
  unfold similar. destruct a, b; simpl; intros [= ]; subst; reflexivity.
Qed.

Lemma similar_isImportDeclaration (a b : node) :
  similar a b -> isImportDeclaration a = isImportDeclaration b.
Proof.
  unfold similar. destruct a, b; simpl; intros [= ]; subst; reflexivity.
Qed.

Lemma similar_entry_refl (e : entry) : similar_entry e e.
Proof. split; reflexivity. Qed.

Lemma share_similar (n : node) (prev next prev' next' : option node) :
  shareCommentsWithSiblings n prev next = (prev', next') ->
  option_Forall2 similar prev prev' /\ option_Forall2 similar next next'.
Proof.
  unfold shareCommentsWithSiblings.
  destruct (leadingComments_of n), (trailingComments_of n), prev, next;
    intros [= <- <-]; split; constructor;
    try apply similar_refl;
    apply similar_sym;
    repeat first [apply similar_add_leading | apply similar_add_trailing
                 | eapply similar_trans; [apply similar_add_leading|]
                 | eapply similar_trans; [apply similar_add_trailing|] ].
Qed.

Lemma Forall2_all_refl {A} (R : A -> A -> Prop) (l : list A) :
  (forall x, R x x) -> Forall2 R l l.
Proof. intros H. induction l; constructor; auto. Qed.

Lemma set_previous_similar (done : list entry) (prev' : option node) :
  option_Forall2 similar (previous done) prev' ->
  Forall2 similar_entry done (set_previous prev' done).
Proof.
  destruct done as [|[p q] done]; simpl.
  - intros _. destruct prev'; constructor.
  - intros H. inversion H as [? p' Hs|]; subst. simpl.
    constructor; [now split|].
    apply Forall2_all_refl, similar_entry_refl.
Qed.

(** What [path.remove()] leaves of an array: the elements before the path,
    what was inserted behind it, flagged, and the element after it, each
    with at most other comments. *)
Lemma remove_path_similar (n : node) (done : list entry) (after : list node)
    (next : option node) (done' : list entry) (next' : option node) :
  remove_path n done after next = (done', next') ->
  exists done1 after1,
    done' = rev (queued after1) ++ done1 /\
    Forall2 similar_entry done done1 /\
    Forall2 similar after after1 /\
    option_Forall2 similar next next'.
Proof.
  unfold remove_path. destruct after as [|a after].
  - destruct (shareCommentsWithSiblings n (previous done) next)
      as [prev1 next1] eqn:E.
    intros [= <- <-]. apply share_similar in E as [Hp Hn].
    exists (set_previous prev1 done), []. split; [reflexivity|].
    split; [now apply set_previous_similar|]. split; [constructor | exact Hn].
  - destruct (shareCommentsWithSiblings n (previous done) (Some a))
      as [prev1 a1] eqn:E.
    intros [= <- <-]. apply share_similar in E as [Hp Ha].
    exists (set_previous prev1 done), (default a a1 :: after).
    split; [reflexivity|]. split; [now apply set_previous_similar|].
    split.
    + constructor.
      * inversion Ha; subst. simpl. assumption.
      * apply Forall2_all_refl, similar_refl.
    + destruct next; constructor. apply similar_refl.
Qed.

Lemma depth_blockStatement_one (x : node) : depth (blockStatement [x]) = 2 + depth x.
Proof. simpl. lia. Qed.

(** A replacement is less deep than the statement it replaces. *)
Lemma enter_replace_depth (n r : node) :
  enter n = Ok (ReplaceWithMultiple r) ->
  depth (inheritsComments r n) + 4 <= depth n.
Proof.
  intros H. rewrite (similar_depth _ _ (similar_inheritsComments r n)).
  apply enter_replace_inv in H as (e & lc & c & rest & -> & H).
  pose proof (depth_pos e) as He.
  destruct H as [(text & _ & ->) | (name & text & _ & _ & ->)]; simpl; lia.
Qed.

(** *** What every traversal keeps *)

(** A step of a computation that returned. *)
Ltac ok_bind H E :=
  match type of H with
  | mbind _ ?m = Ok _ =>
      destruct m eqn:E; cbn [mbind outcome_bind] in H; [|discriminate|discriminate]
  end.

Lemma extends_refl (il : list node) : extends il il.
Proof. exists []. split; [now rewrite app_nil_r | constructor]. Qed.

Lemma extends_trans (a b c : list node) : extends a b -> extends b c -> extends a c.
Proof.
  intros (f1 & -> & H1) (f2 & -> & H2). exists (f1 ++ f2).
  split; [now rewrite app_assoc | now apply Forall_app].
Qed.

Lemma extends_push (il : list node) (n : node) :
  isImportDeclaration n = true -> extends il (il ++ [n]).
Proof. intros H. exists [n]. split; [reflexivity | now constructor]. Qed.

Lemma import_free_inherits (child parent : node) :
  import_free (inheritsComments child parent) = import_free child.
Proof. apply similar_import_free, similar_inheritsComments. Qed.

Lemma visit_body_sound (rec : traversal) (c : node) (il : list node)
    (d : descended) (il' : list node) :
  sound rec ->
  visit_body rec c il = Ok (d, il') ->
  extends il il' /\
  match d with
  | Stays c' => import_free c' = true
  | Removed after => Forall (fun r => depth r + 4 <= depth c) after
  end.
Proof.
  intros Hrec H. unfold visit_body in H.
  destruct (enter_total c) as [a Ha]. rewrite Ha in H. cbn [mbind outcome_bind] in H.
  destruct a as [r| |].
  - injection H as <- <-. split; [apply extends_refl|].
    constructor; [now apply enter_replace_depth | constructor].
  - injection H as <- <-. split; [|constructor].
    now apply extends_push, enter_remove_inv.
  - destruct (Hrec _ _ _ _ H) as [He Hd]. split; [exact He|].
    destruct d as [c'|after]; [|apply Hd].
    now apply Hd, enter_no_action_inv.
Qed.

Lemma visit_child_sound (rec : traversal) (pos : position) (c : node)
    (il : list node) (c' : node) (il' : list node) :
  sound rec ->
  visit_child rec pos c il = Ok (c', il') ->
  import_free c' = true /\ extends il il'.
Proof.
  intros Hrec H. unfold visit_child in H.
  destruct (enter_total c) as [a Ha]. rewrite Ha in H. cbn [mbind outcome_bind] in H.
  destruct a as [r| |].
  - assert (Hb : forall block,
              statement_parent block = false -> isImportDeclaration block = false ->
              ('(d, importList) ← rec block il; Ok (kept d block, importList))
              = Ok (c', il') ->
              import_free c' = true /\ extends il il').
    { intros block Hsp Hni Hb. ok_bind Hb E. destruct a as [d il1].
      injection Hb as <- <-. destruct (Hrec _ _ _ _ E) as [He Hd].
      split; [|exact He]. destruct d as [b'|after]; simpl; [now apply Hd|].
      destruct Hd as [Hd _]. congruence. }
    destruct pos; try discriminate; (eapply Hb; [| |exact H]; reflexivity).
  - destruct pos; try discriminate. injection H as <- <-. split.
    + now rewrite import_free_inherits.
    + apply extends_push.
      rewrite (similar_isImportDeclaration _ _ (similar_removeComments c)).
      now apply enter_remove_inv.
  - ok_bind H E. destruct a as [d il1]. destruct (Hrec _ _ _ _ E) as [He Hd].
    destruct d as [c1|[|r after]].
    + injection H as <- <-. split; [|exact He]. now apply Hd, enter_no_action_inv.
    + destruct pos; try discriminate. injection H as <- <-.
      split; [now rewrite import_free_inherits | exact He].
    + destruct pos; discriminate.
Qed.

Lemma visit_fields_sound
    (visit_one : position -> node -> list node -> outcome (node * list node))
    (visit_many : list node -> list node -> outcome (list node * list node))
    (t : node_type) :
  (forall pos c il c' il',
     visit_one pos c il = Ok (c', il') -> import_free c' = true /\ extends il il') ->
  (forall cs il cs' il',
     visit_many cs il = Ok (cs', il') ->
     forallb import_free cs' = true /\ extends il il') ->
  forall fs il fs' il',
    visit_fields visit_one visit_many t fs il = Ok (fs', il') ->
    (forall lc tc, import_free (Node t fs' lc tc) = true) /\ extends il il'.
Proof.
  intros Hone Hmany. induction fs as [|[key c | key cs] fs IH]; intros il fs' il' H;
    cbn [visit_fields] in H.
  - injection H as <- <-. split; [reflexivity | apply extends_refl].
  - ok_bind H E1. destruct a as [c1 il1]. ok_bind H E2. destruct a as [fs1 il2].
    injection H as <- <-.
    destruct (Hone _ _ _ _ _ E1) as [Hc He1].
    destruct (IH _ _ _ E2) as [Hfs He2].
    split; [|now apply (extends_trans _ il1)].
    intros lc tc. specialize (Hfs lc tc). simpl in *. now rewrite Hc.
  - ok_bind H E1. destruct a as [cs1 il1]. ok_bind H E2. destruct a as [fs1 il2].
    injection H as <- <-.
    destruct (Hmany _ _ _ _ E1) as [Hc He1].
    destruct (IH _ _ _ E2) as [Hfs He2].
    split; [|now apply (extends_trans _ il1)].
    intros lc tc. specialize (Hfs lc tc). simpl in *. now rewrite Hc.
Qed.

(** The visit of a path changes at most the comments of the element after
    it. *)
Lemma visit_in_list_next (rec : traversal) (done : list entry) (n : node)
    (next : option node) (il : list node)
    (done' : list entry) (next' : option node) (il' : list node) :
  visit_in_list rec done n next il = Ok (done', next', il') ->
  option_Forall2 similar next next'.
Proof.
  intros E. unfold visit_in_list in E.
  assert (Hrefl : option_Forall2 similar next next)
    by (destruct next; constructor; apply similar_refl).
  destruct (enter_total n) as [a Ha]. rewrite Ha in E.
  cbn [mbind outcome_bind] in E. destruct a as [r| |].
  - now injection E as <- <- <-.
  - destruct (remove_path n done [] next) as [d2 n2] eqn:E2.
    injection E as <- <- <-.
    now apply remove_path_similar in E2 as (? & ? & _ & _ & _ & H).
  - ok_bind E E1. destruct a as [[n2|after] il2].
    + now injection E as <- <- <-.
    + destruct (remove_path n done after next) as [d2 n2] eqn:E2.
      injection E as <- <- <-.
      now apply remove_path_similar in E2 as (? & ? & _ & _ & _ & H).
Qed.

Section Passes.

(** What is kept of the nodes that are not on the queue. *)
Variable idle : node -> Prop.
Hypothesis idle_similar : forall a b, similar a b -> idle a -> idle b.
Hypothesis idle_free : forall n, import_free n = true -> idle n.

Lemma similar_entry_ok (bound : nat) (a b : entry) :
  similar_entry a b -> entry_ok idle bound a -> entry_ok idle bound b.
Proof.
  destruct a as [a p], b as [b q]. intros [Hs Hp]. simpl in Hs, Hp. subst q.
  unfold entry_ok. simpl. rewrite (similar_depth _ _ Hs).
  destruct p; [auto | now apply idle_similar].
Qed.

Lemma similar_input_ok (bound : nat) (a b : node) (p : bool) :
  similar a b -> input_ok idle bound (a, p) -> input_ok idle bound (b, p).
Proof.
  intros Hs. unfold input_ok. simpl. rewrite (similar_depth _ _ Hs).
  destruct p; [auto | now apply idle_similar].
Qed.

Lemma visit_in_list_sound (rec : traversal) (bound : nat) (done : list entry)
    (n : node) (next : option node) (il : list node)
    (done' : list entry) (next' : option node) (il' : list node) :
  sound rec ->
  depth n <= bound ->
  Forall (entry_ok idle bound) done ->
  visit_in_list rec done n next il = Ok (done', next', il') ->
  Forall (entry_ok idle bound) done' /\ option_Forall2 similar next next' /\
  extends il il'.
Proof.
  intros Hrec Hn Hdone H. unfold visit_in_list in H.
  assert (Hrm : forall after d1 n1,
            Forall (fun r => depth r + 4 <= depth n) after ->
            remove_path n done after next = (d1, n1) ->
            Forall (entry_ok idle bound) d1 /\ option_Forall2 similar next n1).
  { intros after d1 n1 Hafter Hr.
    apply remove_path_similar in Hr as (done1 & after1 & -> & Hd & Ha & Hnx).
    split; [|exact Hnx]. apply Forall_app. split.
    - apply Forall_rev. unfold queued. apply Forall_map.
      induction Ha as [|x y l l' Hxy _ IH]; [constructor|].
      apply Forall_cons in Hafter as [Hx Hl]. constructor; [|now apply IH].
      unfold entry_ok. simpl. rewrite <- (similar_depth _ _ Hxy). lia.
    - clear H. induction Hd as [|x y l l' Hxy _ IH]; [constructor|].
      apply Forall_cons in Hdone as [Hx Hl]. constructor; [|now apply IH].
      now apply (similar_entry_ok bound x y). }
  destruct (enter_total n) as [a Ha]. rewrite Ha in H. cbn [mbind outcome_bind] in H.
  destruct a as [r| |].
  - injection H as <- <- <-. split; [|split].
    + constructor; [|exact Hdone]. unfold entry_ok. simpl.
      pose proof (enter_replace_depth n r Ha). lia.
    + destruct next; constructor. apply similar_refl.
    + apply extends_refl.
  - destruct (remove_path n done [] next) as [d1 n1] eqn:E.
    injection H as <- <- <-.
    destruct (Hrm [] d1 n1 ltac:(constructor) E) as [H1 H2].
    split; [exact H1|]. split; [exact H2|].
    now apply extends_push, enter_remove_inv.
  - ok_bind H E. destruct a as [d il1]. destruct (Hrec _ _ _ _ E) as [He Hd].
    destruct d as [n1|after].
    + injection H as <- <- <-. split; [|split; [|exact He]].
      * constructor; [|exact Hdone]. unfold entry_ok. simpl.
        now apply idle_free, Hd, enter_no_action_inv.
      * destruct next; constructor. apply similar_refl.
    + destruct (remove_path n done after next) as [d1 n1] eqn:E1.
      injection H as <- <- <-. destruct Hd as [_ Hd].
      destruct (Hrm after d1 n1 Hd E1) as [H1 H2].
      split; [exact H1|]. split; [exact H2 | exact He].
Qed.

Lemma sweep_sound (rec : traversal) (bound : nat) :
  sound rec ->
  forall rest done n flagged il entries' il',
    input_ok idle bound (n, flagged) ->
    Forall (input_ok idle bound) rest ->
    Forall (entry_ok idle bound) done ->
    sweep rec done n flagged rest il = Ok (entries', il') ->
    Forall (entry_ok idle bound) entries' /\ extends il il'.
Proof.
  intros Hrec. induction rest as [|[x q] rest IH];
    intros done n flagged il entries' il' Hn Hrest Hdone H; cbn [sweep] in H.
  - ok_bind H E. destruct a as [[d1 n1] il1]. injection H as <- <-.
    destruct flagged.
    + destruct (visit_in_list_sound _ bound _ _ _ _ _ _ _ Hrec Hn Hdone E)
        as (H1 & _ & H3).
      split; [now apply Forall_rev | exact H3].
    + injection E as <- <- <-. split; [|apply extends_refl].
      apply Forall_rev. constructor; assumption.
  - ok_bind H E. destruct a as [[d1 n1] il1].
    apply Forall_cons in Hrest as [Hx Hrest].
    assert (Hstep : Forall (entry_ok idle bound) d1 /\
                    option_Forall2 similar (Some x) n1 /\ extends il il1).
    { destruct flagged.
      - exact (visit_in_list_sound _ bound _ _ _ _ _ _ _ Hrec Hn Hdone E).
      - injection E as <- <- <-. split; [constructor; assumption|].
        split; [constructor; apply similar_refl | apply extends_refl]. }
    destruct Hstep as (H1 & H2 & H3).
    inversion H2 as [? x' Hxx'|]; subst. simpl in H.
    destruct (IH _ _ _ _ _ _ (similar_input_ok bound x x' q Hxx' Hx) Hrest H1 H)
      as [H4 H5].
    split; [exact H4 | now apply (extends_trans _ il1)].
Qed.

End Passes.

Lemma Forall_forallb {A} (p : A -> bool) (l : list A) :
  Forall (fun x => p x = true) l <-> forallb p l = true.
Proof.
  induction l as [|x l IH]; simpl; [split; auto|].
  rewrite Forall_cons, andb_true_iff, IH. reflexivity.
Qed.

Lemma existsb_snd_false (entries : list entry) :
  existsb snd entries = false -> Forall (fun e => snd e = false) entries.
Proof.
  induction entries as [|[x q] l IH]; simpl; [constructor|].
  intros H. apply orb_false_iff in H as [-> H]. constructor; [reflexivity | auto].
Qed.

Lemma is_import_free_similar (a b : node) :
  similar a b -> is_import_free a -> is_import_free b.
Proof. unfold is_import_free. intros H. now rewrite (similar_import_free _ _ H). Qed.

Lemma idle_entries (entries : list entry) :
  Forall (fun e => snd e = false -> import_free (fst e) = true) entries ->
  existsb snd entries = false ->
  forallb import_free (map fst entries) = true.
Proof.
  intros Hin Hex. apply Forall_forallb. apply Forall_map.
  apply existsb_snd_false in Hex.
  eapply Forall_impl; [apply Forall_and; split; [exact Hin | exact Hex]|].
  intros e [H1 H2]. auto.
Qed.

(** The queue of a pass is within the bound its deepest flagged node
    sets. *)
Lemma input_ok_max (entries : list entry) :
  Forall (fun e => snd e = false -> import_free (fst e) = true) entries ->
  Forall (input_ok is_import_free (list_max (map (fun e => depth (fst e)) entries)))
    entries.
Proof.
  intros H. apply Forall_forall. intros [x q] Hin.
  rewrite Forall_forall in H. specialize (H _ Hin). unfold input_ok. simpl in *.
  destruct q; [|now apply H].
  assert (Hm : depth x ∈ map (fun e : entry => depth (fst e)) entries).
  { apply list_elem_of_In. apply in_map_iff. exists (x, true).
    split; [reflexivity | now apply list_elem_of_In]. }
  pose proof (list_max_le (map (fun e : entry => depth (fst e)) entries)
                (list_max (map (fun e : entry => depth (fst e)) entries))) as [Hle _].
  specialize (Hle (Nat.le_refl _)). rewrite List.Forall_forall in Hle.
  apply Hle. now apply list_elem_of_In.
Qed.

Lemma descend_visit_list_sound (fuel : nat) :
  sound (descend fuel) /\
  (forall entries il cs il',
     Forall (fun e => snd e = false -> import_free (fst e) = true) entries ->
     visit_list fuel entries il = Ok (cs, il') ->
     forallb import_free cs = true /\ extends il il').
Proof.
  induction fuel as [|fuel [IHd IHl]].
  - split; [intros n il d il' H; discriminate|].
    intros [|[n p] rest] il cs il' Hin H; cbn [visit_list] in H.
    + injection H as <- <-. split; [reflexivity | apply extends_refl].
    + destruct (existsb snd ((n, p) :: rest)) eqn:Hex; [discriminate|].
      injection H as <- <-. split; [|apply extends_refl].
      now apply (idle_entries ((n, p) :: rest)).
  - assert (Hl : forall entries il cs il',
              Forall (fun e => snd e = false -> import_free (fst e) = true) entries ->
              visit_list (S fuel) entries il = Ok (cs, il') ->
              forallb import_free cs = true /\ extends il il').
    { intros [|[n p] rest] il cs il' Hin H; cbn [visit_list] in H.
      - injection H as <- <-. split; [reflexivity | apply extends_refl].
      - destruct (existsb snd ((n, p) :: rest)) eqn:Hex.
        + ok_bind H E. destruct a as [entries1 il1].
          pose proof (input_ok_max _ Hin) as Hok.
          apply Forall_cons in Hok as [Hn Hrest].
          destruct (sweep_sound is_import_free is_import_free_similar
                      (fun n H => H) _ _ IHd _ _ _ _ _ _ _ Hn Hrest
                      ltac:(constructor) E) as [H1 H2].
          assert (Hin1 : Forall (fun e => snd e = false -> import_free (fst e) = true)
                           entries1).
          { eapply Forall_impl; [exact H1|]. intros [x q]. unfold entry_ok. simpl.
            intros Hx ->. exact Hx. }
          destruct (IHl _ _ _ _ Hin1 H) as [H3 H4].
          split; [exact H3 | now apply (extends_trans _ il1)].
        + injection H as <- <-. split; [|apply extends_refl].
          now apply (idle_entries ((n, p) :: rest)). }
    split; [|exact Hl].
    intros n il d il' H.
    destruct n as [e lc tc seen | sp src lc tc | l b lc tc | t fs lc tc];
      cbn [descend] in H.
    + ok_bind H E. destruct a as [d1 il1]. injection H as <- <-.
      destruct (visit_body_sound _ _ _ _ _ IHd E) as [He Hd].
      split; [exact He|]. destruct d1 as [e1|after]; [now intros _|].
      split; [reflexivity|]. eapply Forall_impl; [exact Hd|].
      intros r Hr. simpl in *. destruct seen; lia.
    + ok_bind H E. destruct a as [sp1 il1]. injection H as <- <-.
      assert (Hin : Forall (fun e => snd e = false -> import_free (fst e) = true)
                      (pending sp)).
      { unfold pending. apply Forall_map, Forall_forall. intros x _. discriminate. }
      destruct (IHl _ _ _ _ Hin E) as [_ He]. split; [exact He | discriminate].
    + ok_bind H E1. destruct a as [l1 il1]. ok_bind H E2. destruct a as [d1 il2].
      injection H as <- <-.
      destruct (visit_child_sound _ _ _ _ _ _ IHd E1) as [Hl1 He1].
      destruct (visit_body_sound _ _ _ _ _ IHd E2) as [He2 Hd].
      split; [now apply (extends_trans _ il1)|].
      destruct d1 as [b1|after].
      * intros _. simpl. now rewrite Hl1, Hd.
      * split; [reflexivity|]. eapply Forall_impl; [exact Hd|].
        intros r Hr. simpl in *. lia.
    + ok_bind H E. destruct a as [fs1 il1]. injection H as <- <-.
      assert (Hmany : forall cs il cs' il',
                visit_list fuel (pending cs) il = Ok (cs', il') ->
                forallb import_free cs' = true /\ extends il il').
      { intros cs il0 cs' il0' Hv. apply (IHl (pending cs)); [|exact Hv].
        unfold pending. apply Forall_map, Forall_forall. intros x _. discriminate. }
      destruct (visit_fields_sound _ _ t
                  (fun pos c il c' il' => visit_child_sound _ pos c il c' il' IHd)
                  Hmany _ _ _ _ E) as [Hfs He].
      split; [exact He|]. intros _. apply Hfs.
Qed.

(** *** The fuel of a traversal is enough *)

Lemma returns_bind {A B} (m : outcome A) (k : A -> outcome B) :
  returns m -> (forall a, m = Ok a -> returns (k a)) -> returns (m ≫= k).
Proof. destruct m; simpl; auto. Qed.

Lemma visit_body_returns (rec : traversal) (bound : nat) (c : node) (il : list node) :
  (forall m il, depth m <= bound -> returns (rec m il)) ->
  depth c <= bound ->
  returns (visit_body rec c il).
Proof.
  intros Hrec Hc. unfold visit_body.
  destruct (enter_total c) as [a ->]. cbn [mbind outcome_bind].
  destruct a; simpl; auto.
Qed.

Lemma visit_child_returns (rec : traversal) (bound : nat) (pos : position)
    (c : node) (il : list node) :
  (forall m il, depth m <= bound -> returns (rec m il)) ->
  depth c <= bound ->
  returns (visit_child rec pos c il).
Proof.
  intros Hrec Hc. unfold visit_child.
  destruct (enter_total c) as [a Ha]. rewrite Ha. cbn [mbind outcome_bind].
  destruct a as [r| |].
  - assert (Hb : returns
                   ('(d, importList) ← rec (blockStatement [inheritsComments r c]) il;
                    Ok (kept d (blockStatement [inheritsComments r c]), importList))).
    { apply returns_bind.
      - apply Hrec. rewrite depth_blockStatement_one.
        pose proof (enter_replace_depth c r Ha). lia.
      - intros [d il1] _. exact I. }
    destruct pos; simpl; auto.
  - destruct pos; exact I.
  - apply returns_bind; [now apply Hrec|].
    intros [[c1|[|r after]] il1] _; destruct pos; exact I.
Qed.

Lemma visit_fields_returns
    (visit_one : position -> node -> list node -> outcome (node * list node))
    (visit_many : list node -> list node -> outcome (list node * list node))
    (t : node_type) (bound : nat) :
  (forall pos c il, depth c <= bound -> returns (visit_one pos c il)) ->
  (forall cs il, list_max (map depth cs) <= bound -> returns (visit_many cs il)) ->
  forall fs il,
    list_max (map (fun f => match f with
                            | Single _ c => depth c
                            | Multiple _ cs => list_max (map depth cs)
                            end) fs) <= bound ->
    returns (visit_fields visit_one visit_many t fs il).
Proof.
  intros Hone Hmany. induction fs as [|[key c | key cs] fs IH]; intros il Hfs;
    cbn [visit_fields]; [exact I| |]; simpl in Hfs.
  - apply returns_bind; [apply Hone; lia|]. intros [c1 il1] _.
    apply returns_bind; [apply IH; lia|]. intros [fs1 il2] _. exact I.
  - apply returns_bind; [apply Hmany; lia|]. intros [c1 il1] _.
    apply returns_bind; [apply IH; lia|]. intros [fs1 il2] _. exact I.
Qed.

Lemma visit_in_list_returns (rec : traversal) (bound : nat) (done : list entry)
    (n : node) (next : option node) (il : list node) :
  (forall m il, depth m <= bound -> returns (rec m il)) ->
  depth n <= bound ->
  returns (visit_in_list rec done n next il).
Proof.
  intros Hrec Hn. unfold visit_in_list.
  destruct (enter_total n) as [a ->]. cbn [mbind outcome_bind].
  destruct a as [r| |]; [exact I | now destruct (remove_path n done [] next) |].
  apply returns_bind; [now apply Hrec|].
  intros [[n1|after] il1] _; [exact I|].
  now destruct (remove_path n done after next).
Qed.

Lemma any_node_similar (a b : node) : similar a b -> any_node a -> any_node b.
Proof. intros _ _. exact I. Qed.

Lemma sweep_returns (rec : traversal) (bound : nat) :
  sound rec ->
  (forall m il, depth m <= bound -> returns (rec m il)) ->
  forall rest done n flagged il,
    input_ok any_node bound (n, flagged) ->
    Forall (input_ok any_node bound) rest ->
    returns (sweep rec done n flagged rest il).
Proof.
  intros Hsound Hrec. induction rest as [|[x q] rest IH];
    intros done n flagged il Hn Hrest; cbn [sweep].
  - apply returns_bind.
    + destruct flagged; [now apply (visit_in_list_returns rec bound) | exact I].
    + intros [[d1 n1] il1] _. exact I.
  - apply Forall_cons in Hrest as [Hx Hrest]. apply returns_bind.
    + destruct flagged; [now apply (visit_in_list_returns rec bound) | exact I].
    + intros [[d1 n1] il1] E.
      assert (H2 : option_Forall2 similar (Some x) n1).
      { destruct flagged.
        - now apply visit_in_list_next in E.
        - injection E as <- <- <-. constructor. apply similar_refl. }
      inversion H2 as [? x' Hxx'|]; subst. simpl.
      apply IH; [|exact Hrest].
      now apply (similar_input_ok any_node any_node_similar bound x x' q).
Qed.

(** With the depth of a node as fuel the traversal of its keys returns or
    throws, and so does the visit of an array with more fuel than the depth
    of the nodes on its queue. *)
Lemma fuel_enough (fuel : nat) :
  (forall n il, depth n <= fuel -> returns (descend fuel n il)) /\
  (forall entries il,
     Forall (fun e => snd e = true -> depth (fst e) < fuel) entries ->
     returns (visit_list fuel entries il)).
Proof.
  induction fuel as [|fuel [IHd IHl]].
  - split.
    + intros n il Hn. pose proof (depth_pos n). lia.
    + intros [|[n p] rest] il Hin; cbn [visit_list]; [exact I|].
      destruct (existsb snd ((n, p) :: rest)) eqn:Hex; [|exact I].
      exfalso. apply existsb_exists in Hex as ([x q] & Hx & Hq). simpl in Hq.
      rewrite Forall_forall in Hin.
      specialize (Hin (x, q) ltac:(now apply list_elem_of_In) Hq). simpl in Hin. lia.
  - destruct (descend_visit_list_sound fuel) as [Hsound _].
    assert (Hl : forall entries il,
              Forall (fun e => snd e = true -> depth (fst e) < S fuel) entries ->
              returns (visit_list (S fuel) entries il)).
    { intros [|[n p] rest] il Hin; cbn [visit_list]; [exact I|].
      destruct (existsb snd ((n, p) :: rest)) eqn:Hex; [|exact I].
      assert (Hok : Forall (input_ok any_node fuel) ((n, p) :: rest)).
      { eapply Forall_impl; [exact Hin|]. intros [x q] Hx. unfold input_ok.
        simpl in *. destruct q; [specialize (Hx eq_refl); lia | exact I]. }
      apply Forall_cons in Hok as [Hn Hrest].
      apply returns_bind; [now apply (sweep_returns _ fuel)|].
      intros [entries1 il1] E. apply IHl.
      destruct (sweep_sound any_node any_node_similar (fun _ _ => I) _ fuel Hsound
                  _ _ _ _ _ _ _ Hn Hrest ltac:(constructor) E) as [H1 _].
      eapply Forall_impl; [exact H1|]. intros [x q]. unfold entry_ok. simpl.
      intros Hx ->. lia. }
    split; [|exact Hl].
    intros n il Hn.
    destruct n as [e lc tc seen | sp src lc tc | l b lc tc | t fs lc tc];
      cbn [descend]; simpl in Hn.
    + apply returns_bind.
      * apply (visit_body_returns _ fuel); [exact IHd | destruct seen; lia].
      * intros [d il1] _. exact I.
    + apply returns_bind.
      * apply IHl. unfold pending. apply Forall_map, Forall_forall.
        intros x Hx _. simpl.
        assert (depth x <= list_max (map depth sp)); [|lia].
        pose proof (list_max_le (map depth sp) (list_max (map depth sp))) as [Hle _].
        specialize (Hle (Nat.le_refl _)). rewrite List.Forall_forall in Hle.
        apply Hle, in_map, list_elem_of_In, Hx.
      * intros [sp1 il1] _. exact I.
    + apply returns_bind.
      * apply (visit_child_returns _ fuel); [exact IHd | lia].
      * intros [l1 il1] _. apply returns_bind.
        -- apply (visit_body_returns _ fuel); [exact IHd | lia].
        -- intros [d il2] _. exact I.
    + apply returns_bind.
      * apply (visit_fields_returns _ _ t (fuel - 1)); [| |lia].
        -- intros pos c il0 Hc. apply (visit_child_returns _ fuel); [exact IHd | lia].
        -- intros cs il0 Hcs. apply IHl. unfold pending.
           apply Forall_map, Forall_forall. intros x Hx _. simpl.
           assert (depth x <= list_max (map depth cs)); [|lia].
           pose proof (list_max_le (map depth cs) (list_max (map depth cs))) as [Hle _].
           specialize (Hle (Nat.le_refl _)). rewrite List.Forall_forall in Hle.
           apply Hle, in_map, list_elem_of_In, Hx.
      * intros [fs1 il1] _. exact I.
Qed.

(** *** A tree on which [enter] has nothing to do *)

Lemma settled_enter (n : node) : settled n = true -> enter n = Ok NoAction.
Proof.
  destruct n as [e lc tc seen | | |]; try reflexivity; [|discriminate].
  cbn [settled]. intros H. apply andb_true_iff in H as [H _].
  destruct seen; [apply enter_seen|]. simpl in H.
  apply negb_true_iff, bool_decide_eq_false in H.
  destruct (findAssertion (ExpressionStatement e lc tc false)) as [a|] eqn:Hf.
  - exfalso. apply H. now exists a.
  - now rewrite (enter_plain _ Hf).
Qed.

Lemma sweep_settled (rec : traversal) (il : list node) :
  forall rest done n,
    Forall (fun m => enter m = Ok NoAction /\ rec m il = Ok (Stays m, il)) (n :: rest) ->
    sweep rec done n true (pending rest) il
    = Ok (rev done ++ map (fun m => (m, false)) (n :: rest), il).
Proof.
  induction rest as [|x rest IH]; intros done n H;
    apply Forall_cons in H as [[Hn Hr] H]; cbn [sweep pending map];
    unfold visit_in_list; rewrite Hn; cbn [mbind outcome_bind];
    rewrite Hr; cbn [mbind outcome_bind].
  - reflexivity.
  - cbn [next_sibling default]. fold (pending rest). rewrite (IH _ _ H).
    cbn [rev map]. now rewrite <- app_assoc.
Qed.

Lemma visit_list_idle (fuel : nat) (cs il : list node) :
  visit_list fuel (map (fun m => (m, false)) cs) il = Ok (cs, il).
Proof.
  destruct cs as [|c cs]; [now destruct fuel|].
  assert (H : existsb snd (map (fun m : node => (m, false)) (c :: cs)) = false).
  { generalize (c :: cs). intros l. induction l; simpl; auto. }
  assert (Hm : map fst (map (fun m : node => (m, false)) (c :: cs)) = c :: cs).
  { rewrite map_map. apply map_id. }
  destruct fuel; cbn [visit_list map]; cbn [map] in H; rewrite H; cbn [map] in Hm;
    now rewrite Hm.
Qed.

Lemma visit_fields_settled
    (visit_one : position -> node -> list node -> outcome (node * list node))
    (visit_many : list node -> list node -> outcome (list node * list node))
    (t : node_type) (il : list node) (fs : list (field node)) :
  Forall (fun f =>
            match f with
            | Single key c => visit_one (position_of t key) c il = Ok (c, il)
            | Multiple _ cs => visit_many cs il = Ok (cs, il)
            end) fs ->
  visit_fields visit_one visit_many t fs il = Ok (fs, il).
Proof.
  induction 1 as [|[key c | key cs] fs Hf _ IH]; cbn [visit_fields];
    [reflexivity| |]; rewrite Hf; cbn [mbind outcome_bind]; now rewrite IH.
Qed.

Lemma list_max_elem (l : list nat) (x : nat) : x ∈ l -> x <= list_max l.
Proof.
  intros H. pose proof (list_max_le l (list_max l)) as [Hle _].
  specialize (Hle (Nat.le_refl _)). rewrite List.Forall_forall in Hle.
  now apply Hle, list_elem_of_In.
Qed.

(** With enough fuel the traversal leaves a settled tree as it is and
    finds no import. *)
Lemma settled_fixed (fuel : nat) :
  (forall n il, settled n = true -> depth n <= fuel ->
                descend fuel n il = Ok (Stays n, il)) /\
  (forall cs il, forallb settled cs = true -> list_max (map depth cs) < fuel ->
                 visit_list fuel (pending cs) il = Ok (cs, il)).
Proof.
  induction fuel as [|fuel [IHd IHl]].
  - split; [intros n il _ Hn; pose proof (depth_pos n); lia | intros; lia].
  - assert (Hchild : forall pos c il,
              settled c = true -> depth c <= fuel ->
              visit_child (descend fuel) pos c il = Ok (c, il)).
    { intros pos c il Hs Hc. unfold visit_child.
      rewrite (settled_enter c Hs). cbn [mbind outcome_bind].
      now rewrite (IHd c il Hs Hc). }
    assert (Hbody : forall c il,
              settled c = true -> depth c <= fuel ->
              visit_body (descend fuel) c il = Ok (Stays c, il)).
    { intros c il Hs Hc. unfold visit_body.
      rewrite (settled_enter c Hs). cbn [mbind outcome_bind].
      now apply IHd. }
    split.
    + intros n il Hs Hn.
      destruct n as [e lc tc seen | sp src lc tc | l b lc tc | t fs lc tc];
        cbn [descend]; cbn [settled] in Hs; cbn [depth] in Hn; [| discriminate | |].
      * apply andb_true_iff in Hs as [_ Hs].
        rewrite Hbody; [reflexivity | exact Hs | destruct seen; lia].
      * apply andb_true_iff in Hs as [Hl Hb].
        rewrite Hchild by (auto; lia). cbn [mbind outcome_bind].
        rewrite Hbody by (auto; lia). reflexivity.
      * rewrite visit_fields_settled; [reflexivity|].
        apply Forall_forall. intros f Hf.
        apply Forall_forallb in Hs. rewrite Forall_forall in Hs.
        specialize (Hs f Hf).
        assert (Hd : match f with
                     | Single _ c => depth c
                     | Multiple _ cs => list_max (map depth cs)
                     end + 2 <= S fuel).
        { assert (match f with
                  | Single _ c => depth c
                  | Multiple _ cs => list_max (map depth cs)
                  end <= list_max
                           (map (fun f : field node =>
                                   match f with
                                   | Single _ c => depth c
                                   | Multiple _ cs => list_max (map depth cs)
                                   end) fs)); [|lia].
          apply list_max_elem. apply list_elem_of_In, in_map_iff.
          exists f. split; [reflexivity | now apply list_elem_of_In]. }
        destruct f as [key c | key cs]; [apply Hchild; [exact Hs | lia]|].
        apply IHl; [exact Hs | lia].
    + intros [|c cs] il Hs Hd; [reflexivity|].
      cbn [visit_list pending map existsb snd orb].
      fold (pending cs).
      rewrite (sweep_settled (descend fuel) il cs [] c).
      * cbn [mbind outcome_bind rev app]. apply visit_list_idle.
      * apply Forall_forall. intros m Hm.
        apply Forall_forallb in Hs. rewrite Forall_forall in Hs.
        specialize (Hs m Hm). split; [now apply settled_enter|].
        apply IHd; [exact Hs|].
        assert (depth m <= list_max (map depth (c :: cs))); [|lia].
        apply list_max_elem. apply list_elem_of_In, in_map, list_elem_of_In, Hm.
Qed.

(** *** [traverse] *)

Lemma traverse_returns (crawl : node -> option exn) (root : node) (il : list node) :
  returns (traverse crawl root il).
Proof.
  unfold traverse.
  assert (H : returns
                (match crawl root with
                 | Some e => Throw e
                 | None =>
                     '(d, importList) ← descend (depth root) root il;
                     Ok (kept d root, importList)
                 end)).
  { destruct (crawl root); [exact I|]. apply returns_bind.
    - now apply (fuel_enough (depth root)).
    - intros [d il1] _. exact I. }
  destruct root as [| | |[] fs lc tc]; try exact I; exact H.
Qed.

Lemma traverse_inv (crawl : node -> option exn) (root : node) (il : list node)
    (root' : node) (il' : list node) :
  traverse crawl root il = Ok (root', il') ->
  crawl root = None /\ statement_parent root = false /\
  isImportDeclaration root = false /\
  exists d, descend (depth root) root il = Ok (d, il') /\ root' = kept d root.
Proof.
  unfold traverse. intros H.
  assert (Hb : match crawl root with
               | Some e => Throw e
               | None =>
                   '(d, importList) ← descend (depth root) root il;
                   Ok (kept d root, importList)
               end = Ok (root', il') ->
               crawl root = None /\
               exists d, descend (depth root) root il = Ok (d, il') /\
                         root' = kept d root).
  { destruct (crawl root); [discriminate|]. intros Hd. split; [reflexivity|].
    ok_bind Hd E. destruct a as [d il1]. injection Hd as <- <-. now exists d. }
  destruct root as [| | |[] fs lc tc]; try discriminate;
    destruct (Hb H) as [Hc Hd]; auto.
Qed.

(** What [traverse] returns holds no import declaration, and the import
    list has grown by import declarations. *)
Lemma traverse_sound (crawl : node -> option exn) (root : node) (il : list node)
    (root' : node) (il' : list node) :
  traverse crawl root il = Ok (root', il') ->
  import_free root' = true /\ extends il il'.
Proof.
  intros H. apply traverse_inv in H as (_ & Hsp & Hni & d & Hd & ->).
  destruct (descend_visit_list_sound (depth root)) as [Hsound _].
  destruct (Hsound _ _ _ _ Hd) as [He Hk]. split; [|exact He].
  destruct d as [n'|after]; simpl; [now apply Hk|].
  destruct Hk as [Hk _]. congruence.
Qed.

Lemma traverse_settled (crawl : node -> option exn) (t : node_type)
    (fs : list (field node)) (lc tc : comments) (il : list node) :
  t = File \/ t = Program ->
  crawl (Node t fs lc tc) = None ->
  settled (Node t fs lc tc) = true ->
  traverse crawl (Node t fs lc tc) il = Ok (Node t fs lc tc, il).
Proof.
  intros Ht Hc Hs. unfold traverse. rewrite Hc.
  destruct (settled_fixed (depth (Node t fs lc tc))) as [Hd _].
  rewrite (Hd _ il Hs (Nat.le_refl _)).
  now destruct Ht as [-> | ->].
Qed.

(** *** No import is lost *)

Lemma list_sum_cons (x : nat) (l : list nat) : list_sum (x :: l) = x + list_sum l.
Proof. reflexivity. Qed.

Lemma similar_imports_in (a b : node) : similar a b -> imports_in a = imports_in b.
Proof.
  unfold similar. destruct a, b; simpl; intros [= ]; subst; reflexivity.
Qed.

Lemma import_free_imports_in (n : node) : import_free n = true -> imports_in n = 0.
Proof.
  induction n as [e lc tc seen IH | sp src lc tc _ | l b lc tc IHl IHb | t fs lc tc IH]
    using node_ind; cbn [import_free imports_in]; intros H.
  - auto.
  - discriminate.
  - apply andb_true_iff in H as [Hl Hb]. rewrite IHl, IHb; auto.
  - induction IH as [|f fs Hf _ IHfs]; [reflexivity|].
    cbn [forallb map] in *. rewrite list_sum_cons. apply andb_true_iff in H as [Hc H].
    rewrite (IHfs H), Nat.add_0_r. destruct f as [key c | key cs]; [auto|].
    clear IHfs H. induction Hf as [|c cs Hc' _ IHcs]; [reflexivity|].
    cbn [forallb map] in *. rewrite list_sum_cons. apply andb_true_iff in Hc as [Hc1 Hc2].
    rewrite (Hc' Hc1), (IHcs Hc2). reflexivity.
Qed.

Lemma import_free_list_imports (cs : list node) :
  forallb import_free cs = true -> list_sum (map imports_in cs) = 0.
Proof.
  induction cs as [|c cs IH]; [reflexivity|]. cbn [forallb map]. rewrite list_sum_cons.
  intros H. apply andb_true_iff in H as [Hc H].
  now rewrite (import_free_imports_in c Hc), IH.
Qed.

Lemma enter_replace_imports (n r : node) :
  enter n = Ok (ReplaceWithMultiple r) ->
  imports_in (inheritsComments r n) = imports_in n.
Proof.
  intros H. rewrite (similar_imports_in _ _ (similar_inheritsComments r n)).
  apply enter_replace_inv in H as (e & lc & c & rest & -> & H).
  destruct H as [(text & _ & ->) | (name & text & _ & _ & ->)];
    cbn; lia.
Qed.

Lemma enter_remove_imports (n : node) :
  enter n = Ok PushAndRemove -> imports_in n = 1.
Proof. intros H%enter_remove_inv. now destruct n. Qed.

Lemma imports_queued_cons (x : node) (q : bool) (rest : list entry) :
  imports_queued ((x, q) :: rest) = imports_in x + imports_queued rest.
Proof. reflexivity. Qed.

Lemma imports_queued_app (a b : list entry) :
  imports_queued (a ++ b) = imports_queued a + imports_queued b.
Proof. unfold imports_queued. now rewrite map_app, list_sum_app. Qed.

Lemma imports_queued_rev (a : list entry) : imports_queued (rev a) = imports_queued a.
Proof.
  induction a as [|e a IH]; [reflexivity|]. cbn [rev].
  rewrite imports_queued_app, IH. unfold imports_queued. simpl. lia.
Qed.

Lemma imports_queued_similar (a b : list entry) :
  Forall2 similar_entry a b -> imports_queued a = imports_queued b.
Proof.
  induction 1 as [|x y a b [Hxy _] _ IH]; [reflexivity|].
  unfold imports_queued in *. cbn [map]. rewrite !list_sum_cons.
  now rewrite (similar_imports_in _ _ Hxy), IH.
Qed.

Lemma imports_queued_after (after after' : list node) :
  Forall2 similar after after' ->
  imports_queued (queued after') = list_sum (map imports_in after).
Proof.
  induction 1 as [|x y a b Hxy _ IH]; [reflexivity|].
  unfold imports_queued, queued in *. cbn [map fst]. rewrite !list_sum_cons.
  now rewrite (similar_imports_in _ _ Hxy), IH.
Qed.

Lemma imports_queued_idle (cs : list node) :
  imports_queued (map (fun c => (c, true)) cs) = list_sum (map imports_in cs).
Proof. unfold imports_queued. rewrite map_map. reflexivity. Qed.

Lemma imports_queued_fst (entries : list entry) :
  list_sum (map imports_in (map fst entries)) = imports_queued entries.
Proof. unfold imports_queued. now rewrite map_map. Qed.

Lemma visit_body_census (rec : traversal) (c : node) (il : list node)
    (d : descended) (il' : list node) :
  census rec ->
  visit_body rec c il = Ok (d, il') ->
  length il' +
  match d with
  | Stays _ => 0
  | Removed after => list_sum (map imports_in after)
  end
  = length il + imports_in c.
Proof.
  intros Hrec H. unfold visit_body in H.
  destruct (enter_total c) as [a Ha]. rewrite Ha in H. cbn [mbind outcome_bind] in H.
  destruct a as [r| |].
  - injection H as <- <-. cbn [map]. rewrite list_sum_cons.
    rewrite (enter_replace_imports c r Ha). simpl. lia.
  - injection H as <- <-. rewrite length_app, (enter_remove_imports c Ha). simpl. lia.
  - apply (Hrec _ _ _ _ H). now apply enter_no_action_inv.
Qed.

Lemma visit_child_census (rec : traversal) (pos : position) (c : node)
    (il : list node) (c' : node) (il' : list node) :
  sound rec -> census rec ->
  visit_child rec pos c il = Ok (c', il') ->
  length il' = length il + imports_in c.
Proof.
  intros Hsound Hrec H. unfold visit_child in H.
  destruct (enter_total c) as [a Ha]. rewrite Ha in H. cbn [mbind outcome_bind] in H.
  destruct a as [r| |].
  - assert (Hb : ('(d, importList) ← rec (blockStatement [inheritsComments r c]) il;
                  Ok (kept d (blockStatement [inheritsComments r c]), importList))
                 = Ok (c', il') ->
                 length il' = length il + imports_in c).
    { intros Hb. ok_bind Hb E. destruct a as [d il1]. injection Hb as <- <-.
      pose proof (Hrec _ _ _ _ E eq_refl) as Hc.
      destruct (Hsound _ _ _ _ E) as [_ Hd].
      destruct d as [b'|after]; [|destruct Hd; discriminate].
      cbn in Hc. rewrite (enter_replace_imports c r Ha) in Hc. lia. }
    destruct pos; try discriminate; exact (Hb H).
  - destruct pos; try discriminate. injection H as <- <-.
    rewrite length_app, (enter_remove_imports c Ha). simpl. lia.
  - ok_bind H E. destruct a as [d il1].
    pose proof (Hrec _ _ _ _ E (enter_no_action_inv c Ha)) as Hc.
    destruct d as [c1|[|r after]].
    + injection H as <- <-. lia.
    + destruct pos; try discriminate. injection H as <- <-. simpl in Hc. lia.
    + destruct pos; discriminate.
Qed.

Lemma visit_fields_census
    (visit_one : position -> node -> list node -> outcome (node * list node))
    (visit_many : list node -> list node -> outcome (list node * list node))
    (t : node_type) :
  (forall pos c il c' il',
     visit_one pos c il = Ok (c', il') -> length il' = length il + imports_in c) ->
  (forall cs il cs' il',
     visit_many cs il = Ok (cs', il') ->
     length il' = length il + list_sum (map imports_in cs)) ->
  forall fs il fs' il' lc tc,
    visit_fields visit_one visit_many t fs il = Ok (fs', il') ->
    length il' = length il + imports_in (Node t fs lc tc).
Proof.
  intros Hone Hmany. induction fs as [|[key c | key cs] fs IH];
    intros il fs' il' lc tc H; cbn [visit_fields] in H.
  - injection H as <- <-. simpl. lia.
  - ok_bind H E1. destruct a as [c1 il1]. ok_bind H E2. destruct a as [fs1 il2].
    injection H as <- <-.
    pose proof (Hone _ _ _ _ _ E1). pose proof (IH _ _ _ lc tc E2).
    cbn [imports_in map] in *. rewrite list_sum_cons in *. lia.
  - ok_bind H E1. destruct a as [cs1 il1]. ok_bind H E2. destruct a as [fs1 il2].
    injection H as <- <-.
    pose proof (Hmany _ _ _ _ E1). pose proof (IH _ _ _ lc tc E2).
    cbn [imports_in map] in *. rewrite list_sum_cons in *. lia.
Qed.

Lemma remove_path_census (n : node) (done : list entry) (after : list node)
    (next : option node) (done' : list entry) (next' : option node) :
  remove_path n done after next = (done', next') ->
  imports_queued done' = imports_queued done + list_sum (map imports_in after).
Proof.
  intros H. apply remove_path_similar in H as (done1 & after1 & -> & Hd & Ha & _).
  rewrite imports_queued_app, imports_queued_rev,
    (imports_queued_after _ _ Ha), <- (imports_queued_similar _ _ Hd). lia.
Qed.

Lemma visit_in_list_census (rec : traversal) (done : list entry) (n : node)
    (next : option node) (il : list node)
    (done' : list entry) (next' : option node) (il' : list node) :
  sound rec -> census rec ->
  visit_in_list rec done n next il = Ok (done', next', il') ->
  length il' + imports_queued done'
  = length il + imports_queued done + imports_in n.
Proof.
  intros Hsound Hrec H. unfold visit_in_list in H.
  destruct (enter_total n) as [a Ha]. rewrite Ha in H. cbn [mbind outcome_bind] in H.
  destruct a as [r| |].
  - injection H as <- <- <-. unfold imports_queued. cbn [map fst]. rewrite list_sum_cons.
    rewrite (enter_replace_imports n r Ha). lia.
  - destruct (remove_path n done [] next) as [d1 n1] eqn:E.
    injection H as <- <- <-. apply remove_path_census in E.
    rewrite length_app, E, (enter_remove_imports n Ha). simpl. lia.
  - ok_bind H E. destruct a as [d il1].
    pose proof (Hrec _ _ _ _ E (enter_no_action_inv n Ha)) as Hc.
    destruct (Hsound _ _ _ _ E) as [_ Hd].
    destruct d as [n1|after].
    + injection H as <- <- <-. unfold imports_queued. cbn [map fst]. rewrite list_sum_cons.
      rewrite (import_free_imports_in n1 (Hd (enter_no_action_inv n Ha))).
      fold (imports_queued done). lia.
    + destruct (remove_path n done after next) as [d1 n1] eqn:E1.
      injection H as <- <- <-. apply remove_path_census in E1. lia.
Qed.

Lemma sweep_census (rec : traversal) :
  sound rec -> census rec ->
  forall rest done n flagged il entries' il',
    sweep rec done n flagged rest il = Ok (entries', il') ->
    length il' + imports_queued entries'
    = length il + imports_queued done + imports_in n + imports_queued rest.
Proof.
  intros Hsound Hrec. induction rest as [|[x q] rest IH];
    intros done n flagged il entries' il' H; cbn [sweep] in H.
  - ok_bind H E. destruct a as [[d1 n1] il1]. injection H as <- <-.
    rewrite imports_queued_rev. change (imports_queued []) with 0. destruct flagged.
    + pose proof (visit_in_list_census _ _ _ _ _ _ _ _ Hsound Hrec E). lia.
    + injection E as <- <- <-. rewrite imports_queued_cons. lia.
  - ok_bind H E. destruct a as [[d1 n1] il1].
    assert (Hstep : length il1 + imports_queued d1
                    = length il + imports_queued done + imports_in n /\
                    option_Forall2 similar (Some x) n1).
    { destruct flagged.
      - split; [exact (visit_in_list_census _ _ _ _ _ _ _ _ Hsound Hrec E)|].
        exact (visit_in_list_next _ _ _ _ _ _ _ _ E).
      - injection E as <- <- <-. split; [|constructor; apply similar_refl].
        rewrite imports_queued_cons. lia. }
    destruct Hstep as [H1 H2]. inversion H2 as [? x' Hxx'|]; subst. simpl in H.
    pose proof (IH _ _ _ _ _ _ H) as H3.
    rewrite <- (similar_imports_in _ _ Hxx') in H3.
    rewrite imports_queued_cons. lia.
Qed.

Lemma descend_visit_list_census (fuel : nat) :
  census (descend fuel) /\
  (forall entries il cs il',
     visit_list fuel entries il = Ok (cs, il') ->
     length il' + list_sum (map imports_in cs) = length il + imports_queued entries).
Proof.
  induction fuel as [|fuel [IHd IHl]].
  - split; [intros n il d il' H; discriminate H|].
    intros [|[n p] rest] il cs il' H; cbn [visit_list] in H.
    + now injection H as <- <-.
    + match type of H with
      | (if ?c then _ else _) = _ => destruct c eqn:Hex; [discriminate H|]
      end.
      injection H as <- <-. f_equal.
        apply (imports_queued_fst ((n, p) :: rest)).
  - destruct (descend_visit_list_sound fuel) as [Hsound Hsl].
    assert (Hl : forall entries il cs il',
              visit_list (S fuel) entries il = Ok (cs, il') ->
              length il' + list_sum (map imports_in cs)
              = length il + imports_queued entries).
    { intros [|[n p] rest] il cs il' H; cbn [visit_list] in H.
      - now injection H as <- <-.
      - match type of H with
        | (if ?c then _ else _) = _ => destruct c eqn:Hex
        end.
        + ok_bind H E. destruct a as [entries1 il1].
          pose proof (sweep_census _ Hsound IHd _ _ _ _ _ _ _ E) as H1.
          pose proof (IHl _ _ _ _ H) as H2.
          change (imports_queued []) with 0 in H1.
          rewrite imports_queued_cons. lia.
        + injection H as <- <-. f_equal.
        apply (imports_queued_fst ((n, p) :: rest)). }
    split; [|exact Hl].
    assert (Hmany : forall cs il cs' il',
              visit_list fuel (pending cs) il = Ok (cs', il') ->
              length il' = length il + list_sum (map imports_in cs)).
    { intros cs il0 cs' il0' Hv. pose proof (IHl _ _ _ _ Hv) as Hc.
      assert (Hin : Forall (fun e => snd e = false -> import_free (fst e) = true)
                      (pending cs)).
      { unfold pending. apply Forall_map, Forall_forall. intros x _. discriminate. }
      destruct (Hsl _ _ _ _ Hin Hv) as [Hfree _].
      rewrite (import_free_list_imports _ Hfree) in Hc.
      unfold pending in Hc. rewrite imports_queued_idle in Hc. lia. }
    intros n il d il' H Hni.
    destruct n as [e lc tc seen | sp src lc tc | l b lc tc | t fs lc tc];
      cbn [descend] in H; [| discriminate | |].
    + ok_bind H E. destruct a as [d1 il1]. injection H as <- <-.
      pose proof (visit_body_census _ _ _ _ _ IHd E) as Hc.
      now destruct d1.
    + ok_bind H E1. destruct a as [l1 il1]. ok_bind H E2. destruct a as [d1 il2].
      injection H as <- <-.
      pose proof (visit_child_census _ _ _ _ _ _ Hsound IHd E1) as H1.
      pose proof (visit_body_census _ _ _ _ _ IHd E2) as H2.
      cbn [imports_in]. destruct d1; lia.
    + ok_bind H E. destruct a as [fs1 il1]. injection H as <- <-.
      pose proof (visit_fields_census _ _ t
                    (fun pos c il c' il' =>
                       visit_child_census _ pos c il c' il' Hsound IHd)
                    Hmany _ _ _ _ lc tc E) as Hc.
      lia.
Qed.

(** [traverse] adds to the import list as many nodes as the tree holds
    import declarations. *)
Lemma traverse_census (crawl : node -> option exn) (root : node) (il : list node)
    (root' : node) (il' : list node) :
  traverse crawl root il = Ok (root', il') ->
  length il' = length il + imports_in root.
Proof.
  intros H. apply traverse_inv in H as (_ & Hsp & Hni & d & Hd & ->).
  destruct (descend_visit_list_census (depth root)) as [Hc _].
  destruct (descend_visit_list_sound (depth root)) as [Hsound _].
  pose proof (Hc _ _ _ _ Hd Hni) as H.
  destruct (Hsound _ _ _ _ Hd) as [_ Hk].
  destruct d as [n'|after]; [lia|]. destruct Hk as [Hk _]. congruence.
Qed.
(** *** Imports are found in the order of the text *)

Lemma removeComments_idem (n : node) :
  removeComments (removeComments n) = removeComments n.
Proof. now destruct n. Qed.

Lemma similar_statements_import_free (a b : node) :
  similar a b -> statements_import_free a = statements_import_free b.
Proof.
  unfold similar. destruct a, b; simpl; intros [= ]; subst; reflexivity.
Qed.

Lemma similar_imports_of (a b : node) :
  similar a b ->
  map removeComments (imports_of a) = map removeComments (imports_of b).
Proof.
  unfold similar. destruct a, b; simpl; intros [= ]; subst; reflexivity.
Qed.

Lemma import_free_ready (n : node) :
  import_free n = true -> statements_import_free n = true /\ imports_of n = [].
Proof.
  induction n as [e lc tc seen IH | sp src lc tc _ | l b lc tc IHl IHb | t fs lc tc IH]
    using node_ind; cbn [import_free statements_import_free imports_of]; intros H.
  - split; [exact H | now apply IH].
  - discriminate.
  - apply andb_true_iff in H as [Hl Hb].
    destruct (IHl Hl) as [-> ->], (IHb Hb) as [-> ->]. now split.
  - induction IH as [|f fs Hf _ IHfs]; [now split|].
    cbn [forallb flat_map] in *. apply andb_true_iff in H as [Hc H].
    destruct (IHfs H) as [-> ->]. rewrite app_nil_r, andb_true_r.
    destruct f as [key c | key cs]; [now apply Hf|].
    clear IHfs H. induction Hf as [|c cs Hc' _ IHcs]; [now split|].
    cbn [forallb flat_map] in *. apply andb_true_iff in Hc as [Hc1 Hc2].
    destruct (Hc' Hc1) as [-> ->], (IHcs Hc2) as [-> ->]. now split.
Qed.

Lemma enter_replace_ready (n r : node) :
  enter n = Ok (ReplaceWithMultiple r) ->
  statements_import_free n = true ->
  import_free (inheritsComments r n) = true /\ imports_of n = [].
Proof.
  intros H Hn. rewrite import_free_inherits.
  apply enter_replace_inv in H as (e & lc & c & rest & -> & H).
  cbn [statements_import_free imports_of] in *.
  destruct (import_free_ready e Hn) as [_ ->].
  destruct H as [(text & _ & ->) | (name & text & _ & _ & ->)];
    cbn; rewrite Hn; now split.
Qed.

Lemma enter_remove_imports_of (n : node) :
  enter n = Ok PushAndRemove -> imports_of n = [n].
Proof. intros H%enter_remove_inv. now destruct n. Qed.

Lemma hoisted_none (n : node) (il : list node) :
  imports_of n = [] -> hoisted_in_order n il il.
Proof. intros H. exists []. rewrite H, app_nil_r. now split. Qed.

Lemma hoisted_one (n i : node) (il : list node) :
  map removeComments (imports_of n) = [removeComments i] ->
  hoisted_in_order n il (il ++ [i]).
Proof. intros H. exists [i]. now rewrite H. Qed.

Lemma visit_body_ordered (rec : traversal) (c : node) (il : list node)
    (d : descended) (il' : list node) :
  ordered rec ->
  statements_import_free c = true ->
  visit_body rec c il = Ok (d, il') ->
  hoisted_in_order c il il' /\
  match d with
  | Stays _ => True
  | Removed after => Forall (fun r => import_free r = true) after
  end.
Proof.
  intros Hrec Hc H. unfold visit_body in H.
  destruct (enter_total c) as [a Ha]. rewrite Ha in H. cbn [mbind outcome_bind] in H.
  destruct a as [r| |].
  - injection H as <- <-. destruct (enter_replace_ready c r Ha Hc) as [Hf Hi].
    split; [now apply hoisted_none | now constructor].
  - injection H as <- <-. split; [|constructor].
    apply hoisted_one. now rewrite (enter_remove_imports_of c Ha).
  - apply (Hrec _ _ _ _ H); [now apply enter_no_action_inv | exact Hc].
Qed.

Lemma visit_child_ordered (rec : traversal) (pos : position) (c : node)
    (il : list node) (c' : node) (il' : list node) :
  ordered rec ->
  statements_import_free c = true ->
  visit_child rec pos c il = Ok (c', il') ->
  hoisted_in_order c il il'.
Proof.
  intros Hrec Hc H. unfold visit_child in H.
  destruct (enter_total c) as [a Ha]. rewrite Ha in H. cbn [mbind outcome_bind] in H.
  destruct a as [r| |].
  - assert (Hb : ('(d, importList) ← rec (blockStatement [inheritsComments r c]) il;
                  Ok (kept d (blockStatement [inheritsComments r c]), importList))
                 = Ok (c', il') ->
                 hoisted_in_order c il il').
    { intros Hb. ok_bind Hb E. destruct a as [d il1]. injection Hb as <- <-.
      destruct (enter_replace_ready c r Ha Hc) as [Hf Hi].
      destruct (import_free_ready _ Hf) as [Hs Hn].
      assert (Hblock : statements_import_free (blockStatement [inheritsComments r c])
                       = true) by (cbn; now rewrite Hs).
      destruct (Hrec _ _ _ _ E eq_refl Hblock) as [(found & -> & Hfound) _].
      exists found. split; [reflexivity|]. rewrite Hfound, Hi. cbn.
      now rewrite Hn. }
    destruct pos; try discriminate; exact (Hb H).
  - destruct pos; try discriminate. injection H as <- <-.
    apply hoisted_one. rewrite (enter_remove_imports_of c Ha). cbn [map].
    now rewrite removeComments_idem.
  - ok_bind H E. destruct a as [d il1].
    destruct (Hrec _ _ _ _ E (enter_no_action_inv c Ha) Hc) as [Hh _].
    destruct d as [c1|[|r after]].
    + now injection H as <- <-.
    + destruct pos; try discriminate. now injection H as <- <-.
    + destruct pos; discriminate.
Qed.

Lemma hoisted_app (found1 found2 : list node) (l1 l2 : list node) :
  map removeComments found1 = map removeComments l1 ->
  map removeComments found2 = map removeComments l2 ->
  map removeComments (found1 ++ found2) = map removeComments (l1 ++ l2).
Proof. intros H1 H2. now rewrite !map_app, H1, H2. Qed.

Lemma visit_fields_ordered
    (visit_one : position -> node -> list node -> outcome (node * list node))
    (visit_many : list node -> list node -> outcome (list node * list node))
    (t : node_type) :
  (forall pos c il c' il',
     statements_import_free c = true ->
     visit_one pos c il = Ok (c', il') -> hoisted_in_order c il il') ->
  (forall cs il cs' il',
     forallb statements_import_free cs = true ->
     visit_many cs il = Ok (cs', il') ->
     exists found,
       il' = il ++ found /\
       map removeComments found = map removeComments (flat_map imports_of cs)) ->
  forall fs il fs' il' lc tc,
    statements_import_free (Node t fs lc tc) = true ->
    visit_fields visit_one visit_many t fs il = Ok (fs', il') ->
    hoisted_in_order (Node t fs lc tc) il il'.
Proof.
  intros Hone Hmany. induction fs as [|[key c | key cs] fs IH];
    intros il fs' il' lc tc Hs H; cbn [visit_fields] in H;
    cbn [statements_import_free forallb] in Hs.
  - injection H as <- <-. now apply hoisted_none.
  - apply andb_true_iff in Hs as [Hc Hs].
    ok_bind H E1. destruct a as [c1 il1]. ok_bind H E2. destruct a as [fs1 il2].
    injection H as <- <-.
    destruct (Hone _ _ _ _ _ Hc E1) as (f1 & -> & Hf1).
    destruct (IH _ _ _ lc tc Hs E2) as (f2 & -> & Hf2).
    exists (f1 ++ f2). split; [now rewrite app_assoc|].
    cbn [imports_of flat_map] in *. now apply hoisted_app.
  - apply andb_true_iff in Hs as [Hc Hs].
    ok_bind H E1. destruct a as [cs1 il1]. ok_bind H E2. destruct a as [fs1 il2].
    injection H as <- <-.
    destruct (Hmany _ _ _ _ Hc E1) as (f1 & -> & Hf1).
    destruct (IH _ _ _ lc tc Hs E2) as (f2 & -> & Hf2).
    exists (f1 ++ f2). split; [now rewrite app_assoc|].
    cbn [imports_of flat_map] in *. now apply hoisted_app.
Qed.

Lemma remove_path_free (n : node) (done : list entry) (after : list node)
    (next : option node) (done' : list entry) (next' : option node) :
  Forall (fun e => import_free (fst e) = true) done ->
  Forall (fun r => import_free r = true) after ->
  remove_path n done after next = (done', next') ->
  Forall (fun e => import_free (fst e) = true) done'.
Proof.
  intros Hdone Hafter H.
  apply remove_path_similar in H as (done1 & after1 & -> & Hd & Ha & _).
  apply Forall_app. split.
  - apply Forall_rev. unfold queued. apply Forall_map. simpl.
    clear Hd. induction Ha as [|x y l l' Hxy _ IH]; [constructor|].
    apply Forall_cons in Hafter as [Hx Hl]. constructor; [|now apply IH].
    now rewrite <- (similar_import_free _ _ Hxy).
  - clear Ha. induction Hd as [|x y l l' [Hxy _] _ IH]; [constructor|].
    apply Forall_cons in Hdone as [Hx Hl]. constructor; [|now apply IH].
    now rewrite <- (similar_import_free _ _ Hxy).
Qed.

Lemma visit_in_list_ordered (rec : traversal) (done : list entry) (n : node)
    (next : option node) (il : list node)
    (done' : list entry) (next' : option node) (il' : list node) :
  sound rec -> ordered rec ->
  statements_import_free n = true ->
  Forall (fun e => import_free (fst e) = true) done ->
  visit_in_list rec done n next il = Ok (done', next', il') ->
  hoisted_in_order n il il' /\
  Forall (fun e => import_free (fst e) = true) done'.
Proof.
  intros Hsound Hrec Hn Hdone H. unfold visit_in_list in H.
  destruct (enter_total n) as [a Ha]. rewrite Ha in H. cbn [mbind outcome_bind] in H.
  destruct a as [r| |].
  - injection H as <- <- <-. destruct (enter_replace_ready n r Ha Hn) as [Hf Hi].
    split; [now apply hoisted_none | now constructor].
  - destruct (remove_path n done [] next) as [d1 n1] eqn:E.
    injection H as <- <- <-. split.
    + apply hoisted_one. now rewrite (enter_remove_imports_of n Ha).
    + exact (remove_path_free _ _ _ _ _ _ Hdone ltac:(constructor) E).
  - ok_bind H E. destruct a as [d il1].
    destruct (Hrec _ _ _ _ E (enter_no_action_inv n Ha) Hn) as [Hh Hd].
    destruct (Hsound _ _ _ _ E) as [_ Hs].
    destruct d as [n1|after].
    + injection H as <- <- <-. split; [exact Hh|].
      constructor; [|exact Hdone]. simpl. now apply Hs, enter_no_action_inv.
    + destruct (remove_path n done after next) as [d1 n1] eqn:E1.
      injection H as <- <- <-. split; [exact Hh|].
      exact (remove_path_free _ _ _ _ _ _ Hdone Hd E1).
Qed.

Lemma similar_entry_ready (a b : node) (q : bool) :
  similar a b -> entry_ready (a, q) -> entry_ready (b, q).
Proof.
  intros H. unfold entry_ready. simpl.
  now rewrite (similar_statements_import_free _ _ H), (similar_import_free _ _ H).
Qed.

Lemma free_entries_none (entries : list entry) :
  Forall (fun e => import_free (fst e) = true) entries ->
  flat_map (fun e => imports_of (fst e)) entries = [].
Proof.
  induction 1 as [|e l He _ IH]; [reflexivity|]. cbn [flat_map].
  destruct (import_free_ready _ He) as [_ ->]. exact IH.
Qed.

Lemma free_entries_ready (entries : list entry) :
  Forall (fun e => import_free (fst e) = true) entries ->
  Forall entry_ready entries.
Proof.
  intros Hfree. eapply Forall_impl; [exact Hfree|].
  intros [x q] H. unfold entry_ready. simpl in *.
  destruct q; [now apply import_free_ready | exact H].
Qed.

Lemma sweep_ordered (rec : traversal) :
  sound rec -> ordered rec ->
  forall rest done n flagged il entries' il',
    entry_ready (n, flagged) ->
    Forall entry_ready rest ->
    Forall (fun e => import_free (fst e) = true) done ->
    sweep rec done n flagged rest il = Ok (entries', il') ->
    (exists found,
       il' = il ++ found /\
       map removeComments found
       = map removeComments
           (imports_of n ++ flat_map (fun e => imports_of (fst e)) rest)) /\
    Forall (fun e => import_free (fst e) = true) entries'.
Proof.
  intros Hsound Hrec. induction rest as [|[x q] rest IH];
    intros done n flagged il entries' il' Hn Hrest Hdone H; cbn [sweep] in H.
  - ok_bind H E. destruct a as [[d1 n1] il1]. injection H as <- <-.
    cbn [flat_map]. rewrite app_nil_r. destruct flagged.
    + destruct (visit_in_list_ordered _ _ _ _ _ _ _ _ Hsound Hrec Hn Hdone E)
        as [Hh Hd].
      split; [exact Hh | now apply Forall_rev].
    + injection E as <- <- <-. unfold entry_ready in Hn. simpl in Hn. split.
      * apply hoisted_none. now apply import_free_ready.
      * apply Forall_rev. now constructor.
  - ok_bind H E. destruct a as [[d1 n1] il1].
    apply Forall_cons in Hrest as [Hx Hrest].
    assert (Hstep : hoisted_in_order n il il1 /\
                    Forall (fun e => import_free (fst e) = true) d1 /\
                    option_Forall2 similar (Some x) n1).
    { destruct flagged.
      - destruct (visit_in_list_ordered _ _ _ _ _ _ _ _ Hsound Hrec Hn Hdone E)
          as [Hh Hd].
        split; [exact Hh|]. split; [exact Hd|].
        exact (visit_in_list_next _ _ _ _ _ _ _ _ E).
      - injection E as <- <- <-. unfold entry_ready in Hn. simpl in Hn.
        split; [apply hoisted_none; now apply import_free_ready|].
        split; [now constructor | constructor; apply similar_refl]. }
    destruct Hstep as ((f1 & -> & Hf1) & Hd1 & H2).
    inversion H2 as [? x' Hxx'|]; subst. simpl in H.
    destruct (IH _ _ _ _ _ _ (similar_entry_ready x x' q Hxx' Hx) Hrest Hd1 H)
      as [(f2 & -> & Hf2) Hfree].
    split; [|exact Hfree]. exists (f1 ++ f2). split; [now rewrite app_assoc|].
    cbn [flat_map fst]. rewrite !map_app in *.
    now rewrite Hf1, Hf2, (similar_imports_of _ _ Hxx').
Qed.

Lemma descend_visit_list_ordered (fuel : nat) :
  ordered (descend fuel) /\
  (forall entries il cs il',
     Forall entry_ready entries ->
     visit_list fuel entries il = Ok (cs, il') ->
     exists found,
       il' = il ++ found /\
       map removeComments found
       = map removeComments (flat_map (fun e => imports_of (fst e)) entries)).
Proof.
  assert (Hidle : forall entries : list entry, forall il : list node,
            Forall entry_ready entries ->
            existsb snd entries = false ->
            exists found,
              il = il ++ found /\
              map removeComments found
              = map removeComments (flat_map (fun e => imports_of (fst e)) entries)).
  { intros entries il Hr Hex. exists []. rewrite app_nil_r. split; [reflexivity|].
    rewrite free_entries_none; [reflexivity|].
    apply existsb_snd_false in Hex.
    eapply Forall_impl; [apply Forall_and; split; [exact Hr | exact Hex]|].
    intros [x q] [H1 H2]. simpl in *. subst q. exact H1. }
  induction fuel as [|fuel [IHd IHl]].
  - split; [intros n il d il' H; discriminate H|].
    intros [|[n p] rest] il cs il' Hr H; cbn [visit_list] in H.
    + injection H as <- <-. exists []. now rewrite app_nil_r.
    + match type of H with
      | (if ?c then _ else _) = _ => destruct c eqn:Hex; [discriminate H|]
      end.
      injection H as <- <-. now apply Hidle.
  - destruct (descend_visit_list_sound fuel) as [Hsound _].
    assert (Hl : forall entries il cs il',
              Forall entry_ready entries ->
              visit_list (S fuel) entries il = Ok (cs, il') ->
              exists found,
                il' = il ++ found /\
                map removeComments found
                = map removeComments
                    (flat_map (fun e => imports_of (fst e)) entries)).
    { intros [|[n p] rest] il cs il' Hr H; cbn [visit_list] in H.
      - injection H as <- <-. exists []. now rewrite app_nil_r.
      - match type of H with
        | (if ?c then _ else _) = _ => destruct c eqn:Hex
        end.
        + ok_bind H E. destruct a as [entries1 il1].
          apply Forall_cons in Hr as [Hn Hrest].
          destruct (sweep_ordered _ Hsound IHd _ _ _ _ _ _ _ Hn Hrest
                      ltac:(constructor) E) as [(f1 & -> & Hf1) Hfree].
          destruct (IHl _ _ _ _ (free_entries_ready _ Hfree) H) as (f2 & -> & Hf2).
          rewrite (free_entries_none _ Hfree) in Hf2.
          apply map_eq_nil in Hf2 as ->. exists f1. rewrite app_nil_r.
          split; [reflexivity | exact Hf1].
        + injection H as <- <-. now apply Hidle. }
    split; [|exact Hl].
    assert (Hmany : forall cs il cs' il',
              forallb statements_import_free cs = true ->
              visit_list fuel (pending cs) il = Ok (cs', il') ->
              exists found,
                il' = il ++ found /\
                map removeComments found
                = map removeComments (flat_map imports_of cs)).
    { intros cs il0 cs' il0' Hcs Hv.
      assert (Hr : Forall entry_ready (pending cs)).
      { unfold pending. apply Forall_map. apply Forall_forallb in Hcs.
        eapply Forall_impl; [exact Hcs|]. intros x Hx. exact Hx. }
      destruct (IHl _ _ _ _ Hr Hv) as (f & -> & Hf). exists f.
      split; [reflexivity|]. rewrite Hf. unfold pending.
      clear. induction cs as [|c cs IH]; [reflexivity|].
      cbn [map flat_map fst]. now rewrite !map_app, IH. }
    intros n il d il' H Hni Hs.
    destruct n as [e lc tc seen | sp src lc tc | l b lc tc | t fs lc tc];
      cbn [descend] in H; [| discriminate | |].
    + ok_bind H E. destruct a as [d1 il1]. injection H as <- <-.
      assert (He : statements_import_free e = true)
        by (now apply import_free_ready).
      destruct (visit_body_ordered _ _ _ _ _ IHd He E) as [Hh Hd].
      split; [exact Hh | now destruct d1].
    + ok_bind H E1. destruct a as [l1 il1]. ok_bind H E2. destruct a as [d1 il2].
      injection H as <- <-. cbn [statements_import_free] in Hs.
      apply andb_true_iff in Hs as [Hsl Hsb].
      destruct (visit_child_ordered _ _ _ _ _ _ IHd Hsl E1) as (f1 & -> & Hf1).
      destruct (visit_body_ordered _ _ _ _ _ IHd Hsb E2) as [(f2 & -> & Hf2) Hd].
      split; [|now destruct d1].
      exists (f1 ++ f2). split; [now rewrite app_assoc|].
      cbn [imports_of]. now apply hoisted_app.
    + ok_bind H E. destruct a as [fs1 il1]. injection H as <- <-.
      split; [|exact I].
      exact (visit_fields_ordered _ _ t
               (fun pos c il c' il' Hc => visit_child_ordered _ pos c il c' il' IHd Hc)
               Hmany _ _ _ _ lc tc Hs E).
Qed.

(** When no expression statement of a tree holds an import declaration,
    [traverse] adds the import declarations of the tree to the import
    list in the order of the text. *)
Lemma traverse_ordered (crawl : node -> option exn) (root : node) (il : list node)
    (root' : node) (il' : list node) :
  statements_import_free root = true ->
  traverse crawl root il = Ok (root', il') ->
  hoisted_in_order root il il'.
Proof.
  intros Hs H. apply traverse_inv in H as (_ & _ & Hni & d & Hd & _).
  destruct (descend_visit_list_ordered (depth root)) as [Ho _].
  now destruct (Ho _ _ _ _ Hd Hni Hs).
Qed.
(** *** What the traversal makes of a tree without imports *)

Lemma agrees_bind {A B} (m : outcome A) (k : A -> outcome B) (a : A) (b : B) :
  agrees m a -> agrees (k a) b -> agrees (m ≫= k) b.
Proof. destruct m; simpl; [intros -> | intros [] | ]; auto. Qed.

(** What [enter] does to an expression statement is decided by its
    comments and its marker; the expression is only carried along. *)
Lemma enter_ES_shape (lc tc : comments) (seen : bool) :
  (forall e, enter (ExpressionStatement e lc tc seen) = Ok NoAction) \/
  (seen = false /\
   exists text,
     forall e,
       enter (ExpressionStatement e lc tc seen)
       = Ok (ReplaceWithMultiple
               (ExpressionStatement
                  (callExpression (runtime "assertRepr") [e; stringLiteral text])
                  None None true))) \/
  (seen = false /\
   exists name text,
     forall e,
       enter (ExpressionStatement e lc tc seen)
       = Ok (ReplaceWithMultiple
               (ExpressionStatement
                  (awaitExpression
                     (callExpression (runtime "assertError")
                        [arrowFunctionExpression true e; stringLiteral name;
                         stringLiteral text]))
                  None None true))).
Proof.
  destruct seen; [left; intros e; apply enter_seen|].
  destruct tc as [[|c rest]|]; [left; intros e; now apply enter_plain | |
                                 left; intros e; now apply enter_plain].
  destruct (REPR_ASSERTION_RE (value c)) as [text|] eqn:Hr.
  - right. left. split; [reflexivity|].
    exists (join newline (text :: continuation_lines rest)).
    intros e. now apply enter_repr.
  - destruct (ERR_ASSSERTION_RE (value c)) as [[name text]|] eqn:He.
    + right. right. split; [reflexivity|].
      exists name, (join newline (text :: continuation_lines rest)).
      intros e. now apply enter_error.
    + left. intros e. apply enter_plain. simpl. now rewrite Hr, He.
Qed.

Lemma replaces_false (n : node) :
  rewritable n = true -> replaces n = false -> enter n = Ok NoAction.
Proof.
  unfold replaces. intros Hn H. destruct (enter_total n) as [[r| |] Ha];
    rewrite Ha in H; [discriminate | | exact Ha].
  apply enter_remove_inv in Ha. destruct n; discriminate.
Qed.

Lemma entered_replaces (n : node) : replaces n = false -> entered n = n.
Proof.
  unfold replaces, entered. now destruct (enter n) as [[r| |]|e|].
Qed.

Lemma rewritten_ES (e : node) (lc tc : comments) (seen : bool) :
  rewritten (ExpressionStatement e lc tc seen)
  = entered (ExpressionStatement (rewritten e) lc tc seen).
Proof. reflexivity. Qed.

Lemma rewritten_Node (t : node_type) (fs : list (field node)) (lc tc : comments) :
  rewritten (Node t fs lc tc) = rewritten_keys rewritten (Node t fs lc tc).
Proof. reflexivity. Qed.

Lemma replaces_keys (n : node) :
  replaces (rewritten_keys rewritten n) = replaces n.
Proof.
  destruct n as [e lc tc seen | sp src lc tc | l b lc tc | t fs lc tc];
    try reflexivity.
  cbn [rewritten_keys]. unfold replaces.
  destruct (enter_ES_shape lc tc seen) as [H | [(_ & text & H) | (_ & name & text & H)]];
    now rewrite !H.
Qed.

(** A node [enter] does not replace is rewritten by rewriting its keys. *)
Lemma rewritten_not_replaced (n : node) :
  replaces n = false -> rewritten n = rewritten_keys rewritten n.
Proof.
  intros H. destruct n as [e lc tc seen | sp src lc tc | l b lc tc | t fs lc tc];
    try reflexivity.
  rewrite rewritten_ES. apply entered_replaces.
  now rewrite <- (replaces_keys (ExpressionStatement e lc tc seen)) in H.
Qed.

(** The replacement of a statement, visited later, becomes what the
    statement is rewritten to. *)
Lemma rewritten_entered (n : node) :
  rewritable n = true -> rewritten (entered n) = rewritten n.
Proof.
  destruct n as [e lc tc seen | sp src lc tc | l b lc tc | t fs lc tc];
    try reflexivity.
  cbn [rewritable]. intros He. apply andb_true_iff in He as [Hx _].
  destruct e as [| | |t fs lc' tc']; try discriminate.
  unfold entered at 1.
  destruct (enter_ES_shape lc tc seen) as [H | [(_ & text & H) | (_ & name & text & H)]];
    rewrite H; [reflexivity | |];
    rewrite (rewritten_ES (Node t fs lc' tc') lc tc seen); unfold entered;
    rewrite H; reflexivity.
Qed.

Lemma rewritable_entered (n : node) :
  rewritable n = true -> rewritable (entered n) = true.
Proof.
  destruct n as [e lc tc seen | sp src lc tc | l b lc tc | t fs lc tc];
    try (intros; assumption).
  cbn [rewritable]. intros He. apply andb_true_iff in He as [Hx He].
  unfold entered.
  destruct (enter_ES_shape lc tc seen) as [H | [(_ & text & H) | (_ & name & text & H)]];
    rewrite H; cbn; rewrite ?Hx, ?He; try reflexivity.
  destruct e; try discriminate. reflexivity.
Qed.

Lemma entered_spec (n r : node) :
  enter n = Ok (ReplaceWithMultiple r) ->
  entered n = inheritsComments r n /\ replaces n = true.
Proof. intros H. unfold entered, replaces. now rewrite H. Qed.

Lemma visit_body_exact (rec : traversal) (e : node) (il : list node) :
  exact rec ->
  is_expression e = true -> rewritable e = true ->
  agrees (visit_body rec e il) (Stays (rewritten e), il).
Proof.
  intros Hrec Hx He. destruct e as [| | |t fs lc tc]; try discriminate.
  unfold visit_body. rewrite enter_Node. cbn [mbind outcome_bind].
  rewrite rewritten_Node. now apply Hrec.
Qed.

Lemma visit_child_exact (rec : traversal) (pos : position) (c : node)
    (il : list node) :
  exact rec ->
  rewritable c = true ->
  negb (replaces c) || holds_statement pos = true ->
  agrees (visit_child rec pos c il) (in_block c (rewritten c), il).
Proof.
  intros Hrec Hc Hpos. unfold visit_child, in_block.
  destruct (replaces c) eqn:Hr.
  - simpl in Hpos. unfold replaces in Hr.
    destruct (enter c) as [[r| |]|e|] eqn:Ha; try discriminate.
    cbn [mbind outcome_bind].
    destruct (entered_spec c r Ha) as [He _].
    assert (Hb : agrees
                   ('(d, importList) ← rec (blockStatement [inheritsComments r c]) il;
                    Ok (kept d (blockStatement [inheritsComments r c]), importList))
                   (blockStatement [rewritten c], il)).
    { eapply agrees_bind.
      - apply Hrec. rewrite <- He. cbn. now rewrite (rewritable_entered c Hc).
      - simpl. rewrite <- He, (rewritten_entered c Hc). reflexivity. }
    destruct pos; [exact Hb | exact Hb | discriminate].
  - rewrite (replaces_false c Hc Hr). cbn [mbind outcome_bind].
    eapply agrees_bind; [now apply Hrec|].
    simpl. now rewrite (rewritten_not_replaced c Hr).
Qed.

Lemma visit_fields_exact
    (visit_one : position -> node -> list node -> outcome (node * list node))
    (visit_many : list node -> list node -> outcome (list node * list node))
    (t : node_type) (il : list node) :
  (forall pos c,
     rewritable c = true ->
     negb (replaces c) || holds_statement pos = true ->
     agrees (visit_one pos c il) (in_block c (rewritten c), il)) ->
  (forall cs,
     forallb rewritable cs = true ->
     agrees (visit_many cs il) (map rewritten cs, il)) ->
  forall fs,
    forallb (fun f =>
               match f with
               | Single key c =>
                   rewritable c
                   && (negb (replaces c) || holds_statement (position_of t key))
               | Multiple _ cs => forallb rewritable cs
               end) fs = true ->
    agrees (visit_fields visit_one visit_many t fs il)
      (map (fun f =>
              match f with
              | Single key c => Single key (in_block c (rewritten c))
              | Multiple key cs => Multiple key (map rewritten cs)
              end) fs, il).
Proof.
  intros Hone Hmany. induction fs as [|[key c | key cs] fs IH]; intros Hfs;
    cbn [visit_fields map]; [reflexivity| |]; cbn [forallb] in Hfs;
    apply andb_true_iff in Hfs as [Hf Hfs].
  - apply andb_true_iff in Hf as [Hc Hp].
    eapply agrees_bind; [now apply Hone|]. simpl.
    eapply agrees_bind; [now apply IH|]. reflexivity.
  - eapply agrees_bind; [now apply Hmany|]. simpl.
    eapply agrees_bind; [now apply IH|]. reflexivity.
Qed.

Lemma visit_in_list_exact (rec : traversal) (done : list entry) (n : node)
    (next : option node) (il : list node) :
  exact rec ->
  rewritable n = true ->
  agrees (visit_in_list rec done n next il) (swept (n, true) :: done, next, il).
Proof.
  intros Hrec Hn. unfold visit_in_list, swept. cbn [fst snd].
  destruct (replaces n) eqn:Hr.
  - unfold replaces in Hr. destruct (enter n) as [[r| |]|e|] eqn:Ha; try discriminate.
    cbn [mbind outcome_bind]. destruct (entered_spec n r Ha) as [-> _]. reflexivity.
  - rewrite (replaces_false n Hn Hr). cbn [mbind outcome_bind].
    eapply agrees_bind; [now apply Hrec|]. reflexivity.
Qed.

Lemma sweep_exact (rec : traversal) (il : list node) :
  exact rec ->
  forall rest done n flagged,
    (flagged = true -> rewritable n = true) ->
    Forall (fun e => snd e = true -> rewritable (fst e) = true) rest ->
    agrees (sweep rec done n flagged rest il)
      (rev done ++ map swept ((n, flagged) :: rest), il).
Proof.
  intros Hrec. induction rest as [|[x q] rest IH]; intros done n flagged Hn Hrest;
    cbn [sweep].
  - eapply agrees_bind with (a := (swept (n, flagged) :: done, None, il)).
    + destruct flagged; [|reflexivity].
      apply visit_in_list_exact; [exact Hrec | now apply Hn].
    + simpl. reflexivity.
  - apply Forall_cons in Hrest as [Hx Hrest].
    eapply agrees_bind with (a := (swept (n, flagged) :: done, Some x, il)).
    + destruct flagged; [|reflexivity].
      apply visit_in_list_exact; [exact Hrec | now apply Hn].
    + cbn [default]. specialize (IH (swept (n, flagged) :: done) x q Hx Hrest).
      cbn [rev map] in *. now rewrite <- app_assoc in IH.
Qed.

Lemma visited_swept (e : entry) :
  (snd e = true -> rewritable (fst e) = true) ->
  visited (swept e) = visited e /\
  (snd (swept e) = true -> rewritable (fst (swept e)) = true).
Proof.
  destruct e as [n [|]]; unfold swept, visited; cbn [fst snd]; [|now split].
  intros Hn. specialize (Hn eq_refl). destruct (replaces n) eqn:Hr; cbn [fst snd].
  - split; [now apply rewritten_entered | intros _; now apply rewritable_entered].
  - split; [now rewrite rewritten_not_replaced | discriminate].
Qed.

Lemma descend_visit_list_exact (fuel : nat) :
  exact (descend fuel) /\
  (forall entries il,
     Forall (fun e => snd e = true -> rewritable (fst e) = true) entries ->
     agrees (visit_list fuel entries il) (map visited entries, il)).
Proof.
  assert (Hidle : forall entries : list entry,
            existsb snd entries = false -> map fst entries = map visited entries).
  { intros entries H. apply existsb_snd_false in H.
    induction H as [|[x q] l Hq _ IH]; [reflexivity|]. simpl in Hq. subst q.
    cbn [map]. now rewrite IH. }
  induction fuel as [|fuel [IHd IHl]].
  - split; [intros n il _; exact I|].
    intros [|[n p] rest] il Hr; cbn [visit_list]; [reflexivity|].
    destruct (existsb snd ((n, p) :: rest)) eqn:Hex; [exact I|].
    unfold agrees. f_equal. exact (Hidle ((n, p) :: rest) Hex).
  - assert (Hl : forall entries il,
              Forall (fun e => snd e = true -> rewritable (fst e) = true) entries ->
              agrees (visit_list (S fuel) entries il) (map visited entries, il)).
    { intros [|[n p] rest] il Hr; cbn [visit_list]; [reflexivity|].
      destruct (existsb snd ((n, p) :: rest)) eqn:Hex.
      + pose proof Hr as Hr'. apply Forall_cons in Hr' as [Hn Hrest].
        eapply agrees_bind; [exact (sweep_exact _ il IHd rest [] n p Hn Hrest)|].
        cbn [rev app].
        assert (Hsw : map visited (map swept ((n, p) :: rest))
                      = map visited ((n, p) :: rest) /\
                      Forall (fun e => snd e = true -> rewritable (fst e) = true)
                        (map swept ((n, p) :: rest))).
        { clear -Hr. induction Hr as [|e l He _ [IH1 IH2]]; [now split|].
          destruct (visited_swept e He) as [H1 H2]. cbn [map]. split.
          - now rewrite H1, IH1.
          - now constructor. }
        destruct Hsw as [<- Hready]. now apply IHl.
      + unfold agrees. f_equal. exact (Hidle ((n, p) :: rest) Hex). }
    split; [|exact Hl].
    intros n il Hn.
    destruct n as [e lc tc seen | sp src lc tc | l b lc tc | t fs lc tc];
      try discriminate; cbn [descend rewritten_keys].
    + cbn [rewritable] in Hn. apply andb_true_iff in Hn as [Hx He].
      eapply agrees_bind; [now apply visit_body_exact|]. exact eq_refl.
    + cbn [rewritable] in Hn. eapply agrees_bind.
      * apply visit_fields_exact; [| |exact Hn].
        -- intros pos c Hc Hp. now apply visit_child_exact.
        -- intros cs Hcs. specialize (IHl (pending cs) il).
           assert (Hp : map visited (pending cs) = map rewritten cs).
           { unfold pending. rewrite map_map. reflexivity. }
           rewrite <- Hp. apply IHl. unfold pending. apply Forall_map.
           apply Forall_forallb in Hcs. eapply Forall_impl; [exact Hcs|].
           intros x Hx _. exact Hx.
      * exact eq_refl.
Qed.

(** [traverse] rewrites such a tree as [rewritten] says and finds no
    import. *)
Lemma traverse_rewritten (crawl : node -> option exn) (t : node_type)
    (fs : list (field node)) (lc tc : comments) (il : list node) :
  t = File \/ t = Program ->
  crawl (Node t fs lc tc) = None ->
  rewritable (Node t fs lc tc) = true ->
  traverse crawl (Node t fs lc tc) il = Ok (rewritten (Node t fs lc tc), il).
Proof.
  intros Ht Hc Hr.
  pose proof (traverse_returns crawl (Node t fs lc tc) il) as Hret.
  destruct (descend_visit_list_exact (depth (Node t fs lc tc))) as [Hd _].
  specialize (Hd _ il Hr). rewrite rewritten_Node.
  unfold traverse in *. rewrite Hc in *.
  destruct (descend (depth (Node t fs lc tc)) (Node t fs lc tc) il) as [[d il1]|e|];
    simpl in Hd.
  - injection Hd as -> ->. now destruct Ht as [-> | ->].
  - contradiction.
  - destruct Ht as [-> | ->]; contradiction.
Qed.

(** *** One marked statement for every annotation *)

Lemma list_sum_map_add {A} (f g : A -> nat) (l : list A) :
  list_sum (map (fun x => f x + g x) l) = list_sum (map f l) + list_sum (map g l).
Proof.
  induction l as [|x l IH]; [reflexivity|]. cbn [map].
  rewrite !list_sum_cons, IH. lia.
Qed.

Lemma list_sum_map_Forall {A} (f g : A -> nat) (l : list A) :
  Forall (fun x => f x = g x) l -> list_sum (map f l) = list_sum (map g l).
Proof.
  induction 1 as [|x l Hx _ IH]; [reflexivity|]. cbn [map].
  now rewrite !list_sum_cons, Hx, IH.
Qed.

Lemma count_marked_in_block (c c' : node) :
  count_marked (in_block c c') = count_marked c'.
Proof.
  unfold in_block. destruct (replaces c); [|reflexivity].
  cbn; rewrite ?list_sum_cons; simpl; lia.
Qed.

(** Rewriting adds one marked statement for every statement [enter]
    replaces. *)
Lemma count_rewritten (n : node) :
  rewritable n = true ->
  count_marked (rewritten n) = count_marked n + count_annotated n.
Proof.
  induction n as [e lc tc seen IH | sp src lc tc _ | l b lc tc _ _ | t fs lc tc IH]
    using node_ind; try discriminate; cbn [rewritable]; intros Hn.
  - apply andb_true_iff in Hn as [_ He]. specialize (IH He).
    rewrite rewritten_ES. cbn [count_annotated count_marked].
    unfold entered, replaces.
    destruct (enter_ES_shape lc tc seen)
      as [H | [(-> & text & H) | (-> & name & text & H)]]; rewrite !H.
    + cbn [count_marked]. lia.
    + cbn; rewrite ?list_sum_cons; simpl; lia.
    + cbn; rewrite ?list_sum_cons; simpl; lia.
  - rewrite rewritten_Node. cbn [rewritten_keys count_marked count_annotated].
    change (replaces (Node t fs lc tc)) with false. cbn [Nat.add].
    rewrite map_map, <- list_sum_map_add. apply list_sum_map_Forall.
    apply Forall_forallb in Hn.
    eapply Forall_impl; [apply Forall_and; split; [exact IH | exact Hn]|].
    intros [key c | key cs] [Hf Hr]; cbn beta iota in *.
    + apply andb_true_iff in Hr as [Hc _].
      rewrite count_marked_in_block. now apply Hf.
    + rewrite map_map, <- list_sum_map_add. apply list_sum_map_Forall.
      apply Forall_forallb in Hr.
      eapply Forall_impl; [apply Forall_and; split; [exact Hf | exact Hr]|].
      intros c [H1 H2]. now apply H1.
Qed.

Lemma count_annotated_in_block (c c' : node) :
  count_annotated (in_block c c') = count_annotated c'.
Proof.
  unfold in_block. destruct (replaces c); [|reflexivity].
  cbn; rewrite ?list_sum_cons; simpl; lia.
Qed.

(** Rewriting leaves no statement for [enter] to replace. *)
Lemma count_annotated_rewritten (n : node) :
  rewritable n = true -> count_annotated (rewritten n) = 0.
Proof.
  induction n as [e lc tc seen IH | sp src lc tc _ | l b lc tc _ _ | t fs lc tc IH]
    using node_ind; try discriminate; cbn [rewritable]; intros Hn.
  - apply andb_true_iff in Hn as [_ He]. specialize (IH He).
    rewrite rewritten_ES. unfold entered.
    destruct (enter_ES_shape lc tc seen)
      as [H | [(-> & text & H) | (-> & name & text & H)]]; rewrite !H.
    + cbn [count_annotated]. unfold replaces. now rewrite H, IH.
    + cbn; rewrite ?list_sum_cons; simpl; lia.
    + cbn; rewrite ?list_sum_cons; simpl; lia.
  - rewrite rewritten_Node. cbn [rewritten_keys count_annotated].
    change (replaces (Node t ?x lc tc)) with false. cbn [Nat.add].
    rewrite map_map.
    assert (Hz : forall l : list (field node),
              list_sum (map (fun _ => 0) l) = 0)
      by (intros l; induction l; [reflexivity | now rewrite map_cons, list_sum_cons]).
    rewrite <- (Hz fs). apply list_sum_map_Forall.
    apply Forall_forallb in Hn.
    eapply Forall_impl; [apply Forall_and; split; [exact IH | exact Hn]|].
    intros [key c | key cs] [Hf Hr]; cbn beta iota in *.
    + apply andb_true_iff in Hr as [Hc _].
      rewrite count_annotated_in_block. now apply Hf.
    + rewrite map_map.
      assert (Hz' : forall l : list node, list_sum (map (fun _ => 0) l) = 0)
        by (intros l; induction l; [reflexivity | now rewrite map_cons, list_sum_cons]).
      rewrite <- (Hz' cs). apply list_sum_map_Forall.
      apply Forall_forallb in Hr.
      eapply Forall_impl; [apply Forall_and; split; [exact Hf | exact Hr]|].
      intros c [H1 H2]. now apply H1.
Qed.
(** ** Claims C1 to C4: the annotation rewriter *)



(** The sample of the specification, [x], then a comment made of a space,
    the marker and [hello] between double quotes: the expected text keeps
    the quotes the author wrote. *)
Example quoted_text_kept :
  enter
    (ExpressionStatement (identifier "x") None
       (Some [ {| value := " => " +:+ Samples.quoted "hello"; start := 36 |} ]) false)
  = Ok (ReplaceWithMultiple
          (ExpressionStatement
             (Expected.repr_call (identifier "x") (Samples.quoted "hello"))
             None None true)) /\
  String.length (Samples.quoted "hello") = 7.
Proof. split; reflexivity. Qed.



(** The spec's sample: for [risky(); // TypeError: bad input] with a second
    comment line the name is [TypeError] and the message is
    [bad input], a newline, [here]. *)
Example error_statement_example :
  enter Samples.error_statement
  = Ok (ReplaceWithMultiple
          (ExpressionStatement
             (awaitExpression
                (callExpression (runtime "assertError")
                   [arrowFunctionExpression true (callExpression (identifier "risky") []);
                    stringLiteral "TypeError";
                    stringLiteral ("bad input" +:+ newline +:+ "here")]))
             None None true)).
Proof. reflexivity. Qed.


(** A statement whose comment is no annotation. *)
Example plain_statement_untouched :
  findAssertion Samples.plain_statement = None /\
  enter Samples.plain_statement = Ok NoAction /\
  visit_list 8 (pending [Samples.plain_statement]) []
  = Ok ([Samples.plain_statement], []).
Proof. repeat split. Qed.

(** C4.  Every statement [enter] builds carries the marker, and it keeps the
    marker and stays classified like the statement it replaces once it has
    inherited that statement's comments; [enter] acts on no statement that
    carries the marker, whatever its comments are, in the traversal that
    made it or in a later one; the traversal of a marked statement's keys
    leaves the statement and its marker in place; and a traversal of a
    tree in which every annotated statement carries the marker, and which
    holds no import, changes nothing and hoists nothing. *)
Theorem rewriting_idempotent :
  (forall n r, enter n = Ok (ReplaceWithMultiple r) ->
     TESTDOC_SEEN r = true /\
     TESTDOC_SEEN (inheritsComments r n) = true /\
     findAssertion (inheritsComments r n) = findAssertion n /\
     enter (inheritsComments r n) = Ok NoAction) /\
  (forall e lc tc, enter (ExpressionStatement e lc tc true) = Ok NoAction) /\
  (forall e lc tc fuel il n' il',
     descend fuel (ExpressionStatement e lc tc true) il = Ok (Stays n', il') ->
     exists e', n' = ExpressionStatement e' lc tc true) /\
  (forall crawl t fs lc tc il,
     t = File \/ t = Program ->
     crawl (Node t fs lc tc) = None ->
     settled (Node t fs lc tc) = true ->
     traverse crawl (Node t fs lc tc) il = Ok (Node t fs lc tc, il)).
Proof.
  split; [|split; [|split]].
  - intros n r Hn.
    apply enter_replace_inv in Hn as (e & lc & c & rest & -> & H).
    destruct H as [(text & _ & ->) | (name & text & _ & _ & ->)];
      repeat split.
  - intros e lc tc. apply enter_seen.
  - intros e lc tc [|fuel] il n' il' H; [discriminate|]. cbn [descend] in H.
    ok_bind H E. destruct a as [[e1|after] il1]; [|discriminate].
    injection H as <- <-. now exists e1.
  - intros crawl t fs lc tc il. apply traverse_settled.
Qed.

(** The statement [x; // => 1] is rewritten once: its replacement is
    entered again in the same traversal and left alone, and a second
    traversal of the result changes nothing. *)
Example rewritten_once :
  traverse Samples.no_collision (sample_file [Samples.repr_statement] []) []
  = Ok (sample_file
          [ExpressionStatement
             (Expected.repr_call (identifier "x") "1")
             (Some []) (Some [ {| value := " => 1"; start := 36 |} ]) true] [],
        []) /\
  traverse Samples.no_collision
    (sample_file
       [ExpressionStatement
          (Expected.repr_call (identifier "x") "1")
          (Some []) (Some [ {| value := " => 1"; start := 36 |} ]) true] []) []
  = Ok (sample_file
          [ExpressionStatement
             (Expected.repr_call (identifier "x") "1")
             (Some []) (Some [ {| value := " => 1"; start := 36 |} ]) true] [],
        []).
Proof. split; reflexivity. Qed.

(** ** Claims C5, C6, C8 and C9: scanning, compiling and assembling *)

Lemma or_else_spec (a : option string) (b : string) :
  or_else a b = Expected.or_default a b.
Proof. destruct a as [[|c s]|]; reflexivity. Qed.

Lemma or_else_truthy (a : option string) (b s : string) :
  a = Some s -> s <> "" -> or_else a b = s.
Proof. intros -> Hs. destruct s; [contradiction | reflexivity]. Qed.

Lemma or_else_falsy (a : option string) (b : string) :
  a = None \/ a = Some "" -> or_else a b = b.
Proof. intros [-> | ->]; reflexivity. Qed.



Section CompileFacts.

Variable Remark_parse : string -> mdast.
Variable mdastToString : mdast -> string.
Variable Babylon_parse : string -> exn + node.
Variable crawl : node -> option exn.
Variables RUNTIME POLYFILL : string.

(** One turn of the loop that returns: the sample was parsed and
    traversed, and its case was appended. *)
Lemma compile_case_inv (testCase : TestCase.t) (il cl il' cl' : list node) :
  compile_case Babylon_parse crawl testCase (il, cl) = Ok (il', cl') ->
  exists file file' body,
    Babylon_parse (wrap (TestCase.value testCase)) = inr file /\
    traverse crawl file il = Ok (file', il') /\
    testcase_body file' = Ok body /\
    cl' = cl ++ [Expected.case (Expected.or_default (TestCase.title testCase) "works")
                   body].
Proof.
  unfold compile_case, parse. intros H.
  destruct (Babylon_parse (wrap (TestCase.value testCase))) as [e|file];
    [discriminate|].
  cbn [mbind outcome_bind] in H. ok_bind H E1. destruct a as [file' il1].
  ok_bind H E2. injection H as <- <-.
  exists file, file', a. rewrite or_else_spec. repeat split; assumption.
Qed.

Lemma compile_case_throw (testCase : TestCase.t) (e : exn) (st : list node * list node) :
  Babylon_parse (wrap (TestCase.value testCase)) = inl e ->
  compile_case Babylon_parse crawl testCase st = Throw e.
Proof.
  intros H. destruct st as [il cl]. unfold compile_case, parse.
  rewrite H. reflexivity.
Qed.

Lemma compile_case_returns (testCase : TestCase.t) (st : list node * list node) :
  returns (compile_case Babylon_parse crawl testCase st).
Proof.
  destruct st as [il cl]. unfold compile_case, parse.
  destruct (Babylon_parse _) as [e|file]; [exact I|].
  cbn [mbind outcome_bind]. apply returns_bind; [apply traverse_returns|].
  intros [file' il1] _. apply returns_bind.
  - unfold testcase_body.
    repeat match goal with
           | |- returns (match ?x with _ => _ end) => destruct x
           end; exact I.
  - intros body _. exact I.
Qed.

Lemma forEach_returns (tcs : list TestCase.t) (st : list node * list node) :
  returns (forEach (compile_case Babylon_parse crawl) tcs st).
Proof.
  revert st. induction tcs as [|tc tcs IH]; intros st; cbn [forEach]; [exact I|].
  apply returns_bind; [apply compile_case_returns|]. intros st' _. apply IH.
Qed.

Lemma forEach_app {A S} (f : A -> S -> outcome S) (l1 l2 : list A) (s : S) :
  forEach f (l1 ++ l2) s = s' ← forEach f l1 s; forEach f l2 s'.
Proof.
  revert s. induction l1 as [|a l1 IH]; intros s; cbn [forEach app].
  - reflexivity.
  - destruct (f a s) as [s1|e|]; cbn [mbind outcome_bind]; [apply IH | | ]; reflexivity.
Qed.


End CompileFacts.



(** The third sample of that document: the comment of the import it
    loses goes to the statement after it, where it extends the expected
    text. *)
Example import_comment_shared :
  traverse Samples.no_collision
    (sample_file [Samples.commented_import; Samples.answer_statement] []) []
  = Ok (sample_file
          [ExpressionStatement
             (Expected.repr_call (Expected.ident "answer")
                ("42" +:+ Expected.line_feed +:+ "Import the library"))
             (Some [])
             (Some [ {| value := " => 42"; start := 85 |};
                     {| value := " Import the library"; start := 34 |} ])
             true] [],
        [Samples.commented_import]).
Proof. reflexivity. Qed.

(** C8.  When a sample does not parse, no program is returned, whatever
    samples come before and after it: the loop over the samples and
    [compile] itself throw.  What they throw is the parser's error for that
    sample as soon as the samples before it are compiled, whatever was
    collected until then and whatever samples follow; otherwise it is the
    error of an earlier sample, and the sample is not reached. *)
Theorem parse_failure_aborts
    (Remark_parse : string -> mdast) (mdastToString : mdast -> string)
    (Babylon_parse : string -> exn + node) (crawl : node -> option exn)
    (RUNTIME POLYFILL : string) (source : string) (options : Options)
    (pre post : list TestCase.t) (bad : TestCase.t) (e : exn) :
  mdastVisitNode mdastToString (Remark_parse source) = Ok (pre ++ bad :: post) ->
  Babylon_parse (wrap (TestCase.value bad)) = inl e ->
  (forall post' st st',
     forEach (compile_case Babylon_parse crawl) pre st = Ok st' ->
     forEach (compile_case Babylon_parse crawl) (pre ++ bad :: post') st = Throw e) /\
  (forall st',
     forEach (compile_case Babylon_parse crawl) pre ([], []) = Ok st' ->
     compile Remark_parse mdastToString Babylon_parse crawl RUNTIME POLYFILL source
       options
     = Throw e) /\
  (forall post' st,
     exists e',
       forEach (compile_case Babylon_parse crawl) (pre ++ bad :: post') st = Throw e') /\
  (exists e',
     compile Remark_parse mdastToString Babylon_parse crawl RUNTIME POLYFILL source
       options
     = Throw e').
Proof.
  intros Hscan Hbad.
  assert (H : forall post' st st',
            forEach (compile_case Babylon_parse crawl) pre st = Ok st' ->
            forEach (compile_case Babylon_parse crawl) (pre ++ bad :: post') st
            = Throw e).
  { intros post' st st' Hpre. rewrite forEach_app, Hpre.
    cbn [mbind outcome_bind forEach].
    now rewrite (compile_case_throw Babylon_parse crawl bad e st' Hbad). }
  assert (H' : forall post' st,
            exists e',
              forEach (compile_case Babylon_parse crawl) (pre ++ bad :: post') st
              = Throw e').
  { intros post' st.
    pose proof (forEach_returns Babylon_parse crawl pre st) as Hr.
    destruct (forEach (compile_case Babylon_parse crawl) pre st) as [st'|e'|] eqn:E;
      [| |contradiction].
    - exists e. now apply (H post' st st').
    - exists e'. rewrite forEach_app, E. reflexivity. }
  split; [exact H|]. split; [|split; [exact H'|]].
  - intros st' Hpre. unfold compile. rewrite Hscan. cbn [mbind outcome_bind].
    now rewrite (H post _ _ Hpre).
  - destruct (H' post ([], [])) as [e' He']. exists e'.
    unfold compile. rewrite Hscan. cbn [mbind outcome_bind]. now rewrite He'.
Qed.

Lemma parse_failure_aborts_witness :
  (forall post' st st',
     forEach (compile_case Samples.toy_parse Samples.no_collision)
       [Samples.case_x] st = Ok st' ->
     forEach (compile_case Samples.toy_parse Samples.no_collision)
       ([Samples.case_x] ++ Samples.case_bad :: post') st
     = Throw (SyntaxError "Unexpected token")) /\
  (forall st',
     forEach (compile_case Samples.toy_parse Samples.no_collision)
       [Samples.case_x] ([], []) = Ok st' ->
     compile (fun _ => Samples.broken_document) Samples.flatten Samples.toy_parse
       Samples.no_collision "runtime.js" "polyfill.js" "" Samples.no_options
     = Throw (SyntaxError "Unexpected token")) /\
  (forall post' st,
     exists e',
       forEach (compile_case Samples.toy_parse Samples.no_collision)
         ([Samples.case_x] ++ Samples.case_bad :: post') st = Throw e') /\
  (exists e',
     compile (fun _ => Samples.broken_document) Samples.flatten Samples.toy_parse
       Samples.no_collision "runtime.js" "polyfill.js" "" Samples.no_options
     = Throw e').
Proof.
  apply (parse_failure_aborts (fun _ => Samples.broken_document) Samples.flatten
           Samples.toy_parse Samples.no_collision "runtime.js" "polyfill.js" ""
           Samples.no_options [Samples.case_x] [Samples.case_y] Samples.case_bad);
    reflexivity.
Defined.

(** The document of three samples of which the second does not parse: the
    first sample is compiled, and [compile] throws the parser's error. *)
Example broken_document_throws :
  (exists st',
     forEach (compile_case Samples.toy_parse Samples.no_collision)
       [Samples.case_x] ([], []) = Ok st') /\
  compile (fun _ => Samples.broken_document) Samples.flatten Samples.toy_parse
    Samples.no_collision "runtime.js" "polyfill.js" "" Samples.no_options
  = Throw (SyntaxError "Unexpected token").
Proof. split; [eexists|]; reflexivity. Qed.

(** When building the scopes of the first sample throws, that error comes
    first and the sample that does not parse is not reached. *)
Example earlier_error_comes_first :
  compile (fun _ => Samples.broken_document) Samples.flatten Samples.toy_parse
    (fun _ => Some (TypeError "Duplicate declaration")) "runtime.js" "polyfill.js" ""
    Samples.no_options
  = Throw (TypeError "Duplicate declaration").
Proof. reflexivity. Qed.

Lemma mdast_ind (P : mdast -> Prop) :
  (forall t l v cs, Forall P cs -> P (MdNode t l v cs)) ->
  forall n, P n.
Proof.
  intros H. fix IH 1. intros [t l v cs]. apply H.
  induction cs as [|c cs IHcs]; constructor; [apply IH | exact IHcs].
Qed.

Lemma last_char_spec (t : string) (c : ascii) :
  last_char t = Some c <-> exists t', t = t' +:+ String c "".
Proof.
  induction t as [|x t IH].
  - split; [discriminate | intros [[|y t'] E]; simpl in E; discriminate].
  - destruct t as [|y t].
    + simpl. split.
      * intros [= ->]. now exists "".
      * intros [[|z [|w t']] E]; simpl in E; congruence.
    + change (last_char (String x (String y t))) with (last_char (String y t)).
      rewrite IH. split.
      * intros [t' E]. exists (String x t'). simpl. now rewrite E.
      * intros [[|z t'] E]; simpl in E; [discriminate|].
        exists t'. congruence.
Qed.

Lemma drop_last_app (t : string) (c : ascii) : drop_last (t +:+ String c "") = t.
Proof.
  induction t as [|x t IH]; [reflexivity|].
  simpl. destruct (t +:+ String c "") eqn:E.
  - destruct t; discriminate.
  - now rewrite IH.
Qed.

(** The scanner calls the callback on every code block with the block's
    position among its parent's children. *)
Lemma visit_children_imap (mdastToString : mdast -> string) (parent : mdast) :
  visit_children mdastToString parent
  = concat (imap (fun index child =>
                    (if String.eqb (md_type child) "code"
                     then on_code mdastToString child index parent else [])
                    ++ visit_children mdastToString child)
              (md_children parent)).
Proof.
  destruct parent as [t l v cs]. cbn [visit_children md_children].
  generalize (MdNode t l v cs) as parent. intros parent.
  set (F := fun index child =>
              (if String.eqb (md_type child) "code"
               then on_code mdastToString child index parent else [])
              ++ visit_children mdastToString child).
  enough (H : forall k,
             (fix all (index : nat) (rest : list mdast) : list TestCase.t :=
                match rest with
                | [] => []
                | child :: rest' =>
                    (if String.eqb (md_type child) "code"
                     then on_code mdastToString child index parent else [])
                    ++ visit_children mdastToString child
                    ++ all (S index) rest'
                end) k cs
             = concat (imap (fun i => F (k + i)) cs)) by apply (H 0).
  induction cs as [|c cs IH]; intros k; [reflexivity|].
  cbn [imap concat]. unfold F at 1. rewrite Nat.add_0_r, <- app_assoc.
  f_equal. f_equal. rewrite IH. f_equal. apply imap_ext. intros i x _. simpl.
  now rewrite Nat.add_succ_r.
Qed.

(** C9.  The title of a sample is decided by the block before it among its
    parent's children, [parent.children[index - 1]]: a paragraph whose
    flattened text ends in a colon gives the text without that one colon,
    another paragraph gives its text, and no block or a block that is not
    a paragraph gives no title.  The scanner records that title for a code
    block with a recognised tag.  A sample without a title, or with the
    empty title, is registered under the title [works], any other under
    its title; whether a sample is compiled does not depend on its
    title. *)
Theorem sample_title
    (mdastToString : mdast -> string) (Babylon_parse : string -> exn + node)
    (crawl : node -> option exn) (parent : mdast) (index : nat) :
  (forall prev,
     0 < index ->
     md_children parent !! (index - 1) = Some prev ->
     md_type prev = "paragraph" ->
     (forall t, mdastToString prev = t +:+ ":" ->
        title_of mdastToString parent index = Some t) /\
     (last_char (mdastToString prev) <> Some ":"%char ->
        title_of mdastToString parent index = Some (mdastToString prev))) /\
  (forall prev,
     0 < index ->
     md_children parent !! (index - 1) = Some prev ->
     md_type prev <> "paragraph" ->
     title_of mdastToString parent index = None) /\
  (index = 0 \/ md_children parent !! (index - 1) = None ->
     title_of mdastToString parent index = None) /\
  (forall node,
     md_children parent !! index = Some node ->
     md_type node = "code" ->
     supported (md_lang node) = true ->
     {| TestCase.title := title_of mdastToString parent index;
        TestCase.lang := md_lang node;
        TestCase.value := md_value node |}
     ∈ visit_children mdastToString parent) /\
  (forall testCase il cl il' cl',
     compile_case Babylon_parse crawl testCase (il, cl) = Ok (il', cl') ->
     exists body,
       (TestCase.title testCase = None \/ TestCase.title testCase = Some "" ->
        cl' = cl ++ [Expected.case "works" body]) /\
       (forall t, TestCase.title testCase = Some t -> t <> "" ->
        cl' = cl ++ [Expected.case t body])) /\
  (forall testCase testCase' st,
     TestCase.value testCase = TestCase.value testCase' ->
     (exists r, compile_case Babylon_parse crawl testCase st = Ok r) ->
     exists r', compile_case Babylon_parse crawl testCase' st = Ok r').
Proof.
  assert (Hprev : forall prev, 0 < index ->
            md_children parent !! (index - 1) = Some prev ->
            previous_sibling parent index = Some prev).
  { intros prev Hi Hp. destruct index as [|i]; [lia|].
    replace (S i - 1) with i in Hp by lia. exact Hp. }
  split; [|split; [|split; [|split; [|split]]]].
  - intros prev Hi Hp Htype. apply (Hprev _ Hi) in Hp.
    unfold title_of. rewrite Hp, Htype. simpl. split.
    + intros t Ht. rewrite Ht.
      assert (Hlast : last_char (t +:+ ":") = Some ":"%char)
        by (apply last_char_spec; now exists t).
      rewrite Hlast, drop_last_app.
      assert (Htruthy : truthy (t +:+ ":") = true) by now destruct t.
      rewrite Htruthy. now rewrite bool_decide_eq_true_2.
    + intros Hlast. rewrite bool_decide_eq_false_2 by exact Hlast.
      now rewrite andb_false_r.
  - intros prev Hi Hp Htype. apply (Hprev _ Hi) in Hp.
    unfold title_of. rewrite Hp.
    apply String.eqb_neq in Htype. now rewrite Htype.
  - intros H. unfold title_of.
    assert (Hnone : previous_sibling parent index = None).
    { destruct index as [|i]; [reflexivity|]. destruct H as [H | H]; [lia|].
      replace (S i - 1) with i in H by lia. exact H. }
    now rewrite Hnone.
  - intros node Hnode Htype Hlang.
    rewrite visit_children_imap. apply list_elem_of_In, in_concat.
    eexists. split.
    + apply list_elem_of_In. eapply elem_of_lookup_imap_2. exact Hnode.
    + simpl. rewrite Htype. simpl. unfold on_code. rewrite Hlang. now left.
  - intros testCase il cl il' cl' H.
    apply compile_case_inv in H as (file & file' & body & _ & _ & _ & ->).
    exists body. split.
    + now intros [-> | ->].
    + intros t -> Ht. destruct t; [contradiction | reflexivity].
  - intros testCase testCase' [il cl] Hv [r H].
    unfold compile_case in *. rewrite <- Hv.
    destruct (parse Babylon_parse (wrap (TestCase.value testCase)));
      cbn [mbind outcome_bind] in *; try discriminate.
    destruct (traverse crawl a il) as [[file' il1]| |];
      cbn [mbind outcome_bind] in *; try discriminate.
    destruct (testcase_body file'); cbn [mbind outcome_bind] in *;
      try discriminate.
    eexists. reflexivity.
Qed.

(** The titled document of the samples: the paragraph [Adding numbers:]
    gives the title [Adding numbers]. *)
Example titled_document_scanned :
  mdastVisitNode Samples.flatten Samples.titled_document
  = Ok [ {| TestCase.title := Some "Adding numbers";
            TestCase.lang := Some "js+test"; TestCase.value := Samples.source_x |} ].
Proof. reflexivity. Qed.

(** A paragraph that is only a colon gives the empty title, which the
    registration replaces by [works] as well. *)
Example colon_only_title :
  title_of Samples.flatten (Samples.root [Samples.paragraph ":"; Samples.code (Some "js+test") Samples.source_x]) 1
  = Some "" /\ or_else (Some "") "works" = "works".
Proof. split; reflexivity. Qed.

(** *** The allow-list *)

Lemma SUPPORTED_LANG_lookup (key : string) :
  SUPPORTED_LANG !! key
  = if String.eqb key "js+test" || String.eqb key "javasctipt+test"
    then Some true else None.
Proof.
  unfold SUPPORTED_LANG.
  destruct (String.eqb key "js+test") eqn:E1.
  { apply String.eqb_eq in E1 as ->. now rewrite lookup_insert_eq. }
  apply String.eqb_neq in E1. rewrite lookup_insert_ne by congruence.
  destruct (String.eqb key "javasctipt+test") eqn:E2.
  { apply String.eqb_eq in E2 as ->. now rewrite lookup_insert_eq. }
  apply String.eqb_neq in E2. rewrite lookup_insert_ne by congruence.
  apply lookup_empty.
Qed.

(** What the test [SUPPORTED_LANG[node.lang]] accepts: the two listed tags,
    and every tag that names a property of [Object.prototype]. *)
Lemma supported_spec (lang : option string) :
  supported lang
  = allow_listed lang || JsObject.inherited (JsObject.to_key lang).
Proof.
  unfold supported, JsObject.get. rewrite SUPPORTED_LANG_lookup.
  destruct lang as [l|]; simpl; [|reflexivity].
  destruct (String.eqb l "js+test" || String.eqb l "javasctipt+test");
    [reflexivity|].
  destruct (JsObject.inherited l); reflexivity.
Qed.

Lemma scan_count_children (mdastToString : mdast -> string)
    (f : nat -> mdast -> list TestCase.t) (cs : list mdast) :
  (forall i child,
     length (f i child) = if supported (md_lang child) then 1 else 0) ->
  Forall (fun c => length (visit_children mdastToString c)
                   = count_code supported c) cs ->
  length (concat (imap (fun index child =>
                          (if String.eqb (md_type child) "code"
                           then f index child else [])
                          ++ visit_children mdastToString child) cs))
  = (fix all (rest : list mdast) : nat :=
       match rest with
       | [] => 0
       | child :: rest' =>
           (if String.eqb (md_type child) "code" && supported (md_lang child)
            then 1 else 0)
           + count_code supported child + all rest'
       end) cs.
Proof.
  intros Hf Hcs. revert f Hf.
  induction Hcs as [|c cs Hc _ IH]; intros f Hf; [reflexivity|].
  cbn [imap concat]. rewrite !length_app, Hc.
  rewrite <- (IH (fun i => f (S i))) by (intros i child; apply Hf).
  f_equal. f_equal.
  destruct (String.eqb (md_type c) "code"); simpl; [apply Hf | reflexivity].
Qed.

(** The number of test cases is the number of code blocks whose tag passes
    the test. *)
Lemma scan_count (mdastToString : mdast -> string) (parent : mdast) :
  length (visit_children mdastToString parent) = count_code supported parent.
Proof.
  induction parent as [t l v cs IH] using mdast_ind.
  rewrite visit_children_imap. cbn [md_children count_code].
  apply scan_count_children; [|exact IH].
  intros i child. unfold on_code. now destruct (supported (md_lang child)).
Qed.

(** C6.  A block tagged [toString], a tag [SUPPORTED_LANG] does not list,
    passes the test [SUPPORTED_LANG[node.lang]] through the property every
    object inherits, and becomes a test case of the compiled suite: the
    document has no block with an allow-listed tag and one test case. *)
Theorem inherited_tag_becomes_test_case :
  SUPPORTED_LANG !! "toString" = None /\
  allow_listed (Some "toString") = false /\
  supported (Some "toString") = true /\
  count_code allow_listed Samples.inherited_tag_document = 0 /\
  mdastVisitNode Samples.flatten Samples.inherited_tag_document
  = Ok [ {| TestCase.title := None; TestCase.lang := Some "toString";
            TestCase.value := Samples.source_x |} ] /\
  compile (fun _ => Samples.inherited_tag_document) Samples.flatten
    Samples.toy_parse Samples.no_collision "runtime.js" "polyfill.js" ""
    Samples.no_options
  = Ok (program
          [ import_bare "polyfill.js";
            import_namespace "__MochaDoctestRuntime" "runtime.js";
            import_default "assert" "assert";
            stmt_describe (stringLiteral "Suite")
              (caseExpression
                 [stmt_it (stringLiteral "works")
                    (caseExpression
                       [ExpressionStatement
                          (callExpression (runtime "assertRepr")
                             [identifier "x"; stringLiteral "1"])
                          (Some []) (Some [ {| value := " => 1"; start := 36 |} ])
                          true]
                       true)]
                 false) ]).
Proof. repeat split; vm_compute; reflexivity. Qed.

(** ** Claims C7 and C10: the module reference remapper *)

Lemma append_cancel_l (a b c : string) : a +:+ b = a +:+ c -> b = c.
Proof. induction a as [|x a IH]; simpl; [auto | intros [= H]; auto]. Qed.

Lemma append_longer (a b : string) : b <> "" -> a +:+ b <> a.
Proof.
  intros Hb E. apply Hb. apply (append_cancel_l a). now rewrite append_empty_r.
Qed.

Lemma slice_from_app (a b : string) : slice_from (String.length a) (a +:+ b) = b.
Proof. induction a as [|x a IH]; simpl; [now destruct b | exact IH]. Qed.

Lemma starts_with_spec (prefix source : string) :
  Remapper.starts_with prefix source = true <-> exists rest, source = prefix +:+ rest.
Proof.
  unfold Remapper.starts_with. rewrite bool_decide_eq_true. split.
  - intros [rest H]. exists rest. now apply strip_prefix_spec.
  - intros [rest ->]. exists rest. apply strip_prefix_app.
Qed.

Section RemapperFacts.

Variable findPackageJSON : string -> option Manifest.t.
Variable cwd : list string.

Lemma fresh_consistent : cache_consistent findPackageJSON Remapper.fresh.
Proof. intros d v H. simpl in H. now rewrite lookup_empty in H. Qed.

Lemma fresh_walks_cached : walks_cached Remapper.fresh.
Proof. split; [constructor | intros d H; simpl in H; now apply elem_of_nil in H]. Qed.

Lemma lookup_consistent (st : Remapper.state) (dirname : string) :
  cache_consistent findPackageJSON st ->
  cache_consistent findPackageJSON (Remapper.lookup findPackageJSON st dirname).
Proof.
  intros Hc. unfold Remapper.lookup.
  destruct (JsObject.get (Remapper.packageJSONCache st) dirname); try exact Hc.
  intros d v. simpl. rewrite lookup_insert.
  case_decide; [intros [= <-]; now subst | apply Hc].
Qed.

(** After the lookup the cache holds, for a directory that is not named
    like an inherited property, what the walk from it finds. *)
Lemma lookup_get (st : Remapper.state) (dirname : string) :
  cache_consistent findPackageJSON st ->
  JsObject.inherited dirname = false ->
  JsObject.get
    (Remapper.packageJSONCache (Remapper.lookup findPackageJSON st dirname)) dirname
  = JsObject.Own (findPackageJSON dirname).
Proof.
  intros Hc Hi. unfold Remapper.lookup, JsObject.get.
  destruct (Remapper.packageJSONCache st !! dirname) as [v|] eqn:E.
  - rewrite E. f_equal. now apply Hc.
  - rewrite Hi. simpl. now rewrite lookup_insert_eq.
Qed.

Lemma lookup_walks_cached (st : Remapper.state) (dirname : string) :
  walks_cached st ->
  walks_cached (Remapper.lookup findPackageJSON st dirname).
Proof.
  intros [Hnd Hc]. unfold Remapper.lookup, JsObject.get.
  destruct (Remapper.packageJSONCache st !! dirname) as [v|] eqn:E;
    [now split|].
  destruct (JsObject.inherited dirname); [now split|].
  split; simpl.
  - apply NoDup_app. split; [exact Hnd|]. split; [|apply NoDup_singleton].
    intros d Hd ->%list_elem_of_singleton.
    destruct (Hc _ Hd) as [v Hv]. congruence.
  - intros d [Hd | ->%list_elem_of_singleton]%elem_of_app.
    + rewrite lookup_insert. case_decide; [eauto | now apply Hc].
    + rewrite lookup_insert_eq. eauto.
Qed.

Lemma resolveModuleSource_state (st : Remapper.state) (source filename : string) :
  fst (Remapper.resolveModuleSource findPackageJSON cwd st source filename)
  = Remapper.lookup findPackageJSON st (Path.dirname filename).
Proof. reflexivity. Qed.

Lemma run_walks_cached (requests : list (string * string)) :
  forall st,
    walks_cached st ->
    walks_cached (fst (Remapper.run findPackageJSON cwd st requests)).
Proof.
  induction requests as [|[source filename] requests IH]; intros st Hst;
    [exact Hst|].
  cbn [Remapper.run].
  pose proof (resolveModuleSource_state st source filename) as Hfst.
  destruct (Remapper.resolveModuleSource findPackageJSON cwd st source filename)
    as [st' [r | e |]]; simpl in Hfst; subst st'.
  - specialize (IH _ (lookup_walks_cached st (Path.dirname filename) Hst)).
    destruct (Remapper.run findPackageJSON cwd _ requests) as [st'' rs].
    exact IH.
  - now apply lookup_walks_cached.
  - now apply lookup_walks_cached.
Qed.

End RemapperFacts.

Example dirname_examples :
  Path.dirname "/pkg/docs/readme.md" = "/pkg/docs" /\
  Path.dirname "/readme.md" = "/" /\
  Path.dirname "readme.md" = "." /\
  Path.dirname "docs/readme.md" = "docs" /\
  Path.dirname "/pkg/docs/" = "/pkg" /\
  Path.dirname "" = "." /\
  Path.relative [] "/pkg/docs/api" "/pkg/lib" = "../../lib" /\
  Path.relative ["home"; "me"] "docs" "." = "..".
Proof. repeat split. Qed.

(** The directory of an absolute file name is absolute, and no absolute
    path names a property of [Object.prototype]. *)
Lemma dirname_absolute (filename : string) :
  Path.is_absolute filename = true ->
  Path.is_absolute (Path.dirname filename) = true.
Proof.
  destruct filename as [|c rest]; [discriminate|]. simpl. intros Hc.
  unfold Path.dirname.
  destruct (Path.drop_while _ _) as [|x [|y kept]]; now rewrite ?Hc.
Qed.

Lemma absolute_not_inherited (dirname : string) :
  Path.is_absolute dirname = true -> JsObject.inherited dirname = false.
Proof.
  destruct dirname as [|c rest]; [discriminate|]. simpl. intros Hc.
  apply Ascii.eqb_eq in Hc. subst c.
  apply bool_decide_eq_false_2. unfold JsObject.Object_prototype. intros H.
  repeat (apply elem_of_cons in H as [H | H]; [discriminate|]).
  now apply elem_of_nil in H.
Qed.

(** C7, as the claim words it, fails.  From a file in [/pkg/docs], with the
    manifest of package [foo] in [/pkg], the specifier [foo] is rewritten to
    the relative path followed by a separator, [../], not to [..]. *)
Lemma bare_specifier_counterexample :
  Path.dirname "/pkg/docs/readme.md" = "/pkg/docs" /\
  Samples.foo_files "/pkg/docs" = Some Samples.foo_manifest /\
  Path.relative [] "/pkg/docs" (Path.dirname "/pkg/package.json") = ".." /\
  snd (Remapper.resolveModuleSource Samples.foo_files [] Remapper.fresh
         "foo" "/pkg/docs/readme.md") = Ok "../" /\
  snd (Remapper.resolveModuleSource Samples.foo_files [] Remapper.fresh
         "foo" "/pkg/docs/readme.md") <> Ok "..".
Proof. repeat split; try (vm_compute; reflexivity). vm_compute. discriminate. Qed.

(** C7, amended.  Take a cache that agrees with the file system and a file
    whose directory is not named like a property of [Object.prototype].
    When the walk from the directory finds a manifest with a name: the
    specifier equal to the name becomes the relative path from the
    directory to the manifest's directory, or [.] when that path is empty,
    followed by a separator; a specifier made of the name, a separator and
    a remainder becomes that relative path, the separator and the
    remainder; every other specifier is returned as it is.  When the walk
    finds no manifest every specifier is returned as it is. *)
Theorem specifier_remapped
    (findPackageJSON : string -> option Manifest.t) (cwd : list string)
    (st : Remapper.state) (source filename : string) :
  cache_consistent findPackageJSON st ->
  JsObject.inherited (Path.dirname filename) = false ->
  (forall m name,
     findPackageJSON (Path.dirname filename) = Some m ->
     Manifest.name m = Some name ->
     (source = name ->
        snd (Remapper.resolveModuleSource findPackageJSON cwd st source filename)
        = Ok (Remapper.packageDirname cwd (Path.dirname filename) m +:+ "/")) /\
     (forall rest,
        source = name +:+ "/" +:+ rest ->
        snd (Remapper.resolveModuleSource findPackageJSON cwd st source filename)
        = Ok (Remapper.packageDirname cwd (Path.dirname filename) m
              +:+ "/" +:+ rest)) /\
     (source <> name ->
      (forall rest, source <> name +:+ "/" +:+ rest) ->
        snd (Remapper.resolveModuleSource findPackageJSON cwd st source filename)
        = Ok source) /\
     (Path.relative cwd (Path.dirname filename) (Path.dirname (Manifest.__path m)) = "" ->
        Remapper.packageDirname cwd (Path.dirname filename) m = ".") /\
     (Path.relative cwd (Path.dirname filename) (Path.dirname (Manifest.__path m)) <> "" ->
        Remapper.packageDirname cwd (Path.dirname filename) m
        = Path.relative cwd (Path.dirname filename)
            (Path.dirname (Manifest.__path m)))) /\
  (findPackageJSON (Path.dirname filename) = None ->
     snd (Remapper.resolveModuleSource findPackageJSON cwd st source filename)
     = Ok source).
Proof.
  intros Hc Hi.
  assert (Hget := lookup_get findPackageJSON st (Path.dirname filename) Hc Hi).
  split.
  - intros m name Hm Hname. rewrite Hm in Hget.
    unfold Remapper.resolveModuleSource. cbn [snd]. rewrite Hget, Hname.
    split; [|split; [|split; [|split]]].
    + intros ->. now rewrite String.eqb_refl.
    + intros rest ->.
      assert (Hne : String.eqb (name +:+ "/" +:+ rest) name = false).
      { apply String.eqb_neq. now apply append_longer. }
      rewrite Hne.
      assert (Hsw : Remapper.starts_with (name +:+ "/") (name +:+ "/" +:+ rest) = true).
      { apply starts_with_spec. exists rest. now rewrite append_assoc. }
      rewrite Hsw, slice_from_app. reflexivity.
    + intros Hne Hrest. apply String.eqb_neq in Hne. rewrite Hne.
      destruct (Remapper.starts_with (name +:+ "/") source) eqn:Hsw; [|reflexivity].
      apply starts_with_spec in Hsw as [rest ->]. exfalso.
      apply (Hrest rest). now rewrite append_assoc.
    + intros Hrel. unfold Remapper.packageDirname. now rewrite Hrel.
    + intros Hrel. unfold Remapper.packageDirname.
      destruct (Path.relative cwd (Path.dirname filename)
                  (Path.dirname (Manifest.__path m))); [contradiction | reflexivity].
  - intros Hm. rewrite Hm in Hget.
    unfold Remapper.resolveModuleSource. cbn [snd]. now rewrite Hget.
Qed.

Lemma specifier_remapped_witness :
  snd (Remapper.resolveModuleSource Samples.foo_files [] Remapper.fresh
         "foo/sub" "/pkg/docs/readme.md")
  = Ok (Remapper.packageDirname [] (Path.dirname "/pkg/docs/readme.md")
          Samples.foo_manifest +:+ "/" +:+ "sub").
Proof.
  apply (specifier_remapped Samples.foo_files [] Remapper.fresh
           "foo/sub" "/pkg/docs/readme.md"
           (fresh_consistent Samples.foo_files) eq_refl)
    with (name := "foo"); reflexivity.
Defined.

(** The specifiers of the specification's sample, and more. *)
Example remapped_examples :
  snd (Remapper.resolveModuleSource Samples.foo_files [] Remapper.fresh
         "foo/sub" "/pkg/docs/readme.md") = Ok "../sub" /\
  snd (Remapper.resolveModuleSource Samples.foo_files [] Remapper.fresh
         "foo" "/pkg/readme.md") = Ok "./" /\
  snd (Remapper.resolveModuleSource Samples.foo_files [] Remapper.fresh
         "foo/sub" "/pkg/readme.md") = Ok "./sub" /\
  snd (Remapper.resolveModuleSource Samples.foo_files [] Remapper.fresh
         "foobar" "/pkg/docs/readme.md") = Ok "foobar" /\
  snd (Remapper.resolveModuleSource Samples.foo_files [] Remapper.fresh
         "foo" "/elsewhere/readme.md") = Ok "foo".
Proof. repeat split; vm_compute; reflexivity. Qed.

(** A relative file name whose directory is named like an inherited
    property: the cache object answers with the inherited value, the file
    system is not consulted, and the specifier equal to the value's name
    makes the hook throw. *)
Example inherited_directory :
  Path.dirname "constructor/readme.md" = "constructor" /\
  Remapper.resolveModuleSource Samples.foo_files [] Remapper.fresh
    "Object" "constructor/readme.md"
  = (Remapper.fresh, Throw (TypeError "Path must be a string. Received undefined")) /\
  snd (Remapper.resolveModuleSource Samples.foo_files [] Remapper.fresh
         "foo" "constructor/readme.md") = Ok "foo".
Proof. repeat split; vm_compute; reflexivity. Qed.

(** C10.  The hook calls of one compilation start from an empty cache, in
    which every directory not named like an inherited property is
    undefined; during the calls the file system is walked at most once from
    any directory; a walk that finds no manifest leaves [null] in the
    cache, which is not undefined, so that the next lookup of the directory
    changes nothing and walks nothing. *)
Theorem manifest_cache
    (findPackageJSON : string -> option Manifest.t) (cwd : list string)
    (requests : list (string * string)) :
  Remapper.session findPackageJSON cwd requests
  = Remapper.run findPackageJSON cwd
      {| Remapper.packageJSONCache := ∅; Remapper.walks := [] |} requests /\
  (forall dirname,
     JsObject.inherited dirname = false ->
     JsObject.get (Remapper.packageJSONCache Remapper.fresh) dirname
     = JsObject.Undefined) /\
  NoDup (Remapper.walks (fst (Remapper.session findPackageJSON cwd requests))) /\
  (forall dirname,
     count_occ string_dec
       (Remapper.walks (fst (Remapper.session findPackageJSON cwd requests)))
       dirname <= 1) /\
  (forall st dirname,
     JsObject.get (Remapper.packageJSONCache st) dirname = JsObject.Undefined ->
     findPackageJSON dirname = None ->
     Remapper.walks (Remapper.lookup findPackageJSON st dirname)
     = Remapper.walks st ++ [dirname] /\
     JsObject.get
       (Remapper.packageJSONCache (Remapper.lookup findPackageJSON st dirname))
       dirname = JsObject.Own None /\
     Remapper.lookup findPackageJSON
       (Remapper.lookup findPackageJSON st dirname) dirname
     = Remapper.lookup findPackageJSON st dirname).
Proof.
  assert (Hnd : NoDup (Remapper.walks
                         (fst (Remapper.session findPackageJSON cwd requests)))).
  { apply (run_walks_cached findPackageJSON cwd requests), fresh_walks_cached. }
  split; [reflexivity|]. split; [|split; [exact Hnd|split]].
  - intros dirname Hi. unfold JsObject.get. simpl.
    now rewrite lookup_empty, Hi.
  - intros dirname. apply NoDup_ListNoDup in Hnd.
    now apply (proj1 (List.NoDup_count_occ string_dec _)).
  - intros st dirname Hget Hfs.
    assert (Hown : JsObject.get
                     (Remapper.packageJSONCache
                        (Remapper.lookup findPackageJSON st dirname)) dirname
                   = JsObject.Own None).
    { unfold Remapper.lookup. rewrite Hget. unfold JsObject.get. simpl.
      now rewrite lookup_insert_eq, Hfs. }
    split; [|split; [exact Hown|]].
    + unfold Remapper.lookup. now rewrite Hget.
    + unfold Remapper.lookup at 1. now rewrite Hown.
Qed.

(** Two files of one directory and one of another: two walks. *)
Example two_walks :
  Remapper.walks
    (fst (Remapper.session Samples.foo_files []
            [("foo", "/pkg/docs/a.md"); ("foo/sub", "/pkg/docs/b.md");
             ("foo", "/elsewhere/c.md"); ("bar", "/elsewhere/d.md")]))
  = ["/pkg/docs"; "/elsewhere"] /\
  snd (Remapper.session Samples.foo_files []
         [("foo", "/pkg/docs/a.md"); ("foo/sub", "/pkg/docs/b.md");
          ("foo", "/elsewhere/c.md"); ("bar", "/elsewhere/d.md")])
  = Ok ["../"; "../sub"; "foo"; "bar"].
Proof. split; vm_compute; reflexivity. Qed.



(** * Further properties of the code *)

(** ** The annotation patterns and [parseExpectationFromNode] *)

(** X1.  The two patterns are unambiguous: a comment line matches
    [REPR_ASSERTION_RE] in at most one way, matches [ERR_ASSSERTION_RE] in
    at most one way (one name, one message), and never matches both, so the
    order in which [findAssertion] tries them decides nothing. *)
Theorem patterns_unambiguous (s : string) :
  (forall t1 t2, matches_repr s t1 -> matches_repr s t2 -> t1 = t2) /\
  (forall n1 t1 n2 t2,
     matches_error s n1 t1 -> matches_error s n2 t2 -> n1 = n2 /\ t1 = t2) /\
  (forall t n t', matches_repr s t -> ~ matches_error s n t').
Proof.
  split; [|split].
  - intros t1 t2 H1%REPR_ASSERTION_RE_spec H2%REPR_ASSERTION_RE_spec. congruence.
  - intros n1 t1 n2 t2 H1%ERR_ASSSERTION_RE_spec H2%ERR_ASSSERTION_RE_spec.
    rewrite H1 in H2. now injection H2.
  - intros t n t' Hr He%ERR_ASSSERTION_RE_spec.
    rewrite (repr_excludes_error s t Hr) in He. discriminate.
Qed.


(** X2.  What the author writes comes back.  A first comment made of white
    space, [=> ] and any text is classified as a Repr annotation and parsed
    to exactly that text (later spaces, quotes and all), followed by the
    continuation lines; a first comment made of white space, letters,
    [Error: ] and any text is classified as an Error annotation and parsed
    to the name (the letters and [Error]) and to that text. *)
Theorem annotation_round_trip
    (e : node) (lc : comments) (ws x text : string) (offset : nat)
    (rest : list JSASTComment) (seen : bool) :
  all is_space ws = true ->
  all is_letter x = true ->
  (findAssertion
     (ExpressionStatement e lc
        (Some ({| value := ws +:+ "=> " +:+ text; start := offset |} :: rest)) seen)
   = Some repr /\
   parseExpectationFromNode
     (ExpressionStatement e lc
        (Some ({| value := ws +:+ "=> " +:+ text; start := offset |} :: rest)) seen)
     repr
   = Ok (ExpectRepr (stringLiteral (join newline (text :: continuation_lines rest))))) /\
  (findAssertion
     (ExpressionStatement e lc
        (Some ({| value := ws +:+ (x +:+ "Error") +:+ ": " +:+ text; start := offset |}
               :: rest)) seen)
   = Some error /\
   parseExpectationFromNode
     (ExpressionStatement e lc
        (Some ({| value := ws +:+ (x +:+ "Error") +:+ ": " +:+ text; start := offset |}
               :: rest)) seen)
     error
   = Ok (ExpectError (stringLiteral (x +:+ "Error"))
           (stringLiteral (join newline (text :: continuation_lines rest))))).
Proof.
  intros Hws Hx.
  assert (Hr : REPR_ASSERTION_RE (ws +:+ "=> " +:+ text) = Some text).
  { apply REPR_ASSERTION_RE_spec. now exists ws. }
  assert (He : ERR_ASSSERTION_RE (ws +:+ (x +:+ "Error") +:+ ": " +:+ text)
               = Some (x +:+ "Error", text)).
  { apply ERR_ASSSERTION_RE_spec. now exists ws, x. }
  assert (Hn : REPR_ASSERTION_RE (ws +:+ (x +:+ "Error") +:+ ": " +:+ text) = None).
  { destruct (REPR_ASSERTION_RE (ws +:+ (x +:+ "Error") +:+ ": " +:+ text))
      as [t|] eqn:E; [|reflexivity].
    apply REPR_ASSERTION_RE_spec in E.
    rewrite (repr_excludes_error _ t E) in He. discriminate. }
  split; split.
  - cbn [findAssertion value]. now rewrite Hr.
  - now apply parse_repr.
  - cbn [findAssertion value]. now rewrite Hn, He.
  - now apply parse_error.
Qed.

Lemma annotation_round_trip_witness :
  (findAssertion
     (ExpressionStatement (identifier "x") None
        (Some ({| value := "  " +:+ "=> " +:+ "bad input"; start := 3 |} :: [])) false)
   = Some repr /\
   parseExpectationFromNode
     (ExpressionStatement (identifier "x") None
        (Some ({| value := "  " +:+ "=> " +:+ "bad input"; start := 3 |} :: [])) false)
     repr
   = Ok (ExpectRepr (stringLiteral (join newline ("bad input" :: continuation_lines []))))) /\
  (findAssertion
     (ExpressionStatement (identifier "x") None
        (Some ({| value := "  " +:+ ("Type" +:+ "Error") +:+ ": " +:+ "bad input";
                  start := 3 |} :: []))
        false)
   = Some error /\
   parseExpectationFromNode
     (ExpressionStatement (identifier "x") None
        (Some ({| value := "  " +:+ ("Type" +:+ "Error") +:+ ": " +:+ "bad input";
                  start := 3 |} :: []))
        false)
     error
   = Ok (ExpectError (stringLiteral ("Type" +:+ "Error"))
           (stringLiteral (join newline ("bad input" :: continuation_lines []))))).
Proof.
  apply (annotation_round_trip (identifier "x") None "  " "Type" "bad input" 3 []
           false);
    reflexivity.
Defined.


(** ** The traversal *)

(** X4.  The traversal terminates.  With the depth of a node as fuel, or
    with more, the traversal of the node's keys returns or throws, and so
    does the visit of a list with more fuel than the depth of its nodes;
    [traverse], which takes the depth of the root, returns a tree or throws
    for every root and every import list.  The marker is what makes the
    depth enough: a replacement is queued and entered again, and it is
    less deep than the statement it replaces. *)
Theorem traversal_terminates :
  (forall fuel n il, depth n <= fuel -> returns (descend fuel n il)) /\
  (forall fuel cs il,
     list_max (map depth cs) < fuel -> returns (visit_list fuel (pending cs) il)) /\
  (forall n r, enter n = Ok (ReplaceWithMultiple r) ->
     depth (inheritsComments r n) < depth n) /\
  (forall crawl root il,
     (exists r, traverse crawl root il = Ok r) \/
     (exists e, traverse crawl root il = Throw e)).
Proof.
  split; [|split; [|split]].
  - intros fuel. apply fuel_enough.
  - intros fuel cs il H. apply fuel_enough. unfold pending.
    apply Forall_map, Forall_forall. intros x Hx _. simpl.
    assert (depth x <= list_max (map depth cs)); [|lia].
    apply list_max_elem. apply list_elem_of_In, in_map, list_elem_of_In, Hx.
  - intros n r H. pose proof (enter_replace_depth n r H). lia.
  - intros crawl root il. pose proof (traverse_returns crawl root il) as H.
    destruct (traverse crawl root il) as [r|e|]; [left | right | contradiction];
      eexists; reflexivity.
Qed.

(** With too little fuel the traversal reports that, and nothing else. *)
Example too_little_fuel :
  descend 3 Fixtures.nested_block [] = OutOfFuel /\
  depth Fixtures.nested_block = 36.
Proof. split; vm_compute; reflexivity. Qed.

(** X5.  [compile] returns a program or throws; the fuel its traversals are
    given is always enough, whatever the document and whatever the parser
    returns. *)
Theorem compile_returns_or_throws
    (Remark_parse : string -> mdast) (mdastToString : mdast -> string)
    (Babylon_parse : string -> exn + node) (crawl : node -> option exn)
    (RUNTIME POLYFILL : string) (source : string) (options : Options) :
  (exists p,
     compile Remark_parse mdastToString Babylon_parse crawl RUNTIME POLYFILL
       source options = Ok p) \/
  (exists e,
     compile Remark_parse mdastToString Babylon_parse crawl RUNTIME POLYFILL
       source options = Throw e).
Proof.
  unfold compile, mdastVisitNode.
  destruct (String.eqb _ "code"); [right; eexists; reflexivity|].
  cbn [mbind outcome_bind].
  pose proof (forEach_returns Babylon_parse crawl
                (visit_children mdastToString (Remark_parse source)) ([], [])) as H.
  destruct (forEach _ _ _) as [[il cl]|e|]; cbn [mbind outcome_bind];
    [left | right | contradiction]; eexists; reflexivity.
Qed.

(** ** Trees without imports *)

(** X6.  One assertion for every annotation.  In a sample without import
    declarations and labeled statements, in which every statement that
    [enter] replaces stands in an array or in a key that holds a statement,
    the traversal returns, finds no import, and leaves as many more marked
    statements as the sample has statements that [enter] replaces, nested
    ones included; no statement is left for [enter] to replace. *)
Theorem one_assertion_per_annotation
    (crawl : node -> option exn) (t : node_type) (fs : list (field node))
    (lc tc : comments) (il : list node) :
  t = File \/ t = Program ->
  crawl (Node t fs lc tc) = None ->
  rewritable (Node t fs lc tc) = true ->
  exists root',
    traverse crawl (Node t fs lc tc) il = Ok (root', il) /\
    count_marked root'
    = count_marked (Node t fs lc tc) + count_annotated (Node t fs lc tc) /\
    count_annotated root' = 0.
Proof.
  intros Ht Hc Hr. exists (rewritten (Node t fs lc tc)).
  split; [now apply traverse_rewritten|].
  split; [now apply count_rewritten | now apply count_annotated_rewritten].
Qed.

Lemma one_assertion_per_annotation_witness :
  exists root',
    traverse Samples.no_collision
      (Node File
         [Single "program"
            (program
               [Node (FunctionDeclaration true)
                  [ Single "id" (identifier "testcase"); Multiple "params" [];
                    Single "body" (blockStatement Fixtures.nested_statements) ]
                  None None])] None None) []
    = Ok (root', []) /\
    count_marked root'
    = count_marked
        (Node File
           [Single "program"
              (program
                 [Node (FunctionDeclaration true)
                    [ Single "id" (identifier "testcase"); Multiple "params" [];
                      Single "body" (blockStatement Fixtures.nested_statements) ]
                    None None])] None None)
      + count_annotated
          (Node File
             [Single "program"
                (program
                   [Node (FunctionDeclaration true)
                      [ Single "id" (identifier "testcase"); Multiple "params" [];
                        Single "body" (blockStatement Fixtures.nested_statements) ]
                      None None])] None None) /\
    count_annotated root' = 0.
Proof.
  apply (one_assertion_per_annotation Samples.no_collision File
           [Single "program"
              (program
                 [Node (FunctionDeclaration true)
                    [ Single "id" (identifier "testcase"); Multiple "params" [];
                      Single "body" (blockStatement Fixtures.nested_statements) ]
                    None None])] None None []);
    [now left | reflexivity | reflexivity].
Defined.

(** The sample of the fixtures holds two annotated statements, one inside
    the other, and a statement without annotation: two statements are
    marked in the end.  A comment that an import hands to the statement
    after it makes one more. *)
Example nested_statements_counts :
  count_annotated (sample_file Fixtures.nested_statements []) = 2 /\
  count_marked (sample_file Fixtures.nested_statements []) = 0 /\
  count_marked (rewritten (sample_file Fixtures.nested_statements [])) = 2 /\
  count_annotated
    (sample_file
       (ImportDeclaration [] "b" (Some [ {| value := " => 1"; start := 34 |} ]) None
        :: Fixtures.plain_statements) []) = 0 /\
  (exists root',
     traverse Samples.no_collision
       (sample_file
          (ImportDeclaration [] "b" (Some [ {| value := " => 1"; start := 34 |} ]) None
           :: Fixtures.plain_statements) []) []
     = Ok (root', [ImportDeclaration [] "b"
                     (Some [ {| value := " => 1"; start := 34 |} ]) None]) /\
     count_marked root' = 1).
Proof.
  repeat split; try reflexivity. eexists. split; reflexivity.
Qed.

(** X7.  Statements keep their places.  A sample without import
    declarations and labeled statements, in which every statement that
    [enter] replaces stands in an array or in a key that holds a statement,
    is compiled to a case whose body holds, in the place of every
    statement of the sample, what the rewriter makes of that statement:
    the statement with its keys rewritten if [enter] does not replace it,
    and else a marked statement; nothing is added to the import list. *)
Theorem statements_keep_their_places
    (Babylon_parse : string -> exn + node) (crawl : node -> option exn)
    (testCase : TestCase.t) (stmts extra : list node) (il cl : list node) :
  parses_to Babylon_parse testCase (stmts, extra) ->
  crawl (sample_file stmts extra) = None ->
  forallb rewritable stmts = true ->
  forallb rewritable extra = true ->
  compile_case Babylon_parse crawl testCase (il, cl)
  = Ok (il,
        cl ++ [Expected.case (Expected.or_default (TestCase.title testCase) "works")
                 (map rewritten stmts)]) /\
  length (map rewritten stmts) = length stmts /\
  (forall i s,
     stmts !! i = Some s ->
     (replaces s = false ->
      map rewritten stmts !! i = Some (rewritten_keys rewritten s)) /\
     (replaces s = true ->
      exists e lc tc,
        map rewritten stmts !! i = Some (ExpressionStatement e lc tc true))).
Proof.
  intros Hp Hc Hs He. split; [|split].
  - unfold parses_to in Hp. simpl in Hp.
    unfold compile_case, parse. rewrite Hp. cbn [mbind outcome_bind].
    unfold sample_file in *.
    rewrite traverse_rewritten; [| now left | exact Hc | cbn; now rewrite Hs, He].
    cbn [mbind outcome_bind]. rewrite or_else_spec. reflexivity.
  - apply length_map.
  - intros i s Hi. rewrite list_lookup_fmap, Hi. cbn [fmap option_fmap option_map].
    split.
    + intros Hr. now rewrite rewritten_not_replaced.
    + intros Hr. destruct s as [e lc tc seen | | |]; try discriminate.
      rewrite rewritten_ES. unfold entered. unfold replaces in Hr.
      destruct (enter_ES_shape lc tc seen)
        as [H | [(_ & text & H) | (_ & name & text & H)]];
        rewrite !H in *; [discriminate | |]; eexists _, _, _; reflexivity.
Qed.

Lemma statements_keep_their_places_witness :
  compile_case Fixtures.nested_parse Samples.no_collision Fixtures.nested_case ([], [])
  = Ok ([],
        [] ++ [Expected.case
                 (Expected.or_default (TestCase.title Fixtures.nested_case) "works")
                 (map rewritten Fixtures.nested_statements)]) /\
  length (map rewritten Fixtures.nested_statements)
  = length Fixtures.nested_statements /\
  (forall i s,
     Fixtures.nested_statements !! i = Some s ->
     (replaces s = false ->
      map rewritten Fixtures.nested_statements !! i
      = Some (rewritten_keys rewritten s)) /\
     (replaces s = true ->
      exists e lc tc,
        map rewritten Fixtures.nested_statements !! i
        = Some (ExpressionStatement e lc tc true))).
Proof.
  apply (statements_keep_their_places Fixtures.nested_parse Samples.no_collision
           Fixtures.nested_case Fixtures.nested_statements [] [] []); reflexivity.
Defined.

(** What the rewriter makes of the nested statements: the inner statement
    is rewritten inside the replacement of the outer one. *)
Example nested_statements_rewritten :
  map rewritten Fixtures.nested_statements
  = [ ExpressionStatement
        (Expected.repr_call
           (Expected.call (Expected.ident "f")
              [Expected.function_literal false
                 [ExpressionStatement
                    (Expected.repr_call (Expected.call (Expected.ident "g") []) "2")
                    (Some []) (Some [ {| value := " => 2"; start := 55 |} ]) true]])
           "1")
        (Some []) (Some [ {| value := " => 1"; start := 67 |} ]) true;
      ExpressionStatement (Expected.call (Expected.ident "h") [])
        (Some [ {| value := " => 1"; start := 67 |} ]) None false ].
Proof. reflexivity. Qed.

(** X8.  A sample without annotations and without import declarations is
    compiled to a case whose body is the sample's statements, unchanged and
    in order, and nothing is added to the import list; when building the
    scopes of the sample throws, that error is what the sample's
    compilation throws. *)
Theorem plain_sample_kept
    (Babylon_parse : string -> exn + node) (crawl : node -> option exn)
    (testCase : TestCase.t) (stmts extra : list node) (il cl : list node) :
  parses_to Babylon_parse testCase (stmts, extra) ->
  forallb settled stmts = true ->
  forallb settled extra = true ->
  compile_case Babylon_parse crawl testCase (il, cl)
  = match crawl (sample_file stmts extra) with
    | Some e => Throw e
    | None =>
        Ok (il,
            cl ++ [stmt_it (stringLiteral (or_else (TestCase.title testCase) "works"))
                     (caseExpression stmts true)])
    end.
Proof.
  intros Hp Hs He. unfold parses_to in Hp. simpl in Hp.
  unfold compile_case, parse. rewrite Hp. cbn [mbind outcome_bind].
  destruct (crawl (sample_file stmts extra)) as [e|] eqn:Hc.
  - unfold traverse, sample_file in *. now rewrite Hc.
  - unfold sample_file in *.
    rewrite traverse_settled; [reflexivity | now left | exact Hc |].
    simpl. now rewrite Hs, He.
Qed.

Lemma plain_sample_kept_witness :
  compile_case Fixtures.plain_parse Samples.no_collision Fixtures.plain_case ([], [])
  = match Samples.no_collision (sample_file Fixtures.plain_statements []) with
    | Some e => Throw e
    | None =>
        Ok ([],
            [] ++ [stmt_it
                     (stringLiteral
                        (or_else (TestCase.title Fixtures.plain_case) "works"))
                     (caseExpression Fixtures.plain_statements true)])
    end.
Proof.
  apply (plain_sample_kept Fixtures.plain_parse Samples.no_collision
           Fixtures.plain_case Fixtures.plain_statements [] [] []); reflexivity.
Defined.

(** ** The order of the imports *)

(** X9.  When no expression statement of a tree holds an import
    declaration, [traverse] appends the import declarations of the tree to
    the import list in the order of the text, each with the comments it has
    when it is entered, and as many as the tree holds. *)
Theorem imports_in_source_order
    (crawl : node -> option exn) (root : node) (il : list node)
    (root' : node) (il' : list node) :
  statements_import_free root = true ->
  traverse crawl root il = Ok (root', il') ->
  exists hoisted,
    il' = il ++ hoisted /\
    map removeComments hoisted = map removeComments (imports_of root) /\
    length hoisted = imports_in root /\
    import_free root' = true.
Proof.
  intros Hs H. destruct (traverse_ordered _ _ _ _ _ Hs H) as (hoisted & -> & Hh).
  exists hoisted. split; [reflexivity|]. split; [exact Hh|].
  pose proof (traverse_census _ _ _ _ _ H) as Hc. rewrite length_app in Hc.
  split; [lia|]. now apply traverse_sound in H.
Qed.

Lemma imports_in_source_order_witness :
  exists hoisted,
    [ ImportDeclaration [importSpecifier ImportDefaultSpecifier "a"] "a" None
        (Some [ {| value := " first"; start := 53 |} ]);
      ImportDeclaration [importSpecifier ImportDefaultSpecifier "b"] "b"
        (Some [ {| value := " => 1"; start := 67 |} ]) None;
      ImportDeclaration [importSpecifier ImportDefaultSpecifier "c"] "c" None None ]
    = [] ++ hoisted /\
    map removeComments hoisted
    = map removeComments (imports_of (sample_file Fixtures.scattered_imports [])) /\
    length hoisted = imports_in (sample_file Fixtures.scattered_imports []) /\
    import_free
      (sample_file
         [ ExpressionStatement
             (Expected.repr_call (Expected.call (Expected.ident "f") []) "1")
             (Some [ {| value := " first"; start := 53 |} ])
             (Some [ {| value := " => 1"; start := 67 |};
                     {| value := " => 1"; start := 67 |} ]) true;
           Node (OtherType "IfStatement" "")
             [ Single "test" (identifier "x");
               Single "consequent" (Node BlockStatement [Multiple "body" []]
                                      (Some []) (Some [])) ] None None ] [])
    = true.
Proof.
  apply (imports_in_source_order Samples.no_collision
           (sample_file Fixtures.scattered_imports []) []); reflexivity.
Defined.

(** An annotated statement that holds an import declaration is replaced
    before the import is found: the import of the statement after it comes
    first. *)
Example import_in_annotation_found_late :
  statements_import_free (sample_file Fixtures.import_in_annotation []) = false /\
  map removeComments (imports_of (sample_file Fixtures.import_in_annotation []))
  = [ImportDeclaration [importSpecifier ImportDefaultSpecifier "b"] "b" None None;
     ImportDeclaration [importSpecifier ImportDefaultSpecifier "c"] "c" None None] /\
  (exists root' hoisted,
     traverse Samples.no_collision (sample_file Fixtures.import_in_annotation []) []
     = Ok (root', hoisted) /\
     map removeComments hoisted
     = [ImportDeclaration [importSpecifier ImportDefaultSpecifier "c"] "c" None None;
        ImportDeclaration [importSpecifier ImportDefaultSpecifier "b"] "b" None None]).
Proof.
  repeat split. eexists _, _. split; reflexivity.
Qed.

(** ** The scanner *)

Lemma count_code_split (p q r : option string -> bool) :
  (forall l, r l = p l || q l) ->
  (forall l, p l && q l = false) ->
  forall n, count_code r n = count_code p n + count_code q n.
Proof.
  intros Hr Hpq n. induction n as [t l v cs IH] using mdast_ind.
  cbn [count_code].
  induction IH as [|c cs Hc _ IHcs]; [reflexivity|].
  rewrite Hc, IHcs, Hr. specialize (Hpq (md_lang c)).
  destruct (String.eqb (md_type c) "code"), (p (md_lang c)), (q (md_lang c));
    simpl in *; try discriminate; lia.
Qed.

(** X10.  The number of test cases the scanner returns is the number of code
    blocks tagged [js+test] or [javasctipt+test] plus the number of code
    blocks whose tag names a property of [Object.prototype]; a code block
    without a tag, or with any other tag, gives no test case. *)
Theorem test_cases_by_tag (mdastToString : mdast -> string) (root : mdast) :
  length (visit_children mdastToString root)
  = count_code allow_listed root + count_code inherited_tag root.
Proof.
  rewrite scan_count. apply count_code_split.
  - intros l. apply supported_spec.
  - intros [l|]; [|reflexivity]. unfold allow_listed, inherited_tag. simpl.
    destruct (String.eqb l "js+test") eqn:E1.
    { apply String.eqb_eq in E1 as ->. reflexivity. }
    destruct (String.eqb l "javasctipt+test") eqn:E2; [|reflexivity].
    apply String.eqb_eq in E2 as ->. reflexivity.
Qed.

(** ** The cache of the remapper *)

Section CacheFacts.

Variable findPackageJSON : string -> option Manifest.t.
Variable cwd : list string.

Lemma run_invariant (P : Remapper.state -> Prop) :
  (forall st d, P st -> P (Remapper.lookup findPackageJSON st d)) ->
  forall requests st,
    P st -> P (fst (Remapper.run findPackageJSON cwd st requests)).
Proof.
  intros Hstep requests.
  induction requests as [|[source filename] requests IH]; intros st Hst;
    [exact Hst|].
  cbn [Remapper.run].
  pose proof (resolveModuleSource_state findPackageJSON cwd st source filename)
    as Hfst.
  destruct (Remapper.resolveModuleSource findPackageJSON cwd st source filename)
    as [st' [r | e |]]; simpl in Hfst; subst st'.
  - specialize (IH _ (Hstep st (Path.dirname filename) Hst)).
    destruct (Remapper.run findPackageJSON cwd _ requests) as [st'' rs].
    exact IH.
  - now apply Hstep.
  - now apply Hstep.
Qed.

Lemma lookup_clean (st : Remapper.state) (dirname : string) :
  cache_clean st -> cache_clean (Remapper.lookup findPackageJSON st dirname).
Proof.
  intros Hc. unfold Remapper.lookup, JsObject.get.
  destruct (Remapper.packageJSONCache st !! dirname) as [v|] eqn:E; [exact Hc|].
  destruct (JsObject.inherited dirname) eqn:Hi; [exact Hc|].
  intros d v. simpl. rewrite lookup_insert.
  case_decide; [intros _; now subst | apply Hc].
Qed.

Lemma lookup_cache_is_walks (st : Remapper.state) (dirname : string) :
  cache_is_walks st -> cache_is_walks (Remapper.lookup findPackageJSON st dirname).
Proof.
  intros Hc. unfold Remapper.lookup, JsObject.get.
  destruct (Remapper.packageJSONCache st !! dirname) as [v|] eqn:E; [exact Hc|].
  destruct (JsObject.inherited dirname) eqn:Hi; [exact Hc|].
  intros d. simpl. rewrite lookup_insert, elem_of_app, list_elem_of_singleton.
  case_decide.
  - subst. split; [now right | eauto].
  - rewrite (Hc d). split; [now left | intros [H'|H']; [exact H' | congruence]].
Qed.

Lemma lookup_walks_not_inherited (st : Remapper.state) (dirname : string) :
  (forall d, d ∈ Remapper.walks st -> JsObject.inherited d = false) ->
  forall d, d ∈ Remapper.walks (Remapper.lookup findPackageJSON st dirname) ->
            JsObject.inherited d = false.
Proof.
  intros Hw d. unfold Remapper.lookup, JsObject.get.
  destruct (Remapper.packageJSONCache st !! dirname) as [v|] eqn:E; [apply Hw|].
  destruct (JsObject.inherited dirname) eqn:Hi; [apply Hw|].
  simpl. rewrite elem_of_app, list_elem_of_singleton.
  intros [H | ->]; [now apply Hw | exact Hi].
Qed.

Lemma lookup_walks_from (st : Remapper.state) (dirname d : string) :
  d ∈ Remapper.walks (Remapper.lookup findPackageJSON st dirname) ->
  d ∈ Remapper.walks st \/ d = dirname.
Proof.
  unfold Remapper.lookup.
  destruct (JsObject.get _ _); simpl; try (now left).
  rewrite elem_of_app, list_elem_of_singleton. tauto.
Qed.

Lemma run_walks_from (requests : list (string * string)) :
  forall st d,
    d ∈ Remapper.walks (fst (Remapper.run findPackageJSON cwd st requests)) ->
    d ∈ Remapper.walks st \/
    d ∈ map (fun request => Path.dirname (snd request)) requests.
Proof.
  induction requests as [|[source filename] requests IH]; intros st d;
    [now left|].
  cbn [Remapper.run].
  pose proof (resolveModuleSource_state findPackageJSON cwd st source filename)
    as Hfst.
  destruct (Remapper.resolveModuleSource findPackageJSON cwd st source filename)
    as [st' [r | e |]]; simpl in Hfst; subst st'; cbn [map snd].
  - specialize (IH (Remapper.lookup findPackageJSON st (Path.dirname filename)) d).
    destruct (Remapper.run findPackageJSON cwd _ requests) as [st'' rs].
    intros H. destruct (IH H) as [H' | H'].
    + destruct (lookup_walks_from _ _ _ H') as [? | ->];
        [now left | right; now left].
    + right. now right.
  - intros H. destruct (lookup_walks_from _ _ _ H) as [? | ->];
      [now left | right; now left].
  - intros H. destruct (lookup_walks_from _ _ _ H) as [? | ->];
      [now left | right; now left].
Qed.

(** What the hook reads from the cache after its lookup. *)
Lemma lookup_get_any (st : Remapper.state) (dirname : string) :
  cache_consistent findPackageJSON st ->
  cache_clean st ->
  JsObject.get
    (Remapper.packageJSONCache (Remapper.lookup findPackageJSON st dirname)) dirname
  = if JsObject.inherited dirname then JsObject.Inherited dirname
    else JsObject.Own (findPackageJSON dirname).
Proof.
  intros Hc Hclean. destruct (JsObject.inherited dirname) eqn:Hi;
    [|now apply lookup_get].
  unfold Remapper.lookup, JsObject.get.
  destruct (Remapper.packageJSONCache st !! dirname) as [v|] eqn:E.
  - specialize (Hclean _ _ E). congruence.
  - rewrite Hi, E. reflexivity.
Qed.

End CacheFacts.

(** X11.  The cache changes no answer: after any calls of the hook within
    one compilation, a call returns what it returns on the empty cache. *)
Theorem cache_changes_no_answer
    (findPackageJSON : string -> option Manifest.t) (cwd : list string)
    (requests : list (string * string)) (source filename : string) :
  snd (Remapper.resolveModuleSource findPackageJSON cwd
         (fst (Remapper.session findPackageJSON cwd requests)) source filename)
  = snd (Remapper.resolveModuleSource findPackageJSON cwd Remapper.fresh
           source filename).
Proof.
  assert (Hfresh_clean : cache_clean Remapper.fresh).
  { intros d v H. simpl in H. now rewrite lookup_empty in H. }
  assert (Hc : cache_consistent findPackageJSON
                 (fst (Remapper.session findPackageJSON cwd requests))).
  { apply (run_invariant findPackageJSON cwd (cache_consistent findPackageJSON)).
    - intros st d. apply lookup_consistent.
    - apply fresh_consistent. }
  assert (Hclean : cache_clean (fst (Remapper.session findPackageJSON cwd requests))).
  { apply (run_invariant findPackageJSON cwd cache_clean).
    - intros st d. apply lookup_clean.
    - exact Hfresh_clean. }
  unfold Remapper.resolveModuleSource. cbn [snd].
  rewrite (lookup_get_any findPackageJSON _ _ Hc Hclean).
  rewrite (lookup_get_any findPackageJSON _ _
             (fresh_consistent findPackageJSON) Hfresh_clean).
  reflexivity.
Qed.

(** X12.  During the hook calls of one compilation the file system is walked
    only from directories of the files the hook was called for, and never
    from a directory named like a property of [Object.prototype]; the cache
    holds exactly the walked directories, and there are at most as many
    walks as calls. *)
Theorem walks_follow_requests
    (findPackageJSON : string -> option Manifest.t) (cwd : list string)
    (requests : list (string * string)) :
  (forall d,
     d ∈ Remapper.walks (fst (Remapper.session findPackageJSON cwd requests)) ->
     d ∈ map (fun request => Path.dirname (snd request)) requests /\
     JsObject.inherited d = false) /\
  (forall d,
     is_Some (Remapper.packageJSONCache
                (fst (Remapper.session findPackageJSON cwd requests)) !! d)
     <-> d ∈ Remapper.walks (fst (Remapper.session findPackageJSON cwd requests))) /\
  length (Remapper.walks (fst (Remapper.session findPackageJSON cwd requests)))
  <= length requests.
Proof.
  assert (Hfrom : forall d,
            d ∈ Remapper.walks (fst (Remapper.session findPackageJSON cwd requests)) ->
            d ∈ map (fun request => Path.dirname (snd request)) requests).
  { intros d Hd.
    destruct (run_walks_from findPackageJSON cwd requests Remapper.fresh d Hd)
      as [H | H]; [|exact H].
    simpl in H. now apply elem_of_nil in H. }
  split; [|split].
  - intros d Hd. split; [now apply Hfrom|].
    revert d Hd.
    apply (run_invariant findPackageJSON cwd
             (fun st => forall d, d ∈ Remapper.walks st -> JsObject.inherited d = false)).
    + intros st d. apply lookup_walks_not_inherited.
    + intros d H. simpl in H. now apply elem_of_nil in H.
  - apply (run_invariant findPackageJSON cwd cache_is_walks).
    + intros st d. apply lookup_cache_is_walks.
    + intros d. simpl. rewrite lookup_empty. split.
      * intros [v Hv]. discriminate.
      * intros H. now apply elem_of_nil in H.
  - rewrite <- (length_map (fun request : string * string => Path.dirname (snd request))
                  requests).
    apply submseteq_length, NoDup_submseteq; [|exact Hfrom].
    apply (run_walks_cached findPackageJSON cwd requests), fresh_walks_cached.
Qed.

(** X13.  A manifest without a name rewrites nothing: every specifier is
    returned as it is, except a specifier that starts with [undefined/],
    on which the hook throws a [TypeError]. *)
Theorem nameless_manifest_passes_through
    (findPackageJSON : string -> option Manifest.t) (cwd : list string)
    (st : Remapper.state) (source filename : string) (m : Manifest.t) :
  cache_consistent findPackageJSON st ->
  JsObject.inherited (Path.dirname filename) = false ->
  findPackageJSON (Path.dirname filename) = Some m ->
  Manifest.name m = None ->
  (forall rest,
     source = "undefined/" +:+ rest ->
     exists message,
       snd (Remapper.resolveModuleSource findPackageJSON cwd st source filename)
       = Throw (TypeError message)) /\
  ((forall rest, source <> "undefined/" +:+ rest) ->
     snd (Remapper.resolveModuleSource findPackageJSON cwd st source filename)
     = Ok source).
Proof.
  intros Hc Hi Hm Hname.
  assert (Hget := lookup_get findPackageJSON st (Path.dirname filename) Hc Hi).
  rewrite Hm in Hget. unfold Remapper.resolveModuleSource. cbn [snd].
  rewrite Hget, Hname. split.
  - intros rest ->.
    assert (Hsw : Remapper.starts_with "undefined/" ("undefined/" +:+ rest) = true)
      by (apply starts_with_spec; now exists rest).
    rewrite Hsw. eexists. reflexivity.
  - intros Hrest.
    destruct (Remapper.starts_with "undefined/" source) eqn:Hsw; [|reflexivity].
    apply starts_with_spec in Hsw as [rest ->]. now destruct (Hrest rest).
Qed.

Lemma nameless_manifest_passes_through_witness :
  (forall rest,
     "foo" = "undefined/" +:+ rest ->
     exists message,
       snd (Remapper.resolveModuleSource Fixtures.nameless_files [] Remapper.fresh
              "foo" "/app/docs/readme.md")
       = Throw (TypeError message)) /\
  ((forall rest, "foo" <> "undefined/" +:+ rest) ->
     snd (Remapper.resolveModuleSource Fixtures.nameless_files [] Remapper.fresh
            "foo" "/app/docs/readme.md")
     = Ok "foo").
Proof.
  apply (nameless_manifest_passes_through Fixtures.nameless_files [] Remapper.fresh
           "foo" "/app/docs/readme.md" Fixtures.nameless_manifest
           (fresh_consistent Fixtures.nameless_files)); reflexivity.
Defined.

Example nameless_manifest_examples :
  snd (Remapper.resolveModuleSource Fixtures.nameless_files [] Remapper.fresh
         "foo" "/app/docs/readme.md") = Ok "foo" /\
  snd (Remapper.resolveModuleSource Fixtures.nameless_files [] Remapper.fresh
         "undefined/x" "/app/docs/readme.md")
  = Throw (TypeError "Cannot read property 'length' of undefined").
Proof. split; vm_compute; reflexivity. Qed.
